(** * TacBoard: the shared-board server and the parts of the client
    (public/app.js) that the specification's properties rest on.

    The server is a single-threaded event loop: every socket event handler
    and every timer callback runs to completion.  A handler is embedded as a
    computation over the whole server state that may emit messages; a fired
    timer is one more kind of turn of the loop.  Console logging and the
    fire-and-forget writes to the database and to the JSON files change no
    server state and are left out; what they leave for the next process
    to load is part of the model of the start-up. *)

From Stdlib Require Import ZArith Lia Sorted.
From stdpp Require Import base strings list pretty.

Local Open Scope string_scope.
Local Open Scope Z_scope.
Local Open Scope list_scope.

(** ** JavaScript objects used as maps

    [state.users] and [state.tokens] are plain objects.  Their own string
    keys are enumerated in insertion order, which is what [Object.values]
    shows to the clients, so an object is an association list:
    assigning an existing key keeps its position, assigning a new key
    appends, [delete] drops the key.

    The list holds the own properties.  A lookup [o[k]] also sees what
    every object inherits from [Object.prototype]: under a name of
    [inheritedNames] that is no key of [o] itself it finds a function,
    or [Object.prototype] itself for [__proto__], all of them truthy.
    [get] is the lookup among the own properties; the handlers that test
    [state.tokens[id]] with an id chosen by a client consult [inherited]
    as well.  The keys of [state.users] are socket ids, which socket.io
    issues and which are none of these names. *)
Module JsObj.

Definition t (V : Type) : Type := list (string * V).

Definition inheritedNames : list string :=
  ["constructor"; "__defineGetter__"; "__defineSetter__"; "hasOwnProperty";
   "__lookupGetter__"; "__lookupSetter__"; "isPrototypeOf";
   "propertyIsEnumerable"; "toString"; "valueOf"; "__proto__";
   "toLocaleString"].

Definition inherited (k : string) : bool :=
  existsb (String.eqb k) inheritedNames.

Fixpoint get {V} (k : string) (o : t V) : option V :=
  match o with
  | [] => None
  | (k', v) :: o' => if String.eqb k' k then Some v else get k o'
  end.

Fixpoint set {V} (k : string) (v : V) (o : t V) : t V :=
  match o with
  | [] => [(k, v)]
  | (k', v') :: o' =>
      if String.eqb k' k then (k', v) :: o' else (k', v') :: set k v o'
  end.

Fixpoint delete {V} (k : string) (o : t V) : t V :=
  match o with
  | [] => []
  | (k', v) :: o' =>
      if String.eqb k' k then delete k o' else (k', v) :: delete k o'
  end.

Definition keys {V} (o : t V) : list string := o.*1.
Definition values {V} (o : t V) : list V := o.*2.

End JsObj.

(** ** Arrays: [findIndex] and [splice(idx, 1)] *)

Fixpoint findIndex {A} (p : A -> bool) (l : list A) : option nat :=
  match l with
  | [] => None
  | x :: l' => if p x then Some O else option_map S (findIndex p l')
  end.

Fixpoint splice1 {A} (idx : nat) (l : list A) : list A :=
  match l, idx with
  | [], _ => []
  | _ :: l', O => l'
  | x :: l', S i => x :: splice1 i l'
  end.

Fixpoint find {A} (p : A -> bool) (l : list A) : option A :=
  match l with
  | [] => None
  | x :: l' => if p x then Some x else find p l'
  end.

(** ** Data model

    Coordinates, widths and clock readings are JavaScript numbers that the
    server stores and forwards; the only arithmetic is on millisecond
    clock readings, which are integers. *)

Record Point := mkPoint { px : Z; py : Z }.

Record Stroke := mkStroke {
  s_id : string;
  points : list Point;
  s_color : string;
  s_width : Z;
  tool : string;
  s_socketId : string
}.

Record Arrow := mkArrow {
  a_id : string;
  x1 : Z; y1 : Z; x2 : Z; y2 : Z;
  a_color : string;
  a_width : Z;
  a_style : string;
  a_socketId : string
}.

Record Token := mkToken {
  t_id : string;
  t_x : Z; t_y : Z;
  t_color : string;
  label : string;
  shape : string;
  createdBy : string
}.

Record User := mkUser { u_id : string; username : string; u_color : string }.

(** What [snapState()] returns; also the shape of a recording's snapshot. *)
Record Snapshot := mkSnapshot {
  snap_strokes : list Stroke;
  snap_arrows : list Arrow;
  snap_tokens : JsObj.t Token
}.

(** Names of recordings and presets: either given by a client or the
    default built from [new Date().toLocaleString()], kept symbolic. *)
Inductive Name :=
| Named (s : string)
| DefaultRecording (now : Z)
| DefaultPreset (now : Z).

Record RecInfo := mkRecInfo {
  ri_id : nat; ri_name : Name; ri_timestamp : Z;
  ri_duration : Z; ri_eventCount : nat
}.

Record PresetInfo := mkPresetInfo {
  pi_id : nat; pi_name : Name; pi_timestamp : Z;
  strokeCount : nat; arrowCount : nat; tokenCount : nat
}.

Record DrawData := mkDrawData {
  d_tool : string; d_width : Z; d_points : list Point
}.

(** The payloads the server sends, one variant per shape. *)
Inductive Payload :=
| PNone
| PEmpty
| PStroke (s : Stroke)
| PIds (ids : list string)
| PToken (tk : Token)
| PTokenMove (id : string) (x y : Z)
| PTokenId (id : string)
| PTokenLabel (id : string) (lbl : string)
| PArrow (a : Arrow)
| PArrowConfirmed (tempId : string) (a : Arrow)
| PBoard (strokes : list Stroke) (arrows : list Arrow) (tokens : list Token)
| PInit (strokes : list Stroke) (tokens : list Token) (arrows : list Arrow)
        (users : list User) (you : User)
| PUser (u : User)
| PUsers (us : list User)
| PDrawMove (d : DrawData) (socketId : string) (color : string)
| PCursor (socketId : string) (uname : string) (color : string) (x y : Z)
| PSocketId (socketId : string)
| PReplayStarted (duration : Z) (recId : nat)
| PRecordings (l : list RecInfo)
| PPresets (l : list PresetInfo)
| PPresetSaved (id : nat) (name : Name).

(** [io.emit], [socket.broadcast.emit] and [socket.emit]. *)
Inductive Target :=
| ToAll
| ToOthers (origin : string)
| ToSocket (origin : string).

Record Emit := mkEmit { target : Target; e_event : string; e_data : Payload }.

(** Whether the connection [conn] is handed the message. *)
Definition receives (conn : string) (e : Emit) : bool :=
  match target e with
  | ToAll => true
  | ToOthers origin => negb (String.eqb origin conn)
  | ToSocket origin => String.eqb origin conn
  end.

Definition inbox (conn : string) (out : list Emit) : list Emit :=
  List.filter (receives conn) out.

Record TimelineEntry := mkEntry { t : Z; event : string; data : Payload }.

Record Recording := mkRecording {
  r_id : nat;
  r_name : Name;
  r_timestamp : Z;
  duration : Z;
  eventCount : nat;
  snapshot : option Snapshot;
  timeline : list TimelineEntry
}.

Record Preset := mkPreset {
  p_id : nat;
  p_name : Name;
  p_timestamp : Z;
  p_strokes : list Stroke;
  p_arrows : list Arrow;
  p_tokens : JsObj.t Token
}.

(** ** Timers

    What a pending [setTimeout] callback of the server does when it fires:
    the delayed [replay-init], the re-emission of one timeline entry, or
    [finishReplay]. *)
Inductive Callback :=
| CbReplayInit (snap : Snapshot)
| CbEmit (ev : string) (d : Payload)
| CbFinishReplay.

(** A pending timer: its handle, the clock reading when it was set, the
    delay that [setTimeout] was asked for, and its callback. *)
Record Timer := mkTimer {
  tid : nat;
  setAt : Z;
  delay : Z;
  callback : Callback
}.

(** ** Server state *)

Record State := mkState {
  users : JsObj.t User;
  strokes : list Stroke;
  tokens : JsObj.t Token;
  arrows : list Arrow
}.

Record Rec := mkRec {
  rec_active : bool;
  rec_start : Z;
  rec_snapshot : option Snapshot;
  rec_timeline : list TimelineEntry
}.

Record Rep := mkRep {
  rep_active : bool;
  rep_timers : list nat;
  preSnap : option Snapshot;
  currentRecId : option nat
}.

Record Server := mkServer {
  state : State;
  nextTokenId : nat;
  nextArrowId : nat;
  rec : Rec;
  rep : Rep;
  recordings : list Recording;
  nextRecId : nat;
  boardPresets : list Preset;
  nextPresetId : nat;
  colorIndex : nat;
  pending : list Timer;
  nextTimer : nat
}.

(** The module-level initial values of the server.  [startServer], below,
    loads the presets and recordings that an earlier process left before
    the server listens; the store, both id counters, the recorder, the
    replay engine and the colour index start from these values every
    time. *)
Definition init : Server := {|
  state := {| users := []; strokes := []; tokens := []; arrows := [] |};
  nextTokenId := 1;
  nextArrowId := 1;
  rec := {| rec_active := false; rec_start := 0; rec_snapshot := None;
            rec_timeline := [] |};
  rep := {| rep_active := false; rep_timers := []; preSnap := None;
            currentRecId := None |};
  recordings := [];
  nextRecId := 1;
  boardPresets := [];
  nextPresetId := 1;
  colorIndex := 0;
  pending := [];
  nextTimer := 0
|}.

(** Field updates. *)

Definition upd_state (f : State -> State) (σ : Server) : Server :=
  mkServer (f (state σ)) (nextTokenId σ) (nextArrowId σ) (rec σ) (rep σ)
    (recordings σ) (nextRecId σ) (boardPresets σ) (nextPresetId σ)
    (colorIndex σ) (pending σ) (nextTimer σ).

Definition upd_nextTokenId (f : nat -> nat) (σ : Server) : Server :=
  mkServer (state σ) (f (nextTokenId σ)) (nextArrowId σ) (rec σ) (rep σ)
    (recordings σ) (nextRecId σ) (boardPresets σ) (nextPresetId σ)
    (colorIndex σ) (pending σ) (nextTimer σ).

Definition upd_nextArrowId (f : nat -> nat) (σ : Server) : Server :=
  mkServer (state σ) (nextTokenId σ) (f (nextArrowId σ)) (rec σ) (rep σ)
    (recordings σ) (nextRecId σ) (boardPresets σ) (nextPresetId σ)
    (colorIndex σ) (pending σ) (nextTimer σ).

Definition upd_rec (f : Rec -> Rec) (σ : Server) : Server :=
  mkServer (state σ) (nextTokenId σ) (nextArrowId σ) (f (rec σ)) (rep σ)
    (recordings σ) (nextRecId σ) (boardPresets σ) (nextPresetId σ)
    (colorIndex σ) (pending σ) (nextTimer σ).

Definition upd_rep (f : Rep -> Rep) (σ : Server) : Server :=
  mkServer (state σ) (nextTokenId σ) (nextArrowId σ) (rec σ) (f (rep σ))
    (recordings σ) (nextRecId σ) (boardPresets σ) (nextPresetId σ)
    (colorIndex σ) (pending σ) (nextTimer σ).

Definition upd_recordings (f : list Recording -> list Recording)
    (σ : Server) : Server :=
  mkServer (state σ) (nextTokenId σ) (nextArrowId σ) (rec σ) (rep σ)
    (f (recordings σ)) (nextRecId σ) (boardPresets σ) (nextPresetId σ)
    (colorIndex σ) (pending σ) (nextTimer σ).

Definition upd_nextRecId (f : nat -> nat) (σ : Server) : Server :=
  mkServer (state σ) (nextTokenId σ) (nextArrowId σ) (rec σ) (rep σ)
    (recordings σ) (f (nextRecId σ)) (boardPresets σ) (nextPresetId σ)
    (colorIndex σ) (pending σ) (nextTimer σ).

Definition upd_boardPresets (f : list Preset -> list Preset)
    (σ : Server) : Server :=
  mkServer (state σ) (nextTokenId σ) (nextArrowId σ) (rec σ) (rep σ)
    (recordings σ) (nextRecId σ) (f (boardPresets σ)) (nextPresetId σ)
    (colorIndex σ) (pending σ) (nextTimer σ).

Definition upd_nextPresetId (f : nat -> nat) (σ : Server) : Server :=
  mkServer (state σ) (nextTokenId σ) (nextArrowId σ) (rec σ) (rep σ)
    (recordings σ) (nextRecId σ) (boardPresets σ) (f (nextPresetId σ))
    (colorIndex σ) (pending σ) (nextTimer σ).

Definition upd_colorIndex (f : nat -> nat) (σ : Server) : Server :=
  mkServer (state σ) (nextTokenId σ) (nextArrowId σ) (rec σ) (rep σ)
    (recordings σ) (nextRecId σ) (boardPresets σ) (nextPresetId σ)
    (f (colorIndex σ)) (pending σ) (nextTimer σ).

Definition upd_pending (f : list Timer -> list Timer) (σ : Server) : Server :=
  mkServer (state σ) (nextTokenId σ) (nextArrowId σ) (rec σ) (rep σ)
    (recordings σ) (nextRecId σ) (boardPresets σ) (nextPresetId σ)
    (colorIndex σ) (f (pending σ)) (nextTimer σ).

Definition upd_nextTimer (f : nat -> nat) (σ : Server) : Server :=
  mkServer (state σ) (nextTokenId σ) (nextArrowId σ) (rec σ) (rep σ)
    (recordings σ) (nextRecId σ) (boardPresets σ) (nextPresetId σ)
    (colorIndex σ) (pending σ) (f (nextTimer σ)).

Definition upd_users (f : JsObj.t User -> JsObj.t User) (st : State) : State :=
  mkState (f (users st)) (strokes st) (tokens st) (arrows st).

Definition upd_strokes (f : list Stroke -> list Stroke) (st : State) : State :=
  mkState (users st) (f (strokes st)) (tokens st) (arrows st).

Definition upd_tokens (f : JsObj.t Token -> JsObj.t Token) (st : State) : State :=
  mkState (users st) (strokes st) (f (tokens st)) (arrows st).

Definition upd_arrows (f : list Arrow -> list Arrow) (st : State) : State :=
  mkState (users st) (strokes st) (tokens st) (f (arrows st)).

(** ** Handlers as computations

    A turn of the event loop reads and writes the server state, emits
    messages and may throw; an uncaught exception in a handler ends the
    process. *)

Inductive Res (A : Type) :=
| Ok (a : A) (σ : Server) (out : list Emit)
| Throw.
Arguments Ok {A} a σ out.
Arguments Throw {A}.

Definition M (A : Type) : Type := Server -> Res A.

Definition ret {A} (a : A) : M A := fun σ => Ok a σ [].

Definition bind {A B} (m : M A) (f : A -> M B) : M B :=
  fun σ =>
    match m σ with
    | Ok a σ' out =>
        match f a σ' with
        | Ok b σ'' out' => Ok b σ'' (out ++ out')
        | Throw => Throw
        end
    | Throw => Throw
    end.

Declare Scope handler_scope.
Delimit Scope handler_scope with M.
Notation "x ← y ; z" := (bind y (fun x => z))
  (at level 20, y at level 100, z at level 200, only parsing) : handler_scope.
Notation "x ;; z" := (bind x (fun _ => z))
  (at level 100, z at level 200, only parsing, right associativity)
  : handler_scope.
Local Open Scope handler_scope.

Definition get : M Server := fun σ => Ok σ σ [].
Definition modify (f : Server -> Server) : M unit := fun σ => Ok tt (f σ) [].
Definition throw {A} : M A := fun _ => Throw.
Definition emit (e : Emit) : M unit := fun σ => Ok tt σ [e].

Definition io_emit (ev : string) (d : Payload) : M unit :=
  emit (mkEmit ToAll ev d).
Definition socket_broadcast_emit (socket : string) (ev : string)
    (d : Payload) : M unit :=
  emit (mkEmit (ToOthers socket) ev d).
Definition socket_emit (socket : string) (ev : string) (d : Payload) : M unit :=
  emit (mkEmit (ToSocket socket) ev d).

Fixpoint forEach {A} (l : list A) (f : A -> M unit) : M unit :=
  match l with
  | [] => ret tt
  | x :: l' => f x ;; forEach l' f
  end.

(** [JSON.parse(JSON.stringify(v))]: a structurally equal, unshared copy.
    Values here are immutable, so the copy is the value. *)
Definition deepCopy {A} (v : A) : A := v.

(** [setTimeout] registers a callback with the loop and returns its handle;
    [clearTimeout] drops the callback with that handle, if still pending.
    The timer keeps the delay it was asked for; when Node lets it fall due
    is [dueAt], below. *)
Definition setTimeout (now : Z) (cb : Callback) (ms : Z) : M nat :=
  σ ← get;
  let h := nextTimer σ in
  modify (upd_pending (fun p => p ++ [mkTimer h now ms cb])) ;;
  modify (upd_nextTimer S) ;;
  ret h.

Definition clearTimeout (h : nat) : M unit :=
  modify (upd_pending (List.filter (fun tm => negb (Nat.eqb (tid tm) h)))).

(** The delay after which Node runs a timer: a delay below 1 ms or above
    [TIMEOUT_MAX] (2^31 - 1 ms) is replaced by 1 ms. *)
Definition TIMEOUT_MAX : Z := 2147483647.

Definition timerDelay (ms : Z) : Z :=
  if (1 <=? ms) && (ms <=? TIMEOUT_MAX) then ms else 1.

Definition dueAt (tm : Timer) : Z := setAt tm + timerDelay (delay tm).

(** ** Recording and replay helpers *)

(** [recordEvent(event, data)]; [now] is the reading of [Date.now()].
    An entry is kept with the payload as it was when recorded (for
    token-add the server keeps the very object it stores, so a later
    token-move or token-relabel of that token also shows in the entry;
    offsets, event names and the number of entries are not affected). *)
Definition recordEvent (now : Z) (ev : string) (d : Payload) : M unit :=
  σ ← get;
  if negb (rec_active (rec σ)) then ret tt
  else
    modify (upd_rec (fun r =>
      mkRec (rec_active r) (rec_start r) (rec_snapshot r)
            (rec_timeline r ++ [mkEntry (now - rec_start r) ev d]))).

Definition snapState : M Snapshot :=
  σ ← get;
  ret (mkSnapshot (deepCopy (strokes (state σ)))
                  (deepCopy (arrows (state σ)))
                  (deepCopy (tokens (state σ)))).

(** The payload [{ strokes, arrows, tokens: Object.values(tokens) }]. *)
Definition boardPayload (s : Snapshot) : Payload :=
  PBoard (snap_strokes s) (snap_arrows s) (JsObj.values (snap_tokens s)).

Definition restoreState (s : Snapshot) (st : State) : State :=
  mkState (users st) (snap_strokes s) (snap_tokens s) (snap_arrows s).

(** [finishReplay()].  Reading [s.strokes] throws when [rep.preSnap] is
    still [null].  From here on the store shares its arrays with
    [rep.preSnap]; [rep.preSnap] is not read again before replay-start
    replaces it. *)
Definition finishReplay : M unit :=
  σ ← get;
  forEach (rep_timers (rep σ)) clearTimeout ;;
  modify (upd_rep (fun r => mkRep false [] (preSnap r) None)) ;;
  match preSnap (rep σ) with
  | None => throw
  | Some s =>
      modify (upd_state (restoreState s)) ;;
      io_emit "clear-board" PNone ;;
      io_emit "tokens-cleared" PNone ;;
      io_emit "replay-restore" (boardPayload s) ;;
      io_emit "replay-done" PNone
  end.

Definition getRecordingsList : M (list RecInfo) :=
  σ ← get;
  ret (map (fun r => mkRecInfo (r_id r) (r_name r) (r_timestamp r)
                               (duration r) (eventCount r))
           (recordings σ)).

Definition getBoardPresetsList : M (list PresetInfo) :=
  σ ← get;
  ret (map (fun p => mkPresetInfo (p_id p) (p_name p) (p_timestamp p)
                       (length (p_strokes p)) (length (p_arrows p))
                       (length (JsObj.keys (p_tokens p))))
           (boardPresets σ)).

Definition USER_COLORS : list string :=
  ["#e74c3c"; "#3498db"; "#2ecc71"; "#f39c12";
   "#9b59b6"; "#1abc9c"; "#e67e22"; "#e91e63"].

Definition getNextColor : M string :=
  σ ← get;
  let c := nth (colorIndex σ mod length USER_COLORS) USER_COLORS "" in
  modify (upd_colorIndex S) ;;
  ret c.

(** [a || b] on strings: the empty string is falsy. *)
Definition or_else (a b : string) : string :=
  if String.eqb a "" then b else a.

(** Identifiers [`t${n}`] and [`ar${n}`]. *)
Definition tokenIdOf (n : nat) : string := "t" +:+ pretty n.
Definition arrowIdOf (n : nat) : string := "ar" +:+ pretty n.

(** The [ids.forEach] loop shared by stroke-remove and arrow-remove: each
    id removes the first element carrying it, if there is one. *)
Definition removeById {A} (idOf : A -> string) (l : list A) (id : string)
    : list A :=
  match findIndex (fun x => String.eqb (idOf x) id) l with
  | Some idx => splice1 idx l
  | None => l
  end.

Definition removeByIds {A} (idOf : A -> string) (ids : list string)
    (l : list A) : list A :=
  fold_left (removeById idOf) ids l.

(** ** Inbound events *)

Inductive ClientMsg :=
| Join (uname : string)
| DrawMove (d : DrawData)
| StrokeDone (stroke : Stroke)
| StrokeRemove (ids : list string)
| TokenAdd (token : Token)
| TokenMove (id : string) (x y : Z)
| TokenRemove (id : string)
| TokenRelabel (id : string) (lbl : string)
| ArrowDone (arrow : Arrow)
| ArrowRemove (ids : list string)
| ClearBoard
| ClearDrawings
| CursorMove (x y : Z)
| RecordingStart
| RecordingStop
| ReplayStart (recId : nat)
| ReplayStop
| GetRecordings
| RenameRecording (recId : nat) (newName : string)
| DeleteRecording (recId : nat)
| SavePreset (name : string)
| LoadPreset (presetId : nat)
| RenamePreset (presetId : nat) (newName : string)
| DeletePreset (presetId : nat)
| GetPresets
| Disconnect.

Section Handlers.

(** [socket.id] of the connection whose event is handled, and the clock
    reading during the turn. *)
Variable socket : string.
Variable now : Z.

Definition on_join (uname : string) : M unit :=
  modify (upd_state (upd_users (JsObj.delete socket))) ;;
  color ← getNextColor;
  let you := mkUser socket uname color in
  modify (upd_state (upd_users (JsObj.set socket you))) ;;
  σ ← get;
  socket_emit socket "init-state"
    (PInit (strokes (state σ)) (JsObj.values (tokens (state σ)))
           (arrows (state σ)) (JsObj.values (users (state σ))) you) ;;
  socket_broadcast_emit socket "user-joined" (PUser you) ;;
  socket_broadcast_emit socket "user-list"
    (PUsers (JsObj.values (users (state σ)))).

Definition on_draw_move (d : DrawData) : M unit :=
  σ ← get;
  let color :=
    match JsObj.get socket (users (state σ)) with
    | Some u => or_else (u_color u) "#fff"
    | None => "#fff"
    end in
  socket_broadcast_emit socket "draw-move" (PDrawMove d socket color).

Definition on_stroke_done (stroke : Stroke) : M unit :=
  let saved :=
    mkStroke (s_id stroke) (points stroke) (s_color stroke)
             (s_width stroke) (tool stroke) socket in
  modify (upd_state (upd_strokes (fun l => l ++ [saved]))) ;;
  socket_broadcast_emit socket "stroke-done" (PStroke saved) ;;
  recordEvent now "stroke-done" (PStroke saved).

Definition on_stroke_remove (ids : list string) : M unit :=
  modify (upd_state (upd_strokes (removeByIds s_id ids))) ;;
  io_emit "stroke-remove" (PIds ids) ;;
  recordEvent now "stroke-remove" (PIds ids).

Definition on_token_add (token : Token) : M unit :=
  σ ← get;
  let id := tokenIdOf (nextTokenId σ) in
  modify (upd_nextTokenId S) ;;
  let newToken :=
    mkToken id (t_x token) (t_y token) (t_color token) (label token)
            (shape token) (createdBy token) in
  modify (upd_state (upd_tokens (JsObj.set id newToken))) ;;
  io_emit "token-add" (PToken newToken) ;;
  recordEvent now "token-add" (PToken newToken).

(** [if (state.tokens[id])] holds for a stored token and also for an
    inherited name.  In the second case [x] and [y] are set on the
    inherited function (on [Object.prototype] for [__proto__]), which is
    no part of the store, and the event is relayed and recorded all the
    same. *)
Definition on_token_move (id : string) (x y : Z) : M unit :=
  σ ← get;
  match JsObj.get id (tokens (state σ)) with
  | Some tk =>
      let moved :=
        mkToken (t_id tk) x y (t_color tk) (label tk) (shape tk)
                (createdBy tk) in
      modify (upd_state (upd_tokens (JsObj.set id moved))) ;;
      socket_broadcast_emit socket "token-move" (PTokenMove id x y) ;;
      recordEvent now "token-move" (PTokenMove id x y)
  | None =>
      if JsObj.inherited id then
        socket_broadcast_emit socket "token-move" (PTokenMove id x y) ;;
        recordEvent now "token-move" (PTokenMove id x y)
      else ret tt
  end.

Definition on_token_remove (id : string) : M unit :=
  modify (upd_state (upd_tokens (JsObj.delete id))) ;;
  io_emit "token-remove" (PTokenId id) ;;
  recordEvent now "token-remove" (PTokenId id).

(** Under an inherited name the label is set on the inherited function,
    and the store stays as it is, as for an id that is not there. *)
Definition on_token_relabel (id : string) (lbl : string) : M unit :=
  σ ← get;
  match JsObj.get id (tokens (state σ)) with
  | Some tk =>
      let relabelled :=
        mkToken (t_id tk) (t_x tk) (t_y tk) (t_color tk) lbl (shape tk)
                (createdBy tk) in
      modify (upd_state (upd_tokens (JsObj.set id relabelled)))
  | None => ret tt
  end ;;
  io_emit "token-relabel" (PTokenLabel id lbl) ;;
  recordEvent now "token-relabel" (PTokenLabel id lbl).

Definition on_arrow_done (arrow : Arrow) : M unit :=
  σ ← get;
  let saved :=
    mkArrow (arrowIdOf (nextArrowId σ)) (x1 arrow) (y1 arrow) (x2 arrow)
            (y2 arrow) (a_color arrow) (a_width arrow) (a_style arrow)
            socket in
  modify (upd_nextArrowId S) ;;
  modify (upd_state (upd_arrows (fun l => l ++ [saved]))) ;;
  socket_broadcast_emit socket "arrow-done" (PArrow saved) ;;
  socket_emit socket "arrow-confirmed" (PArrowConfirmed (a_id arrow) saved) ;;
  recordEvent now "arrow-done" (PArrow saved).

Definition on_arrow_remove (ids : list string) : M unit :=
  modify (upd_state (upd_arrows (removeByIds a_id ids))) ;;
  io_emit "arrow-remove" (PIds ids) ;;
  recordEvent now "arrow-remove" (PIds ids).

Definition on_clear_board : M unit :=
  modify (upd_state (upd_strokes (fun _ => []))) ;;
  modify (upd_state (upd_arrows (fun _ => []))) ;;
  modify (upd_state (upd_tokens (fun _ => []))) ;;
  io_emit "clear-board" PNone ;;
  io_emit "tokens-cleared" PNone ;;
  recordEvent now "clear-board" PEmpty ;;
  recordEvent now "tokens-cleared" PEmpty.

Definition on_clear_drawings : M unit :=
  modify (upd_state (upd_strokes (fun _ => []))) ;;
  modify (upd_state (upd_arrows (fun _ => []))) ;;
  io_emit "clear-board" PNone ;;
  recordEvent now "clear-board" PEmpty.

Definition on_cursor_move (x y : Z) : M unit :=
  σ ← get;
  let u := JsObj.get socket (users (state σ)) in
  socket_broadcast_emit socket "cursor-move"
    (PCursor socket
       (match u with Some u => or_else (username u) "?" | None => "?" end)
       (match u with Some u => or_else (u_color u) "#fff" | None => "#fff" end)
       x y).

End Handlers.

Section Controls.

Variable socket : string.
Variable now : Z.

Definition on_recording_start : M unit :=
  σ ← get;
  if rec_active (rec σ) || rep_active (rep σ) then ret tt
  else
    snap ← snapState;
    modify (upd_rec (fun _ => mkRec true now (Some snap) [])) ;;
    io_emit "recording-started" PNone.

(** The database and file writes that follow [recordings.push] are
    fire-and-forget and touch no server state. *)
Definition on_recording_stop : M unit :=
  σ ← get;
  if negb (rec_active (rec σ)) then ret tt
  else
    modify (upd_rec (fun r =>
      mkRec false (rec_start r) (rec_snapshot r) (rec_timeline r))) ;;
    let tl := rec_timeline (rec σ) in
    let dur := match last tl with Some e => t e | None => 0 end in
    let savedRec :=
      mkRecording (nextRecId σ) (DefaultRecording now) now dur
                  (length tl) (rec_snapshot (rec σ)) tl in
    modify (upd_nextRecId S) ;;
    modify (upd_recordings (fun l => l ++ [savedRec])) ;;
    l ← getRecordingsList;
    io_emit "recording-saved" (PRecordings l).

Definition push_rep_timer (h : nat) : M unit :=
  modify (upd_rep (fun r =>
    mkRep (rep_active r) (rep_timers r ++ [h]) (preSnap r) (currentRecId r))).

Definition on_replay_start (recId : nat) : M unit :=
  σ ← get;
  if rep_active (rep σ) then ret tt
  else
    match find (fun r => Nat.eqb (r_id r) recId) (recordings σ) with
    | None => ret tt
    | Some recording =>
        pre ← snapState;
        modify (upd_rep (fun r =>
          mkRep true (rep_timers r) (Some pre) (Some recId))) ;;
        match snapshot recording with
        | None => throw
        | Some snap =>
            modify (upd_state (restoreState (deepCopy snap))) ;;
            io_emit "clear-board" PNone ;;
            io_emit "tokens-cleared" PNone ;;
            io_emit "replay-started"
              (PReplayStarted (duration recording) recId) ;;
            _ ← setTimeout now (CbReplayInit snap) 150;
            modify (upd_rep (fun r =>
              mkRep (rep_active r) [] (preSnap r) (currentRecId r))) ;;
            forEach (timeline recording) (fun entry =>
              h ← setTimeout now (CbEmit (event entry) (data entry))
                    (t entry + 350);
              push_rep_timer h) ;;
            endTid ← setTimeout now CbFinishReplay (duration recording + 900);
            push_rep_timer endTid
        end
    end.

Definition on_replay_stop : M unit :=
  σ ← get;
  if rep_active (rep σ) then finishReplay else ret tt.

Definition on_get_recordings : M unit :=
  l ← getRecordingsList;
  socket_emit socket "recordings-list" (PRecordings l).

(** [recording.name = newName] on the first recording with that id. *)
Fixpoint renameFirst {A} (p : A -> bool) (f : A -> A) (l : list A) : list A :=
  match l with
  | [] => []
  | x :: l' => if p x then f x :: l' else x :: renameFirst p f l'
  end.

Definition on_rename_recording (recId : nat) (newName : string) : M unit :=
  σ ← get;
  match find (fun r => Nat.eqb (r_id r) recId) (recordings σ) with
  | Some _ =>
      modify (upd_recordings (renameFirst
        (fun r => Nat.eqb (r_id r) recId)
        (fun r => mkRecording (r_id r) (Named newName) (r_timestamp r)
                    (duration r) (eventCount r) (snapshot r) (timeline r)))) ;;
      l ← getRecordingsList;
      io_emit "recordings-list" (PRecordings l)
  | None => ret tt
  end.

Definition on_delete_recording (recId : nat) : M unit :=
  σ ← get;
  match findIndex (fun r => Nat.eqb (r_id r) recId) (recordings σ) with
  | Some idx =>
      modify (upd_recordings (splice1 idx)) ;;
      l ← getRecordingsList;
      io_emit "recordings-list" (PRecordings l)
  | None => ret tt
  end.

Definition on_save_preset (name : string) : M unit :=
  σ ← get;
  let preset :=
    mkPreset (nextPresetId σ)
      (if String.eqb name "" then DefaultPreset now else Named name)
      now
      (deepCopy (strokes (state σ)))
      (deepCopy (arrows (state σ)))
      (deepCopy (tokens (state σ))) in
  modify (upd_nextPresetId S) ;;
  modify (upd_boardPresets (fun l => l ++ [preset])) ;;
  l ← getBoardPresetsList;
  io_emit "presets-list" (PPresets l) ;;
  socket_emit socket "preset-saved" (PPresetSaved (p_id preset) (p_name preset)).

Definition on_load_preset (presetId : nat) : M unit :=
  σ ← get;
  match find (fun p => Nat.eqb (p_id p) presetId) (boardPresets σ) with
  | None => ret tt
  | Some preset =>
      let s := mkSnapshot (p_strokes preset) (p_arrows preset)
                          (p_tokens preset) in
      modify (upd_state (restoreState (deepCopy s))) ;;
      io_emit "clear-board" PNone ;;
      io_emit "tokens-cleared" PNone ;;
      io_emit "preset-loaded" (boardPayload s)
  end.

Definition on_rename_preset (presetId : nat) (newName : string) : M unit :=
  σ ← get;
  match find (fun p => Nat.eqb (p_id p) presetId) (boardPresets σ) with
  | Some _ =>
      modify (upd_boardPresets (renameFirst
        (fun p => Nat.eqb (p_id p) presetId)
        (fun p => mkPreset (p_id p) (Named newName) (p_timestamp p)
                    (p_strokes p) (p_arrows p) (p_tokens p)))) ;;
      l ← getBoardPresetsList;
      io_emit "presets-list" (PPresets l)
  | None => ret tt
  end.

Definition on_delete_preset (presetId : nat) : M unit :=
  σ ← get;
  match findIndex (fun p => Nat.eqb (p_id p) presetId) (boardPresets σ) with
  | Some idx =>
      modify (upd_boardPresets (splice1 idx)) ;;
      l ← getBoardPresetsList;
      io_emit "presets-list" (PPresets l)
  | None => ret tt
  end.

Definition on_get_presets : M unit :=
  l ← getBoardPresetsList;
  socket_emit socket "presets-list" (PPresets l).

Definition on_disconnect : M unit :=
  σ ← get;
  let departedUser := JsObj.get socket (users (state σ)) in
  modify (upd_state (upd_users (JsObj.delete socket))) ;;
  socket_broadcast_emit socket "cursor-remove" (PSocketId socket) ;;
  match departedUser with
  | Some u => socket_broadcast_emit socket "user-left" (PUser u)
  | None => ret tt
  end ;;
  σ' ← get;
  socket_broadcast_emit socket "user-list"
    (PUsers (JsObj.values (users (state σ')))).

End Controls.

(** The handler registered for each event name. *)
Definition handle (socket : string) (now : Z) (msg : ClientMsg) : M unit :=
  match msg with
  | Join uname => on_join socket uname
  | DrawMove d => on_draw_move socket d
  | StrokeDone stroke => on_stroke_done socket now stroke
  | StrokeRemove ids => on_stroke_remove now ids
  | TokenAdd token => on_token_add now token
  | TokenMove id x y => on_token_move socket now id x y
  | TokenRemove id => on_token_remove now id
  | TokenRelabel id lbl => on_token_relabel now id lbl
  | ArrowDone arrow => on_arrow_done socket now arrow
  | ArrowRemove ids => on_arrow_remove now ids
  | ClearBoard => on_clear_board now
  | ClearDrawings => on_clear_drawings now
  | CursorMove x y => on_cursor_move socket x y
  | RecordingStart => on_recording_start now
  | RecordingStop => on_recording_stop now
  | ReplayStart recId => on_replay_start now recId
  | ReplayStop => on_replay_stop
  | GetRecordings => on_get_recordings socket
  | RenameRecording recId newName => on_rename_recording recId newName
  | DeleteRecording recId => on_delete_recording recId
  | SavePreset name => on_save_preset socket now name
  | LoadPreset presetId => on_load_preset presetId
  | RenamePreset presetId newName => on_rename_preset presetId newName
  | DeletePreset presetId => on_delete_preset presetId
  | GetPresets => on_get_presets socket
  | Disconnect => on_disconnect socket
  end.

(** What a timer does when the loop runs it. *)
Definition runCallback (cb : Callback) : M unit :=
  match cb with
  | CbReplayInit snap => io_emit "replay-init" (boardPayload snap)
  | CbEmit ev d => io_emit ev d
  | CbFinishReplay => finishReplay
  end.

(** The loop runs the pending timer with handle [h]; a handle that is not
    pending (already fired or cleared) never runs. *)
Definition fire (h : nat) : M unit :=
  σ ← get;
  match find (fun tm => Nat.eqb (tid tm) h) (pending σ) with
  | None => ret tt
  | Some tm =>
      modify (upd_pending (List.filter (fun tm => negb (Nat.eqb (tid tm) h)))) ;;
      runCallback (callback tm)
  end.

(** One turn of the event loop: an event arriving from a connection, or a
    pending timer firing.  The order in which due timers fire is left open
    here; every ordering the runtime can choose is among those covered. *)
Inductive Turn :=
| Inbound (socket : string) (now : Z) (msg : ClientMsg)
| Fire (h : nat).

Definition step (a : Turn) : M unit :=
  match a with
  | Inbound socket now msg => handle socket now msg
  | Fire h => fire h
  end.

Fixpoint run (turns : list Turn) : M unit :=
  match turns with
  | [] => ret tt
  | a :: turns' => step a ;; run turns'
  end.

(** ** Start-up

    [startServer] runs [loadPresets] and [loadRecordings] before the
    server listens.  Each of them takes the rows of its table when a
    database is configured and answers, and else the parsed JSON file
    when there is one.  A file is [{ presets, nextId }] or
    [{ recordings, nextId }]. *)
Inductive Found (A : Type) :=
| Rows (rows : list A)
| File (items : list A) (nextId : nat)
| Nothing.
Arguments Rows {A} rows.
Arguments File {A} items nextId.
Arguments Nothing {A}.

(** [Math.max(...ids) + 1]. *)
Definition afterMax (ids : list nat) : nat := S (list_max ids).

(** [parsed.nextId || 1]: 0 is falsy. *)
Definition or_one (n : nat) : nat := if Nat.eqb n 0 then 1%nat else n.

Definition loadPresets (found : Found Preset) : M unit :=
  match found with
  | Rows rows =>
      modify (upd_boardPresets (fun _ => rows)) ;;
      if (0 <? length rows)%nat
      then modify (upd_nextPresetId (fun _ => afterMax (p_id <$> rows)))
      else ret tt
  | File items nextId =>
      modify (upd_boardPresets (fun _ => items)) ;;
      modify (upd_nextPresetId (fun _ => or_one nextId))
  | Nothing => ret tt
  end.

Definition loadRecordings (found : Found Recording) : M unit :=
  match found with
  | Rows rows =>
      modify (upd_recordings (fun _ => rows)) ;;
      if (0 <? length rows)%nat
      then modify (upd_nextRecId (fun _ => afterMax (r_id <$> rows)))
      else ret tt
  | File items nextId =>
      modify (upd_recordings (fun _ => items)) ;;
      modify (upd_nextRecId (fun _ => or_one nextId))
  | Nothing => ret tt
  end.

Definition startServer (presets : Found Preset) (recs : Found Recording)
    : M unit :=
  loadPresets presets ;; loadRecordings recs.

(** The state in which a process starts to listen. *)
Definition started (presets : Found Preset) (recs : Found Recording)
    : Server :=
  match startServer presets recs init with
  | Ok _ σ _ => σ
  | Throw => init
  end.

(** What the next process finds of the presets, or of the recordings,
    that a process leaves behind once the writes that its handlers
    started have gone through: the rows of the table, in which the
    handlers insert, update and delete each element under its id and
    which are read in the order of their ids, or the file, which
    [savePresets] and [saveRecordings] rewrite with the whole array and
    the counter. *)
Inductive leftAs {A} (items : list A) (nextId : nat) : Found A -> Prop :=
| left_rows : leftAs items nextId (Rows items)
| left_file : leftAs items nextId (File items nextId).

(** States the server can be in: after some turns of a process that found
    nothing stored, or of a process that found what an earlier one
    left. *)
Inductive reachable : Server -> Prop :=
| reachable_init : reachable init
| reachable_step a σ σ' out :
    reachable σ -> step a σ = Ok tt σ' out -> reachable σ'
| reachable_restart σ presets recs :
    reachable σ ->
    leftAs (boardPresets σ) (nextPresetId σ) presets ->
    leftAs (recordings σ) (nextRecId σ) recs ->
    reachable (started presets recs).

(** The Document Store: the strokes, arrows and tokens of [state]. *)
Definition store (σ : Server) : Snapshot :=
  mkSnapshot (strokes (state σ)) (arrows (state σ)) (tokens (state σ)).

(** ** The client (public/app.js) *)
Module Client.

(** Of the [pointerup] listener: the stroke it sends as [stroke-done],
    if it sends one.  [size] is [+sizePicker.value]; in own-lines-only
    erase mode the listener sends [stroke-remove] instead. *)
Definition pointerup_stroke_done (myId : string) (strokeSeq : nat)
    (activeTool : string) (ownEraseOnly : bool) (currentPath : list Point)
    (color : string) (size : Z) : option Stroke :=
  if String.eqb activeTool "draw" && (2 <=? length currentPath)%nat then
    Some (mkStroke (myId +:+ "-" +:+ pretty (S strokeSeq)) currentPath
                   color size "draw" myId)
  else if String.eqb activeTool "erase" && (2 <=? length currentPath)%nat then
    if ownEraseOnly then None
    else
      Some (mkStroke (myId +:+ "-" +:+ pretty (S strokeSeq)) currentPath
                     "rgba(0,0,0,1)" (size * 4) "erase" myId)
  else None.

(** [renderStroke] draws nothing for a stroke with fewer than 2 points. *)
Definition renderStroke_draws (stroke : Stroke) : bool :=
  (2 <=? length (points stroke))%nat.

Record UndoEntry := mkUndo {
  u_type : string; u_target : string; _pending : bool
}.

Record Board := mkBoard {
  allArrows : list Arrow;
  myUndoStack : list UndoEntry
}.

(** [allArrows[idx] = arrow]. *)
Fixpoint assignAt {A} (idx : nat) (x : A) (l : list A) : list A :=
  match l, idx with
  | [], _ => []
  | _ :: l', O => x :: l'
  | y :: l', S i => y :: assignAt i x l'
  end.

(** [findLast], as an index from the front. *)
Fixpoint findLastIndex {A} (p : A -> bool) (l : list A) : option nat :=
  match l with
  | [] => None
  | x :: l' =>
      match findLastIndex p l' with
      | Some i => Some (S i)
      | None => if p x then Some O else None
      end
  end.

Definition on_arrow_done (arrow : Arrow) (b : Board) : Board :=
  mkBoard (allArrows b ++ [arrow]) (myUndoStack b).

Definition on_arrow_confirmed (tempId : string) (arrow : Arrow) (b : Board)
    : Board :=
  let arrows' :=
    match findIndex (fun a => String.eqb (a_id a) tempId) (allArrows b) with
    | Some idx => assignAt idx arrow (allArrows b)
    | None => allArrows b
    end in
  let isUe := fun e => _pending e && String.eqb (u_target e) tempId in
  let undo' :=
    match findLastIndex isUe (myUndoStack b) with
    | Some i =>
        match nth_error (myUndoStack b) i with
        | Some ue =>
            assignAt i (mkUndo (u_type ue) (a_id arrow) false) (myUndoStack b)
        | None => myUndoStack b
        end
    | None => myUndoStack b
    end in
  mkBoard arrows' undo'.

(** The arrow listeners, applied to one message from the server. *)
Definition receive (e : Emit) (b : Board) : Board :=
  match e_event e, e_data e with
  | "arrow-done", PArrow a => on_arrow_done a b
  | "arrow-confirmed", PArrowConfirmed tempId a => on_arrow_confirmed tempId a b
  | _, _ => b
  end.

Definition receiveAll (msgs : list Emit) (b : Board) : Board :=
  fold_left (fun b e => receive e b) msgs b.

End Client.

(** * Vocabulary of the properties *)

(** The offset of the last timeline entry, 0 for an empty timeline. *)
Definition lastOffset (tl : list TimelineEntry) : Z :=
  match last tl with Some e => t e | None => 0 end.

Definition strokeA : Stroke :=
  mkStroke "c1-1" [mkPoint 10 10; mkPoint 20 25] "#e74c3c" 3 "draw" "c1".
Definition strokeB : Stroke :=
  mkStroke "c1-2" [mkPoint 40 40; mkPoint 45 60; mkPoint 50 80] "#e74c3c" 3
           "draw" "c1".

(** Whether some element of the array carries the id. *)
Definition hasId {A} (idOf : A -> string) (l : list A) (id : string) : bool :=
  existsb (fun x => String.eqb (idOf x) id) l.

(** Identifiers in a snapshot were issued by this server's counters: every
    token sits under its own id, which is [tokenIdOf n] for a counter value
    already used, no key occurs twice, and likewise for arrows. *)
Definition tokensOk (bound : nat) (o : JsObj.t Token) : Prop :=
  NoDup (JsObj.keys o) /\
  Forall (fun kv => t_id (snd kv) = fst kv /\
                    exists n, (n < bound)%nat /\ fst kv = tokenIdOf n) o.

Definition arrowsOk (bound : nat) (l : list Arrow) : Prop :=
  NoDup (a_id <$> l) /\
  Forall (fun a => exists n, (n < bound)%nat /\ a_id a = arrowIdOf n) l.

Definition snapOk (nt na : nat) (s : Snapshot) : Prop :=
  tokensOk nt (snap_tokens s) /\ arrowsOk na (snap_arrows s).

Definition optOk (nt na : nat) (o : option Snapshot) : Prop :=
  match o with Some s => snapOk nt na s | None => True end.

Definition presetSnap (p : Preset) : Snapshot :=
  mkSnapshot (p_strokes p) (p_arrows p) (p_tokens p).

(** The invariant on identifiers of a process that found nothing stored:
    it covers the live store and every snapshot the store can later be
    swapped for. *)
Definition idsInv (σ : Server) : Prop :=
  let nt := nextTokenId σ in
  let na := nextArrowId σ in
  snapOk nt na (store σ) /\
  optOk nt na (preSnap (rep σ)) /\
  optOk nt na (rec_snapshot (rec σ)) /\
  Forall (fun r => optOk nt na (snapshot r)) (recordings σ) /\
  Forall (fun p => snapOk nt na (presetSnap p)) (boardPresets σ).

(** Every token of the object sits under its own id, and no key occurs
    twice. *)
Definition keyed (o : JsObj.t Token) : Prop :=
  NoDup (JsObj.keys o) /\ Forall (fun kv => t_id (snd kv) = fst kv) o.

Definition keyedOpt (o : option Snapshot) : Prop :=
  match o with Some s => keyed (snap_tokens s) | None => True end.

(** The invariant on token objects.  Like [idsInv] it covers the live
    store and every snapshot the store can later be swapped for; unlike
    [idsInv] it says nothing of the counters, and so it also holds in a
    process that has loaded what an earlier one left. *)
Definition keyedInv (σ : Server) : Prop :=
  keyed (tokens (state σ)) /\
  keyedOpt (preSnap (rep σ)) /\
  keyedOpt (rec_snapshot (rec σ)) /\
  Forall (fun r => keyedOpt (snapshot r)) (recordings σ) /\
  Forall (fun p => keyed (p_tokens p)) (boardPresets σ).

(** Callbacks whose handles [replay-start] keeps in [rep.timers]. *)
Definition tracked (cb : Callback) : bool :=
  match cb with
  | CbReplayInit _ => false
  | CbEmit _ _ => true
  | CbFinishReplay => true
  end.

(** The invariant on the replay engine: an active replay has its
    pre-replay snapshot, an idle engine tracks no timer, and every pending
    re-emission or end-of-replay timer is one of the tracked handles. *)
Definition replayInv (σ : Server) : Prop :=
  (rep_active (rep σ) = true -> preSnap (rep σ) <> None) /\
  (rep_active (rep σ) = false -> rep_timers (rep σ) = []) /\
  Forall (fun tm => tracked (callback tm) = true ->
                    In (tid tm) (rep_timers (rep σ)))
         (pending σ).

(** What is left pending once the handles in [hs] have been cleared. *)
Definition clearAll (hs : list nat) (p : list Timer) : list Timer :=
  fold_left
    (fun p h => List.filter (fun tm => negb (Nat.eqb (tid tm) h)) p) hs p.

(** The re-emission timers that replay-start creates for a timeline, the
    first one under handle [h]. *)
Fixpoint entryTimers (now : Z) (h : nat) (tl : list TimelineEntry)
    : list Timer :=
  match tl with
  | [] => []
  | e :: tl' =>
      mkTimer h now (t e + 350) (CbEmit (event e) (data e))
      :: entryTimers now (S h) tl'
  end.

(** The state in which replay-start leaves the server when it accepts:
    [snap] is the recording's snapshot. *)
Definition replayStarted (now : Z) (recId : nat) (recording : Recording)
    (snap : Snapshot) (σ : Server) : Server :=
  let h := nextTimer σ in
  let n := length (timeline recording) in
  mkServer (restoreState snap (state σ)) (nextTokenId σ) (nextArrowId σ)
    (rec σ)
    (mkRep true (seq (S h) n ++ [(S h + n)%nat]) (Some (store σ)) (Some recId))
    (recordings σ) (nextRecId σ) (boardPresets σ) (nextPresetId σ)
    (colorIndex σ)
    (pending σ
       ++ [mkTimer h now 150 (CbReplayInit snap)]
       ++ entryTimers now (S h) (timeline recording)
       ++ [mkTimer (S h + n) now (duration recording + 900) CbFinishReplay])
    (S (S h + n)).

(** The state in which [finishReplay] leaves the server; [s] is
    [rep.preSnap]. *)
Definition replayFinished (s : Snapshot) (σ : Server) : Server :=
  mkServer (restoreState s (state σ)) (nextTokenId σ) (nextArrowId σ)
    (rec σ) (mkRep false [] (Some s) None)
    (recordings σ) (nextRecId σ) (boardPresets σ) (nextPresetId σ)
    (colorIndex σ) (clearAll (rep_timers (rep σ)) (pending σ)) (nextTimer σ).

(** What [finishReplay] sends. *)
Definition finishMessages (s : Snapshot) : list Emit :=
  [mkEmit ToAll "clear-board" PNone;
   mkEmit ToAll "tokens-cleared" PNone;
   mkEmit ToAll "replay-restore" (boardPayload s);
   mkEmit ToAll "replay-done" PNone].

(** A stroke with at least two points. *)
Definition retainable (s : Stroke) : Prop := (2 <= length (points s))%nat.

(** A stroke-done payload with a single point. *)
Definition dot : Stroke :=
  mkStroke "c1-9" [mkPoint 5 5] "#e74c3c" 3 "draw" "c1".

(** The specification's reading of replay determinism: the store
    operations that recorded events stand for, [addStroke] for stroke-done
    and [removeStrokes] for stroke-remove, applied in timeline order. *)
Definition applyEntry (l : list Stroke) (e : TimelineEntry) : list Stroke :=
  match event e, data e with
  | "stroke-done", PStroke s => l ++ [s]
  | "stroke-remove", PIds ids => removeByIds s_id ids l
  | _, _ => l
  end.

Definition applyTimeline (tl : list TimelineEntry) (base : list Stroke)
    : list Stroke :=
  fold_left applyEntry tl base.

(** [replayingSince s0 σ]: in [σ] a replay is active that an accepted
    replay-start began in a reachable state with store [s0], and that has
    stayed active over every turn since. *)
Inductive replayingSince (s0 : Snapshot) : Server -> Prop :=
| rs_start σ0 socket now recId σ1 out :
    reachable σ0 ->
    rep_active (rep σ0) = false ->
    store σ0 = s0 ->
    handle socket now (ReplayStart recId) σ0 = Ok tt σ1 out ->
    rep_active (rep σ1) = true ->
    replayingSince s0 σ1
| rs_turn σ a σ' out :
    replayingSince s0 σ ->
    step a σ = Ok tt σ' out ->
    rep_active (rep σ') = true ->
    replayingSince s0 σ'.

(** The turns that end a replay: a replay-stop from any connection, or
    the firing of the pending end-of-replay timer. *)
Definition endsReplay (σ : Server) (a : Turn) : Prop :=
  (exists socket now, a = Inbound socket now ReplayStop) \/
  (exists h tm,
     a = Fire h /\
     find (fun tm => Nat.eqb (tid tm) h) (pending σ) = Some tm /\
     callback tm = CbFinishReplay).

(** A session: connection c1 records stroke A, stops, draws stroke B;
    connection c2 then starts a replay of recording 1. *)
Definition replayOfRecording1 : list Turn :=
  [Inbound "c1" 1000 RecordingStart;
   Inbound "c1" 1200 (StrokeDone strokeA);
   Inbound "c1" 1900 RecordingStop;
   Inbound "c1" 2000 (StrokeDone strokeB);
   Inbound "c2" 3000 (ReplayStart 1)].

Definition midReplay : Server :=
  match run replayOfRecording1 init with
  | Ok _ σ _ => σ
  | Throw => init
  end.

(** The timers of that replay, in the order in which they fall due: the
    delayed replay-init, the one timeline entry, the end of the replay. *)
Definition replayTimers : list Turn := [Fire 0; Fire 1; Fire 2].

(** Replays in flight: every replay that has started and not ended has
    its end-of-replay timer pending. *)
Definition isEnd (tm : Timer) : bool :=
  match callback tm with CbFinishReplay => true | _ => false end.

Definition replaysInFlight (σ : Server) : nat :=
  length (List.filter isEnd (pending σ)).

(** The invariant on timer handles: pending handles are distinct and were
    issued by [setTimeout], and an active replay has its end-of-replay
    timer pending. *)
Definition timersInv (σ : Server) : Prop :=
  NoDup (tid <$> pending σ) /\
  Forall (fun tm => (tid tm < nextTimer σ)%nat) (pending σ) /\
  (rep_active (rep σ) = true ->
   exists tm, In tm (pending σ) /\ callback tm = CbFinishReplay).

(** Two processes.  In the first, c1 places a token and draws an arrow,
    and c2 saves the board as preset 1.  The second process finds the
    files that the first has written, and c2 loads preset 1. *)
Definition tokenT : Token := mkToken "" 50 60 "#e74c3c" "A" "circle" "c1".
Definition arrowR : Arrow :=
  mkArrow "c1-a1" 10 10 90 40 "#e74c3c" 3 "solid" "c1".
Definition tokenU : Token := mkToken "" 20 30 "#3498db" "B" "square" "c2".
Definition arrowS : Arrow :=
  mkArrow "c2-a1" 5 5 60 70 "#3498db" 3 "solid" "c2".

Definition firstProcess : list Turn :=
  [Inbound "c1" 100 (TokenAdd tokenT);
   Inbound "c1" 200 (ArrowDone arrowR);
   Inbound "c2" 300 (SavePreset "kickoff")].

Definition firstProcessEnd : Server :=
  match run firstProcess init with
  | Ok _ σ _ => σ
  | Throw => init
  end.

Definition secondProcess : Server :=
  started (File (boardPresets firstProcessEnd) (nextPresetId firstProcessEnd))
          (File (recordings firstProcessEnd) (nextRecId firstProcessEnd)).

Definition presetLoaded : Server :=
  match step (Inbound "c2" 50 (LoadPreset 1)) secondProcess with
  | Ok _ σ _ => σ
  | Throw => secondProcess
  end.

(** * Vocabulary of the further properties *)

(** Events whose handlers work on the board, the roster or nothing: they
    leave the recorder's controls, the saved recordings and presets, the
    replay engine and the timers alone. *)
Definition boardEvent (msg : ClientMsg) : bool :=
  match msg with
  | RecordingStart | RecordingStop | ReplayStart _ | ReplayStop
  | RenameRecording _ _ | DeleteRecording _
  | SavePreset _ | RenamePreset _ _ | DeletePreset _ => false
  | _ => true
  end.

(** A saved recording is complete: it has its snapshot, and its counters
    describe its timeline. *)
Definition recordingOk (r : Recording) : Prop :=
  snapshot r <> None /\
  eventCount r = length (timeline r) /\
  duration r = lastOffset (timeline r).

Definition recsInv (σ : Server) : Prop :=
  (rec_active (rec σ) = true -> rec_snapshot (rec σ) <> None) /\
  Forall recordingOk (recordings σ).

(** Ids of saved recordings and presets are pairwise distinct and below
    the counters that issue the next ones. *)
Definition savedIdsInv (σ : Server) : Prop :=
  NoDup (r_id <$> recordings σ) /\
  Forall (fun r => (r_id r < nextRecId σ)%nat) (recordings σ) /\
  NoDup (p_id <$> boardPresets σ) /\
  Forall (fun p => (p_id p < nextPresetId σ)%nat) (boardPresets σ).

(** Saved recordings and presets stand in the order of their ids, the
    order in which the rows of their tables are read back. *)
Definition ascendingInv (σ : Server) : Prop :=
  StronglySorted lt (r_id <$> recordings σ) /\
  StronglySorted lt (p_id <$> boardPresets σ).

(** The recording that recording-stop assembles in [σ]. *)
Definition savedRecording (now : Z) (σ : Server) : Recording :=
  mkRecording (nextRecId σ) (DefaultRecording now) now
    (lastOffset (rec_timeline (rec σ))) (length (rec_timeline (rec σ)))
    (rec_snapshot (rec σ)) (rec_timeline (rec σ)).

(** The preset that save-preset assembles in [σ]. *)
Definition savedPreset (now : Z) (name : string) (σ : Server) : Preset :=
  mkPreset (nextPresetId σ)
    (if String.eqb name "" then DefaultPreset now else Named name) now
    (strokes (state σ)) (arrows (state σ)) (tokens (state σ)).

Definition renamedRecording (newName : string) (r : Recording) : Recording :=
  mkRecording (r_id r) (Named newName) (r_timestamp r) (duration r)
    (eventCount r) (snapshot r) (timeline r).

Definition renamedPreset (newName : string) (p : Preset) : Preset :=
  mkPreset (p_id p) (Named newName) (p_timestamp p) (p_strokes p)
    (p_arrows p) (p_tokens p).

(** The lists that [getRecordingsList] and [getBoardPresetsList] build. *)
Definition recInfos (l : list Recording) : list RecInfo :=
  map (fun r => mkRecInfo (r_id r) (r_name r) (r_timestamp r)
                          (duration r) (eventCount r)) l.

Definition presetInfos (l : list Preset) : list PresetInfo :=
  map (fun p => mkPresetInfo (p_id p) (p_name p) (p_timestamp p)
                  (length (p_strokes p)) (length (p_arrows p))
                  (length (JsObj.keys (p_tokens p)))) l.

(** The offset and the event name of every entry of a timeline. *)
Definition schedule (tl : list TimelineEntry) : list (Z * string) :=
  map (fun e => (t e, event e)) tl.




Definition hasRecording (recId : nat) (σ : Server) : bool :=
  existsb (fun r => Nat.eqb (r_id r) recId) (recordings σ).

Definition hasPreset (presetId : nat) (σ : Server) : bool :=
  existsb (fun p => Nat.eqb (p_id p) presetId) (boardPresets σ).

(** Turns other than a recording-stop. *)
Definition notRecordingStop (a : Turn) : Prop :=
  forall socket now, a <> Inbound socket now RecordingStop.

(** The clock readings of the inbound events of a run, in order. *)
Definition clocks (turns : list Turn) : list Z :=
  flat_map (fun a => match a with
                     | Inbound _ now _ => [now]
                     | Fire _ => []
                     end) turns.


(** The handles that replay-start issues in a state whose next handle is
    [h], for a timeline of [n] entries: the delayed replay-init, the
    entries in timeline order, the end of the replay. *)
Definition replayHandles (h n : nat) : list nat := seq h (S (S n)).

(** The offsets of a saved recording never decrease along its timeline
    and lie between 0 and its duration. *)
Definition recordingTimed (r : Recording) : Prop :=
  StronglySorted Z.le (t <$> timeline r) /\
  Forall (fun e => 0 <= t e <= duration r) (timeline r).

(** The same for the recorder while it records; [c] is the latest clock
    reading. *)
Definition clockInv (c : Z) (σ : Server) : Prop :=
  (rec_active (rec σ) = true ->
   rec_start (rec σ) <= c /\
   StronglySorted Z.le (t <$> rec_timeline (rec σ)) /\
   Forall (fun e => 0 <= t e <= c - rec_start (rec σ))
          (rec_timeline (rec σ))) /\
  Forall recordingTimed (recordings σ).

(** The clock reading of a turn, [c] for a timer firing. *)
Definition clockAfter (c : Z) (a : Turn) : Z :=
  match a with
  | Inbound _ now _ => now
  | Fire _ => c
  end.

(** The timers that replay-start adds for a recording. *)
Definition replaySchedule (now : Z) (h : nat) (recording : Recording)
    (snap : Snapshot) : list Timer :=
  mkTimer h now 150 (CbReplayInit snap)
  :: entryTimers now (S h) (timeline recording)
  ++ [mkTimer (S h + length (timeline recording)) now
        (duration recording + 900) CbFinishReplay].

(** The roster: every connection is listed at most once, under its own
    socket id, with a colour of the palette. *)
Definition usersInv (σ : Server) : Prop :=
  NoDup (JsObj.keys (users (state σ))) /\
  Forall (fun kv => u_id (snd kv) = fst kv /\
                    In (u_color (snd kv)) USER_COLORS)
         (users (state σ)).

(** The user that join registers for [socket] in [σ]. *)
Definition joined (socket uname : string) (σ : Server) : User :=
  mkUser socket uname
    (nth (colorIndex σ mod length USER_COLORS) USER_COLORS "").

(** The users of a list other than the one of [socket]. *)
Definition others (socket : string) (l : list User) : list User :=
  List.filter (fun u => negb (String.eqb (u_id u) socket)) l.

(** The number of join events among the turns. *)
Definition joins (turns : list Turn) : nat :=
  length (List.filter (fun a => match a with
                                | Inbound _ _ (Join _) => true
                                | _ => false
                                end) turns).

(** [ids.includes(id)]. *)
Definition includes (ids : list string) (id : string) : bool :=
  existsb (String.eqb id) ids.

(** The elements whose id is not listed. *)
Definition unlisted {A} (idOf : A -> string) (ids : list string)
    (l : list A) : list A :=
  List.filter (fun x => negb (includes ids (idOf x))) l.

(** A token with new coordinates, and with a new label. *)
Definition movedTo (x y : Z) (tk : Token) : Token :=
  mkToken (t_id tk) x y (t_color tk) (label tk) (shape tk) (createdBy tk).

Definition relabelled (lbl : string) (tk : Token) : Token :=
  mkToken (t_id tk) (t_x tk) (t_y tk) (t_color tk) lbl (shape tk)
          (createdBy tk).

(** The token list with [f] applied to the token that carries [id]. *)
Definition updateToken (id : string) (f : Token -> Token) (l : list Token)
    : list Token :=
  map (fun tk => if String.eqb (t_id tk) id then f tk else tk) l.

(** The token that token-add stores in [σ]. *)
Definition addedToken (token : Token) (σ : Server) : Token :=
  mkToken (tokenIdOf (nextTokenId σ)) (t_x token) (t_y token)
          (t_color token) (label token) (shape token) (createdBy token).

(** The stroke that stroke-done stores for [socket]. *)
Definition savedStroke (socket : string) (stroke : Stroke) : Stroke :=
  mkStroke (s_id stroke) (points stroke) (s_color stroke) (s_width stroke)
           (tool stroke) socket.

(** ** The client's copy of the board (public/app.js)

    [allStrokes], [allArrows] and the [tokens] object of a client, and
    what its socket listeners do to them.  Rendering, the DOM elements
    of the tokens, live previews, cursors and toasts are left out. *)
Module Canvas.

Record t := mk {
  allStrokes : list Stroke;
  allArrows : list Arrow;
  tokens : JsObj.t Token
}.

(** [list.forEach(x => arr.push(x))]. *)
Definition pushAll {A} (xs : list A) (arr : list A) : list A :=
  fold_left (fun arr x => arr ++ [x]) xs arr.

(** [Object.keys(tokens).forEach(k => delete tokens[k])]. *)
Definition deleteAll (o : JsObj.t Token) : JsObj.t Token :=
  fold_left (fun o k => JsObj.delete k o) (JsObj.keys o) o.

(** [tokenList.forEach(t => { tokens[t.id] = t; ... })]. *)
Definition putAll (tokenList : list Token) (o : JsObj.t Token)
    : JsObj.t Token :=
  fold_left (fun o tk => JsObj.set (t_id tk) tk o) tokenList o.

(** [applyBoardSnapshot({ strokes, arrows, tokens: tokenList })], the
    listener of replay-init, replay-restore and preset-loaded; the
    init-state listener does the same to the three collections. *)
Definition applyBoardSnapshot (strokes : list Stroke) (arrows : list Arrow)
    (tokenList : list Token) (c : t) : t :=
  mk (pushAll strokes []) (pushAll arrows [])
     (putAll tokenList (deleteAll (tokens c))).

(** The loop of the stroke-remove and arrow-remove listeners,
    [for (let i = arr.length - 1; i >= 0; i--)
       if (ids.includes(arr[i].id)) arr.splice(i, 1)];
    [i] counts the indices still to visit. *)
Fixpoint removeFrom {A} (idOf : A -> string) (ids : list string) (i : nat)
    (arr : list A) : list A :=
  match i with
  | O => arr
  | S j =>
      removeFrom idOf ids j
        (match nth_error arr j with
         | Some x => if includes ids (idOf x) then splice1 j arr else arr
         | None => arr
         end)
  end.

Definition removeListed {A} (idOf : A -> string) (ids : list string)
    (arr : list A) : list A :=
  removeFrom idOf ids (length arr) arr.

(** The listeners, applied to one message from the server.  clear-board
    and tokens-cleared look at no payload; the others destructure it.
    For an id that names an inherited property and no token, the
    token-move and token-relabel listeners set their fields on the
    inherited function and leave the tokens as they are. *)
Definition listen (e : Emit) (c : t) : t :=
  let ev := e_event e in
  if String.eqb ev "clear-board" then mk [] [] (tokens c)
  else if String.eqb ev "tokens-cleared" then
    mk (allStrokes c) (allArrows c) (deleteAll (tokens c))
  else
    match e_data e with
    | PInit strokes tokenList arrows _ _ =>
        if String.eqb ev "init-state"
        then applyBoardSnapshot strokes arrows tokenList c else c
    | PBoard strokes arrows tokenList =>
        if String.eqb ev "replay-init" || String.eqb ev "replay-restore"
           || String.eqb ev "preset-loaded"
        then applyBoardSnapshot strokes arrows tokenList c else c
    | PStroke stroke =>
        if String.eqb ev "stroke-done"
        then mk (allStrokes c ++ [stroke]) (allArrows c) (tokens c) else c
    | PArrow arrow =>
        if String.eqb ev "arrow-done"
        then mk (allStrokes c) (allArrows c ++ [arrow]) (tokens c) else c
    | PArrowConfirmed tempId arrow =>
        if String.eqb ev "arrow-confirmed" then
          mk (allStrokes c)
             (match findIndex (fun a => String.eqb (a_id a) tempId)
                      (allArrows c) with
              | Some idx => Client.assignAt idx arrow (allArrows c)
              | None => allArrows c
              end)
             (tokens c)
        else c
    | PIds ids =>
        if String.eqb ev "arrow-remove" then
          mk (allStrokes c) (removeListed a_id ids (allArrows c)) (tokens c)
        else if String.eqb ev "stroke-remove" then
          mk (removeListed s_id ids (allStrokes c)) (allArrows c) (tokens c)
        else c
    | PToken token =>
        if String.eqb ev "token-add" then
          mk (allStrokes c) (allArrows c)
             (JsObj.set (t_id token) token (tokens c))
        else c
    | PTokenLabel id lbl =>
        if String.eqb ev "token-relabel" then
          match JsObj.get id (tokens c) with
          | Some tk =>
              mk (allStrokes c) (allArrows c)
                 (JsObj.set id (relabelled lbl tk) (tokens c))
          | None => c
          end
        else c
    | PTokenMove id x y =>
        if String.eqb ev "token-move" then
          match JsObj.get id (tokens c) with
          | Some tk =>
              mk (allStrokes c) (allArrows c)
                 (JsObj.set id (movedTo x y tk) (tokens c))
          | None => c
          end
        else c
    | PTokenId id =>
        if String.eqb ev "token-remove" then
          mk (allStrokes c) (allArrows c) (JsObj.delete id (tokens c))
        else c
    | _ => c
    end.

(** What the pointerup listener does to the canvas when it sends a
    stroke-done or an arrow-done: [allStrokes.push(stroke)] and
    [allArrows.push(arrow)]. *)
Definition drawn (stroke : Stroke) (c : t) : t :=
  mk (allStrokes c ++ [stroke]) (allArrows c) (tokens c).

Definition drawnArrow (arrow : Arrow) (c : t) : t :=
  mk (allStrokes c) (allArrows c ++ [arrow]) (tokens c).

(** The canvas of connection [conn] once it has handled, in order, the
    messages of [out] that are addressed to it. *)
Definition view (conn : string) (out : list Emit) (c : t) : t :=
  fold_left (fun c e => listen e c) (inbox conn out) c.

(** The canvas that shows a store. *)
Definition ofStore (s : Snapshot) : t :=
  mk (snap_strokes s) (snap_arrows s) (snap_tokens s).

End Canvas.

(** Turns after which a connection that showed the store still shows it.
    stroke-done, token-move and arrow-done are not sent back to their
    sender, which has drawn the change itself; stroke-remove needs
    strokes with distinct ids and arrow-remove arrows with distinct ids,
    because the server removes one element for each listed id and the
    client every element whose id is listed; replay-start and the timers
    of a running replay are left out, the end of the replay apart. *)
Definition syncKeeping (conn : string) (σ : Server) (a : Turn) : Prop :=
  match a with
  | Inbound socket _ msg =>
      match msg with
      | StrokeDone _ | TokenMove _ _ _ | ArrowDone _ => socket <> conn
      | StrokeRemove _ => NoDup (s_id <$> strokes (state σ))
      | ArrowRemove _ => NoDup (a_id <$> arrows (state σ))
      | ReplayStart _ => False
      | _ => True
      end
  | Fire h =>
      match find (fun tm => Nat.eqb (tid tm) h) (pending σ) with
      | Some tm => callback tm = CbFinishReplay
      | None => True
      end
  end.

(** The three messages with which load-preset replaces the board. *)
Definition presetMessages (s : Snapshot) : list Emit :=
  [mkEmit ToAll "clear-board" PNone;
   mkEmit ToAll "tokens-cleared" PNone;
   mkEmit ToAll "preset-loaded" (boardPayload s)].

(** Messages that change a client's board one element at a time; these
    are the event names that [recordEvent] is called with. *)
Definition boardMessage (e : Emit) : bool :=
  existsb (String.eqb (e_event e))
    ["stroke-done"; "stroke-remove"; "token-add"; "token-move";
     "token-remove"; "token-relabel"; "arrow-done"; "arrow-remove";
     "clear-board"; "tokens-cleared"].

(** Events whose board messages the recorder does not log. *)
Definition unrecorded (msg : ClientMsg) : bool :=
  match msg with
  | LoadPreset _ | ReplayStart _ | ReplayStop => true
  | _ => false
  end.

(** ** The client's undo stack (public/app.js)

    A client's canvas together with [myUndoStack], and the three places
    that touch the stack: the pointerup listener, the token-add and
    arrow-confirmed listeners, and [undoLast]. *)
Module Ui.

Record t := mk {
  canvas : Canvas.t;
  myUndoStack : list Client.UndoEntry
}.

(** The pointerup listener on sending a stroke-done:
    [allStrokes.push(stroke); myUndoStack.push({ type: 'stroke', id })]. *)
Definition drawStroke (stroke : Stroke) (u : t) : t :=
  mk (Canvas.drawn stroke (canvas u))
     (myUndoStack u ++ [Client.mkUndo "stroke" (s_id stroke) false]).

(** The pointerup listener on sending an arrow-done: the arrow is pushed
    under its temporary id and the stack entry is marked pending. *)
Definition drawArrow (arrow : Arrow) (u : t) : t :=
  mk (Canvas.drawnArrow arrow (canvas u))
     (myUndoStack u ++ [Client.mkUndo "arrow" (a_id arrow) true]).

(** The loops of [undoLast]: from the end of the array, splice the first
    element that carries the id and stop. *)
Definition removeLast {A} (idOf : A -> string) (id : string) (arr : list A)
    : list A :=
  match Client.findLastIndex (fun x => String.eqb (idOf x) id) arr with
  | Some i => splice1 i arr
  | None => arr
  end.

(** [undoLast()]: the new state and the events it sends. *)
Definition undoLast (u : t) : t * list ClientMsg :=
  match last (myUndoStack u) with
  | None => (u, [])
  | Some entry =>
      let stack := removelast (myUndoStack u) in
      let c := canvas u in
      if String.eqb (Client.u_type entry) "stroke" then
        (mk (Canvas.mk (removeLast s_id (Client.u_target entry)
                          (Canvas.allStrokes c))
                       (Canvas.allArrows c) (Canvas.tokens c))
            stack,
         [StrokeRemove [Client.u_target entry]])
      else if String.eqb (Client.u_type entry) "arrow" then
        (mk (Canvas.mk (Canvas.allStrokes c)
                       (removeLast a_id (Client.u_target entry)
                          (Canvas.allArrows c))
                       (Canvas.tokens c))
            stack,
         [ArrowRemove [Client.u_target entry]])
      else if String.eqb (Client.u_type entry) "token" then
        (mk c stack, [TokenRemove (Client.u_target entry)])
      else (mk c stack, [])
  end.

(** The listeners of the client whose socket id is [myId], applied to
    one message: the canvas as in [Canvas.listen]; token-add pushes an
    entry for a token the client created, arrow-confirmed puts the
    server's id into the pending entry. *)
Definition listen (myId : string) (e : Emit) (u : t) : t :=
  mk (Canvas.listen e (canvas u))
     (match e_data e with
      | PToken token =>
          if String.eqb (e_event e) "token-add"
             && String.eqb (createdBy token) myId
          then myUndoStack u ++ [Client.mkUndo "token" (t_id token) false]
          else myUndoStack u
      | PArrowConfirmed tempId arrow =>
          if String.eqb (e_event e) "arrow-confirmed"
          then Client.myUndoStack
                 (Client.on_arrow_confirmed tempId arrow
                    (Client.mkBoard (Canvas.allArrows (canvas u))
                                    (myUndoStack u)))
          else myUndoStack u
      | _ => myUndoStack u
      end).

(** The client once it has handled the messages of [out] addressed to
    it. *)
Definition hear (myId : string) (out : list Emit) (u : t) : t :=
  fold_left (fun u e => listen myId e u) (inbox myId out) u.

End Ui.

(** The arrow that arrow-done stores for [socket] in [σ]. *)
Definition savedArrow (socket : string) (arrow : Arrow) (σ : Server)
    : Arrow :=
  mkArrow (arrowIdOf (nextArrowId σ)) (x1 arrow) (y1 arrow) (x2 arrow)
          (y2 arrow) (a_color arrow) (a_width arrow) (a_style arrow) socket.

(** ** A session to try the properties on *)

(** Two connections join; c1 records a stroke, a token and an arrow and
    stops; c2 saves the board as a preset; c1 draws stroke B. *)
Definition session : list Turn :=
  [Inbound "c1" 100 (Join "ann");
   Inbound "c2" 200 (Join "bob");
   Inbound "c1" 1000 RecordingStart;
   Inbound "c1" 1200 (StrokeDone strokeA);
   Inbound "c1" 1300 (TokenAdd tokenT);
   Inbound "c1" 1400 (ArrowDone arrowR);
   Inbound "c1" 1900 RecordingStop;
   Inbound "c2" 2000 (SavePreset "kickoff");
   Inbound "c1" 2100 (StrokeDone strokeB)].

(** The state and the messages after some turns. *)
Definition after (turns : list Turn) (σ : Server) : Server :=
  match run turns σ with
  | Ok _ σ' _ => σ'
  | Throw => σ
  end.

Definition sent (turns : list Turn) (σ : Server) : list Emit :=
  match run turns σ with
  | Ok _ _ out => out
  | Throw => []
  end.

Definition afterSession : Server := after session init.

(** The same session, cut off while c1 is recording. *)
Definition whileRecording : Server := after (firstn 4 session) init.

(** The same session, cut off when c1 has placed its token. *)
Definition tokenPlaced : Server := after (firstn 5 session) init.

(** The recording, the preset and the token that the session leaves. *)
Definition recording1 : Recording :=
  hd (mkRecording 0 (Named "") 0 0 0 None []) (recordings afterSession).

Definition preset1 : Preset :=
  hd (mkPreset 0 (Named "") 0 [] [] []) (boardPresets afterSession).

Definition token1 : Token :=
  hd tokenT (JsObj.values (tokens (state afterSession))).

(** A third stroke of c1, as its pointerup listener builds it. *)
Definition strokeC : Stroke :=
  mkStroke "c1-3" [mkPoint 60 10; mkPoint 70 30] "#e74c3c" 3 "draw" "c1".


(** * Properties *)

(** ** Evaluating handlers *)

Lemma recordEvent_eq now ev d σ :
  recordEvent now ev d σ =
  Ok tt (if rec_active (rec σ)
         then upd_rec (fun r =>
                mkRec (rec_active r) (rec_start r) (rec_snapshot r)
                      (rec_timeline r ++ [mkEntry (now - rec_start r) ev d])) σ
         else σ) [].
Proof.
  unfold recordEvent, bind, get. destruct (rec_active (rec σ)); reflexivity.
Qed.

Ltac handler_unfold :=
  unfold handle, on_join, on_draw_move, on_stroke_done, on_stroke_remove,
    on_token_add, on_token_move, on_token_remove, on_token_relabel,
    on_arrow_done, on_arrow_remove, on_clear_board, on_clear_drawings,
    on_cursor_move, on_recording_start, on_recording_stop, on_replay_stop,
    on_get_recordings, on_rename_recording, on_delete_recording,
    on_save_preset, on_load_preset, on_rename_preset, on_delete_preset,
    on_get_presets, on_disconnect, getRecordingsList, getBoardPresetsList,
    getNextColor, snapState, io_emit, socket_emit, socket_broadcast_emit,
    emit, deepCopy.

#[local] Arguments recordEvent : simpl never.
#[local] Arguments JsObj.inherited : simpl never.

Ltac upd_norm :=
  cbv [upd_state upd_nextTokenId upd_nextArrowId upd_rec upd_rep
       upd_recordings upd_nextRecId upd_boardPresets upd_nextPresetId
       upd_colorIndex upd_pending upd_nextTimer upd_users upd_strokes
       upd_tokens upd_arrows restoreState];
  cbn.

Ltac handler_eval :=
  handler_unfold;
  unfold bind, get, modify, ret;
  cbn;
  repeat (rewrite recordEvent_eq; cbn);
  upd_norm.

(** Opens the server record down to the flags handlers branch on. *)
Ltac open_server σ :=
  destruct σ as [[us ss ts ars] ntk nar [ra rst rsn rtl] [pa ptm pps pcr]
                 rcs nri bps npi ci pend ntm];
  cbn in *.

(** ** C5: the two wipes *)

(** C5.  After a clear-board event the stroke, arrow and token collections
    are all empty; after a clear-drawings event the stroke and arrow
    collections are empty and the token collection is what it was. *)
Theorem clear_board_and_clear_drawings socket now σ :
  (exists σ' out,
     handle socket now ClearBoard σ = Ok tt σ' out /\
     strokes (state σ') = [] /\ arrows (state σ') = [] /\
     tokens (state σ') = []) /\
  (exists σ' out,
     handle socket now ClearDrawings σ = Ok tt σ' out /\
     strokes (state σ') = [] /\ arrows (state σ') = [] /\
     tokens (state σ') = tokens (state σ)).
Proof.
  open_server σ.
  split; handler_eval; destruct ra; cbn; eauto 10.
Qed.

(** ** C4: what recording-stop assembles *)

(** C4.  recording-stop with no recording active changes nothing and sends
    nothing; with a recording active it appends one Recording whose
    duration is the offset of the last timeline entry (0 for an empty
    timeline) and whose eventCount is the number of entries.  Recording
    events at offsets 0 ms and 500 ms and stopping at 900 ms gives
    duration 500 and eventCount 2. *)
Theorem recording_stop_duration_and_count :
  (forall socket now σ,
     rec_active (rec σ) = false ->
     handle socket now RecordingStop σ = Ok tt σ []) /\
  (forall socket now σ,
     rec_active (rec σ) = true ->
     exists r σ' out,
       handle socket now RecordingStop σ = Ok tt σ' out /\
       recordings σ' = recordings σ ++ [r] /\
       timeline r = rec_timeline (rec σ) /\
       duration r = lastOffset (rec_timeline (rec σ)) /\
       eventCount r = length (rec_timeline (rec σ)) /\
       rec_active (rec σ') = false) /\
  (forall start,
     exists r σ' out,
       run [Inbound "c1" start RecordingStart;
            Inbound "c1" (start + 0) (StrokeDone strokeA);
            Inbound "c1" (start + 500) (StrokeDone strokeB);
            Inbound "c2" (start + 900) RecordingStop] init = Ok tt σ' out /\
       recordings σ' = [r] /\
       map t (timeline r) = [0; 500] /\
       duration r = 500 /\ eventCount r = 2%nat).
Proof.
  split; [|split].
  - intros socket now σ H. open_server σ. subst. reflexivity.
  - intros socket now σ H. open_server σ. subst.
    handler_eval. do 3 eexists. split; [reflexivity|]. cbn. auto.
  - intros start. do 3 eexists. split; [reflexivity|]. cbn.
    replace (start + 0 - start) with 0 by lia.
    replace (start + 500 - start) with 500 by lia. auto.
Qed.

(** C4 at concrete states: an idle server, and a server that is recording
    with one entry in its timeline. *)
Lemma recording_stop_duration_and_count_witness :
  handle "c1" 1900 RecordingStop init = Ok tt init [] /\
  exists r σ' out,
    handle "c1" 1900 RecordingStop
      (upd_rec (fun _ => mkRec true 1000 (Some (store init))
                           [mkEntry 0 "clear-board" PEmpty]) init)
      = Ok tt σ' out /\
    recordings σ' = [] ++ [r] /\
    timeline r = [mkEntry 0 "clear-board" PEmpty] /\
    duration r = 0 /\ eventCount r = 1%nat /\ rec_active (rec σ') = false.
Proof.
  split.
  - exact (proj1 recording_stop_duration_and_count "c1" 1900 init eq_refl).
  - exact (proj1 (proj2 recording_stop_duration_and_count) "c1" 1900
             (upd_rec (fun _ => mkRec true 1000 (Some (store init))
                                  [mkEntry 0 "clear-board" PEmpty]) init)
             eq_refl).
Defined.

(** ** Objects and arrays: absent keys and ids *)

Lemma JsObj_delete_absent {V} (k : string) (o : JsObj.t V) :
  JsObj.get k o = None -> JsObj.delete k o = o.
Proof.
  induction o as [|[k' v] o IH]; cbn; [reflexivity|].
  destruct (String.eqb k' k); [discriminate|].
  intros H. rewrite IH by assumption. reflexivity.
Qed.

Lemma findIndex_None {A} (p : A -> bool) (l : list A) :
  findIndex p l = None <-> existsb p l = false.
Proof.
  induction l as [|x l IH]; cbn; [tauto|].
  destruct (p x); cbn; [split; discriminate|].
  destruct (findIndex p l); cbn; split; intros H; try discriminate.
  - apply IH in H. discriminate.
  - apply IH. reflexivity.
  - reflexivity.
Qed.

Lemma removeById_absent {A} (idOf : A -> string) (l : list A) id :
  hasId idOf l id = false -> removeById idOf l id = l.
Proof.
  intros H. unfold removeById.
  apply findIndex_None in H. rewrite H. reflexivity.
Qed.

Lemma existsb_splice1 {A} (p : A -> bool) (l : list A) idx :
  existsb p (splice1 idx l) = true -> existsb p l = true.
Proof.
  revert idx. induction l as [|x l IH]; intros idx; cbn; [destruct idx; auto|].
  destruct idx as [|i]; cbn.
  - intros ->. apply orb_true_r.
  - destruct (p x); cbn; [reflexivity|]. apply IH.
Qed.

Lemma hasId_removeById {A} (idOf : A -> string) (l : list A) id id' :
  hasId idOf (removeById idOf l id) id' = true -> hasId idOf l id' = true.
Proof.
  unfold removeById, hasId.
  destruct (findIndex _ l); [apply existsb_splice1|auto].
Qed.

(** Ids that no element carries can be dropped from a removal: the loop
    goes on to the remaining ids and removes exactly what they name. *)
Lemma removeByIds_skips_absent {A} (idOf : A -> string) ids :
  forall l l0 : list A,
    (forall id, hasId idOf l id = true -> hasId idOf l0 id = true) ->
    removeByIds idOf ids l =
    removeByIds idOf (List.filter (hasId idOf l0) ids) l.
Proof.
  induction ids as [|id ids IH]; intros l l0 Hsub; cbn; [reflexivity|].
  destruct (hasId idOf l0 id) eqn:E; cbn.
  - apply IH. intros id' H. apply Hsub. eapply hasId_removeById, H.
  - rewrite removeById_absent.
    + apply IH, Hsub.
    + destruct (hasId idOf l id) eqn:E'; [|reflexivity].
      apply Hsub in E'. congruence.
Qed.

Lemma removeByIds_all_absent {A} (idOf : A -> string) ids (l : list A) :
  Forall (fun id => hasId idOf l id = false) ids ->
  removeByIds idOf ids l = l.
Proof.
  induction 1 as [|id ids H _ IH]; cbn; [reflexivity|].
  rewrite removeById_absent by assumption. exact IH.
Qed.

(** ** C10: events aimed at a token that is not there *)

(** A token-remove or token-relabel whose target id is absent from the
    store is still sent to every connection and, while a recording is
    active, appended to its timeline, and the store is unchanged. *)
Lemma stale_remove_and_relabel_are_relayed socket now σ id :
  JsObj.get id (tokens (state σ)) = None ->
  (exists σ',
     handle socket now (TokenRemove id) σ
       = Ok tt σ' [mkEmit ToAll "token-remove" (PTokenId id)] /\
     store σ' = store σ /\
     rec_timeline (rec σ') =
       if rec_active (rec σ)
       then rec_timeline (rec σ)
            ++ [mkEntry (now - rec_start (rec σ)) "token-remove" (PTokenId id)]
       else rec_timeline (rec σ)) /\
  (forall lbl, exists σ',
     handle socket now (TokenRelabel id lbl) σ
       = Ok tt σ' [mkEmit ToAll "token-relabel" (PTokenLabel id lbl)] /\
     store σ' = store σ /\
     rec_timeline (rec σ') =
       if rec_active (rec σ)
       then rec_timeline (rec σ)
            ++ [mkEntry (now - rec_start (rec σ)) "token-relabel"
                        (PTokenLabel id lbl)]
       else rec_timeline (rec σ)).
Proof.
  intros Habs. open_server σ. unfold store. split.
  - handler_eval. rewrite (JsObj_delete_absent _ _ Habs).
    destruct ra; cbn; eauto.
  - intros lbl. handler_eval. rewrite Habs. handler_eval.
    destruct ra; cbn; eauto.
Qed.

(** No decimal numeral starts with the letter o. *)
Lemma pretty_N_go_ne_o x s s' :
  s <> "o" +:+ s' -> pretty_N_go x s <> "o" +:+ s'.
Proof.
  revert s. induction (N.lt_wf_0 x) as [x _ IH]; intros s Hs.
  assert (x = 0 \/ 0 < x)%N as [->|Hpos] by lia.
  - rewrite pretty_N_go_0. exact Hs.
  - rewrite pretty_N_go_step by exact Hpos. apply IH.
    + apply N.div_lt; [exact Hpos|reflexivity].
    + unfold pretty_N_char. repeat case_match; discriminate.
Qed.

Lemma pretty_nat_ne_o (n : nat) s' : pretty n <> "o" +:+ s'.
Proof.
  unfold pretty, pretty_nat, pretty, pretty_N.
  destruct (decide (N.of_nat n = 0%N)); [discriminate|].
  apply pretty_N_go_ne_o. discriminate.
Qed.

(** The ids that the server issues for tokens name no inherited
    property. *)
Lemma tokenIdOf_not_inherited n : JsObj.inherited (tokenIdOf n) = false.
Proof.
  unfold JsObj.inherited, JsObj.inheritedNames, tokenIdOf.
  cbv [String.append]. cbn.
  assert (E1 : String.eqb (pretty n) "oString" = false)
    by (apply String.eqb_neq, pretty_nat_ne_o).
  assert (E2 : String.eqb (pretty n) "oLocaleString" = false)
    by (apply String.eqb_neq, pretty_nat_ne_o).
  rewrite E1, E2. reflexivity.
Qed.

(** A token-move aimed at an id that the server issued and that the store
    no longer holds does nothing at all. *)
Lemma stale_token_move_is_silent socket now σ n x y :
  JsObj.get (tokenIdOf n) (tokens (state σ)) = None ->
  handle socket now (TokenMove (tokenIdOf n) x y) σ = Ok tt σ [].
Proof.
  intros Habs. cbn [handle]. unfold on_token_move, bind, get.
  rewrite Habs, tokenIdOf_not_inherited. reflexivity.
Qed.

(** C10 fails on the code for a token-move: the handler tests
    [state.tokens[id]], which is truthy for every name that the store
    object inherits from [Object.prototype].  A token-move aimed at such
    an id, which the store does not hold, is sent to every connection
    other than the sender and, while a recording is active, appended to
    its timeline; the store is unchanged. *)
Theorem token_move_to_inherited_name_is_relayed socket now σ id x y :
  JsObj.get id (tokens (state σ)) = None ->
  JsObj.inherited id = true ->
  exists σ',
    handle socket now (TokenMove id x y) σ
      = Ok tt σ' [mkEmit (ToOthers socket) "token-move" (PTokenMove id x y)] /\
    store σ' = store σ /\
    rec_timeline (rec σ') =
      if rec_active (rec σ)
      then rec_timeline (rec σ)
           ++ [mkEntry (now - rec_start (rec σ)) "token-move"
                       (PTokenMove id x y)]
      else rec_timeline (rec σ).
Proof.
  intros Habs Hinh. open_server σ. unfold store.
  handler_eval. rewrite Habs, Hinh. handler_eval.
  destruct ra; cbn; eauto.
Qed.

(** C10's failure while c1 is recording: c2 sends a token-move for
    ["constructor"]; the store holds no token at all. *)
Lemma token_move_to_inherited_name_is_relayed_witness :
  exists σ',
    handle "c2" 1250 (TokenMove "constructor" 7 9) whileRecording
      = Ok tt σ'
          [mkEmit (ToOthers "c2") "token-move"
                  (PTokenMove "constructor" 7 9)] /\
    store σ' = store whileRecording /\
    rec_timeline (rec σ') =
      rec_timeline (rec whileRecording)
        ++ [mkEntry 250 "token-move" (PTokenMove "constructor" 7 9)].
Proof.
  exact (token_move_to_inherited_name_is_relayed "c2" 1250 whileRecording
           "constructor" 7 9 eq_refl eq_refl).
Defined.

(** ** C7: ids that are not in the store *)

(** C7.  Removing strokes or arrows by id never fails, and an id that no
    stored element carries is skipped: the store ends as if only the ids
    present had been listed, so it is unchanged when none is present.
    token-remove, token-move and token-relabel aimed at an absent id
    return normally and leave the store unchanged. *)
Theorem absent_ids_leave_store_unchanged socket now σ :
  (forall ids, exists σ' out,
     handle socket now (StrokeRemove ids) σ = Ok tt σ' out /\
     strokes (state σ') =
       removeByIds s_id
         (List.filter (hasId s_id (strokes (state σ))) ids)
         (strokes (state σ)) /\
     arrows (state σ') = arrows (state σ) /\
     tokens (state σ') = tokens (state σ) /\
     (Forall (fun id => hasId s_id (strokes (state σ)) id = false) ids ->
      store σ' = store σ)) /\
  (forall ids, exists σ' out,
     handle socket now (ArrowRemove ids) σ = Ok tt σ' out /\
     arrows (state σ') =
       removeByIds a_id
         (List.filter (hasId a_id (arrows (state σ))) ids)
         (arrows (state σ)) /\
     strokes (state σ') = strokes (state σ) /\
     tokens (state σ') = tokens (state σ) /\
     (Forall (fun id => hasId a_id (arrows (state σ)) id = false) ids ->
      store σ' = store σ)) /\
  (forall id,
     JsObj.get id (tokens (state σ)) = None ->
     (exists σ' out,
        handle socket now (TokenRemove id) σ = Ok tt σ' out /\
        store σ' = store σ) /\
     (forall x y, exists σ' out,
        handle socket now (TokenMove id x y) σ = Ok tt σ' out /\
        store σ' = store σ) /\
     (forall lbl, exists σ' out,
        handle socket now (TokenRelabel id lbl) σ = Ok tt σ' out /\
        store σ' = store σ)).
Proof.
  open_server σ. unfold store. repeat split.
  - intros ids. handler_eval.
    destruct ra; cbn; do 2 eexists; (split; [reflexivity|]); cbn;
      (split; [apply removeByIds_skips_absent; auto|]);
      repeat split; intros H; rewrite removeByIds_all_absent; auto.
  - intros ids. handler_eval.
    destruct ra; cbn; do 2 eexists; (split; [reflexivity|]); cbn;
      (split; [apply removeByIds_skips_absent; auto|]);
      repeat split; intros H; rewrite removeByIds_all_absent; auto.
  - handler_eval. rewrite (JsObj_delete_absent _ _ H).
    destruct ra; cbn; eauto.
  - intros x y. handler_eval. rewrite H.
    destruct (JsObj.inherited id); handler_eval; destruct ra; cbn; eauto.
  - intros lbl. handler_eval. rewrite H. handler_eval.
    destruct ra; cbn; eauto.
Qed.

(** C7 on a store with one stroke and no token: removing ["nope"] along
    with the stroke's own id, and touching the absent token ["t9"]. *)
Lemma absent_ids_leave_store_unchanged_witness :
  let σ := upd_state (upd_strokes (fun _ => [strokeA])) init in
  (exists σ' out,
     handle "c1" 5 (StrokeRemove ["nope"]) σ = Ok tt σ' out /\
     store σ' = store σ) /\
  (exists σ' out,
     handle "c1" 5 (TokenRemove "t9") σ = Ok tt σ' out /\
     store σ' = store σ).
Proof.
  intros σ.
  destruct (absent_ids_leave_store_unchanged "c1" 5 σ) as (Hs & _ & Ht).
  split.
  - destruct (Hs ["nope"]) as (σ' & out & Hrun & _ & _ & _ & Hsame).
    exists σ', out. split; [exact Hrun|].
    apply Hsame. repeat constructor.
  - destruct (Ht "t9" eq_refl) as (Hrm & _). exact Hrm.
Defined.

(** ** Runs and reachable states *)

Lemma run_cons a turns σ :
  run (a :: turns) σ =
  match step a σ with
  | Ok _ σ' out =>
      match run turns σ' with
      | Ok _ σ'' out' => Ok tt σ'' (out ++ out')
      | Throw => Throw
      end
  | Throw => Throw
  end.
Proof.
  cbn [run]. unfold bind. destruct (step a σ) as [[] σ' out|]; [|reflexivity].
  destruct (run turns σ') as [[] σ'' out'|]; reflexivity.
Qed.

Lemma run_snoc turns : forall a σ σ1 out1 σ2 out2,
  run turns σ = Ok tt σ1 out1 ->
  step a σ1 = Ok tt σ2 out2 ->
  run (turns ++ [a]) σ = Ok tt σ2 (out1 ++ out2).
Proof.
  induction turns as [|b turns IH]; intros a σ σ1 out1 σ2 out2 Hrun Hstep.
  - cbn in Hrun. unfold ret in Hrun. injection Hrun as <- <-.
    cbn [app]. rewrite run_cons, Hstep. cbn. rewrite app_nil_r. reflexivity.
  - rewrite run_cons in Hrun. cbn [app]. rewrite run_cons.
    destruct (step b σ) as [[] σb outb|]; [|discriminate].
    destruct (run turns σb) as [[] σc outc|] eqn:E; [|discriminate].
    injection Hrun as <- <-.
    rewrite (IH a σb σc outc σ2 out2 E Hstep).
    rewrite app_assoc. reflexivity.
Qed.

Lemma reachable_run turns : forall σ σ' out,
  reachable σ -> run turns σ = Ok tt σ' out -> reachable σ'.
Proof.
  induction turns as [|a turns IH]; intros σ σ' out Hr H.
  - cbn in H. unfold ret in H. injection H as <- _. exact Hr.
  - rewrite run_cons in H.
    destruct (step a σ) as [[] σ1 out1|] eqn:E; [|discriminate].
    destruct (run turns σ1) as [[] σ2 out2|] eqn:E2; [|discriminate].
    injection H as <- _.
    eapply IH; [|exact E2]. eapply reachable_step; eassumption.
Qed.

(** What holds at the start of a run and is kept by every turn holds at
    its end. *)
Lemma run_inv (P : Server -> Prop) :
  (forall a σ σ' out, P σ -> step a σ = Ok tt σ' out -> P σ') ->
  forall turns σ σ' out, P σ -> run turns σ = Ok tt σ' out -> P σ'.
Proof.
  intros Hstep. induction turns as [|a turns IH]; intros σ σ' out HP H.
  - cbn in H. unfold ret in H. injection H as <- _. exact HP.
  - rewrite run_cons in H.
    destruct (step a σ) as [[] σ1 out1|] eqn:E; [|discriminate].
    destruct (run turns σ1) as [[] σ2 out2|] eqn:E2; [|discriminate].
    injection H as <- _.
    eapply IH; [|exact E2]. eapply Hstep; eassumption.
Qed.

(** ** Start-up *)

(** A process that finds nothing stored starts from the initial values. *)
Lemma started_nothing : started Nothing Nothing = init.
Proof. reflexivity. Qed.

Lemma afterMax_bounds {A} (idOf : A -> nat) (l : list A) :
  Forall (fun x => (idOf x < afterMax (idOf <$> l))%nat) l.
Proof.
  unfold afterMax.
  assert (H : Forall (fun n => (n <= list_max (idOf <$> l))%nat) (idOf <$> l)).
  { apply list_max_le. lia. }
  rewrite Forall_fmap in H. eapply Forall_impl; [exact H|]. cbn. lia.
Qed.

Lemma or_one_ge n : (n <= or_one n)%nat.
Proof. unfold or_one. destruct n; cbn; lia. Qed.

(** The state in which a process starts that finds what a server in state
    [σ] left: the presets and recordings of [σ], counters [np] and [nr]
    for them that are above their ids whenever the counters of [σ] were,
    and the initial values in every other field. *)
Lemma started_left σ presets recs :
  leftAs (boardPresets σ) (nextPresetId σ) presets ->
  leftAs (recordings σ) (nextRecId σ) recs ->
  exists np nr,
    started presets recs =
      mkServer (state init) 1 1 (rec init) (rep init) (recordings σ) nr
        (boardPresets σ) np 0 [] 0 /\
    (Forall (fun p => (p_id p < nextPresetId σ)%nat) (boardPresets σ) ->
     Forall (fun p => (p_id p < np)%nat) (boardPresets σ)) /\
    (Forall (fun r => (r_id r < nextRecId σ)%nat) (recordings σ) ->
     Forall (fun r => (r_id r < nr)%nat) (recordings σ)).
Proof.
  intros Hp Hr.
  assert (Hps : exists np,
    loadPresets presets init
      = Ok tt (upd_nextPresetId (fun _ => np)
                 (upd_boardPresets (fun _ => boardPresets σ) init)) [] /\
    (Forall (fun p => (p_id p < nextPresetId σ)%nat) (boardPresets σ) ->
     Forall (fun p => (p_id p < np)%nat) (boardPresets σ))).
  { destruct Hp.
    - destruct (boardPresets σ) as [|p l] eqn:E.
      + exists 1%nat. split; [reflexivity|]. intros _. constructor.
      + exists (afterMax (p_id <$> p :: l)). split; [reflexivity|].
        intros _. apply afterMax_bounds.
    - exists (or_one (nextPresetId σ)). split; [reflexivity|].
      intros H. eapply Forall_impl; [exact H|]. cbn. intros p Hlt.
      pose proof (or_one_ge (nextPresetId σ)). lia. }
  destruct Hps as (np & Hload & Hnp).
  assert (Hrs : forall τ, exists nr,
    loadRecordings recs τ
      = Ok tt (upd_nextRecId (fun _ => nr)
                 (upd_recordings (fun _ => recordings σ) τ)) [] /\
    (nextRecId τ = 1%nat ->
     Forall (fun r => (r_id r < nextRecId σ)%nat) (recordings σ) ->
     Forall (fun r => (r_id r < nr)%nat) (recordings σ))).
  { intros τ. destruct Hr.
    - destruct (recordings σ) as [|r l] eqn:E.
      + exists (nextRecId τ). split; [destruct τ; reflexivity|].
        intros _ _. constructor.
      + exists (afterMax (r_id <$> r :: l)). split; [reflexivity|].
        intros _ _. apply afterMax_bounds.
    - exists (or_one (nextRecId σ)). split; [reflexivity|].
      intros _ H. eapply Forall_impl; [exact H|]. cbn. intros r Hlt.
      pose proof (or_one_ge (nextRecId σ)). lia. }
  destruct (Hrs (upd_nextPresetId (fun _ => np)
                   (upd_boardPresets (fun _ => boardPresets σ) init)))
    as (nr & Hload' & Hnr).
  exists np, nr. split; [|split; [exact Hnp|apply Hnr; reflexivity]].
  unfold started, startServer, bind. rewrite Hload, Hload'. reflexivity.
Qed.

(** ** Objects, arrays and issued identifiers *)

Lemma JsObj_get_None {V} k (o : JsObj.t V) :
  JsObj.get k o = None <-> k ∉ JsObj.keys o.
Proof.
  unfold JsObj.keys. induction o as [|[k' v] o IH]; cbn.
  - split; [intros _; apply not_elem_of_nil|reflexivity].
  - rewrite not_elem_of_cons. destruct (String.eqb k' k) eqn:E.
    + apply String.eqb_eq in E. split; [discriminate|]. intros [H _]. congruence.
    + apply String.eqb_neq in E. rewrite IH. split; [split; [congruence|tauto]|tauto].
Qed.

Lemma JsObj_set_fresh {V} k (v : V) (o : JsObj.t V) :
  JsObj.get k o = None -> JsObj.set k v o = o ++ [(k, v)].
Proof.
  induction o as [|[k' v'] o IH]; cbn; [reflexivity|].
  destruct (String.eqb k' k); [discriminate|].
  intros H. rewrite IH by assumption. reflexivity.
Qed.

Lemma JsObj_set_keys {V} k (v v0 : V) (o : JsObj.t V) :
  JsObj.get k o = Some v0 -> JsObj.keys (JsObj.set k v o) = JsObj.keys o.
Proof.
  unfold JsObj.keys. induction o as [|[k' v'] o IH]; cbn; [discriminate|].
  destruct (String.eqb k' k); cbn; [reflexivity|].
  intros H. rewrite IH by assumption. reflexivity.
Qed.

Lemma JsObj_set_Forall {V} (P : string * V -> Prop) k v (o : JsObj.t V) :
  Forall P o -> P (k, v) -> Forall P (JsObj.set k v o).
Proof.
  intros Ho Hkv. induction Ho as [|[k' v'] o Hx Ho IH]; cbn.
  - repeat constructor. exact Hkv.
  - destruct (String.eqb k' k) eqn:E.
    + apply String.eqb_eq in E. subst k'. constructor; assumption.
    + constructor; assumption.
Qed.

Lemma JsObj_get_Forall {V} (P : string * V -> Prop) k v (o : JsObj.t V) :
  Forall P o -> JsObj.get k o = Some v -> P (k, v).
Proof.
  induction 1 as [|[k' v'] o Hx Ho IH]; cbn; [discriminate|].
  destruct (String.eqb k' k) eqn:E.
  - apply String.eqb_eq in E. subst k'. intros [= <-]. exact Hx.
  - exact IH.
Qed.

Lemma JsObj_delete_Forall {V} (P : string * V -> Prop) k (o : JsObj.t V) :
  Forall P o -> Forall P (JsObj.delete k o).
Proof.
  induction 1 as [|[k' v'] o Hx Ho IH]; cbn; [constructor|].
  destruct (String.eqb k' k); [assumption|constructor; assumption].
Qed.

Lemma JsObj_delete_keys {V} k (o : JsObj.t V) x :
  x ∈ JsObj.keys (JsObj.delete k o) -> x ∈ JsObj.keys o.
Proof.
  unfold JsObj.keys. induction o as [|[k' v'] o IH]; cbn; [auto|].
  destruct (String.eqb k' k); cbn; rewrite ?elem_of_cons; intuition.
Qed.

Lemma JsObj_delete_NoDup {V} k (o : JsObj.t V) :
  NoDup (JsObj.keys o) -> NoDup (JsObj.keys (JsObj.delete k o)).
Proof.
  unfold JsObj.keys. induction o as [|[k' v'] o IH]; cbn; [auto|].
  rewrite NoDup_cons. intros [Hn Hd].
  destruct (String.eqb k' k); cbn; [auto|].
  rewrite NoDup_cons. split; [|auto].
  intros H. apply Hn. eapply (JsObj_delete_keys k o). exact H.
Qed.

Lemma splice1_Forall {A} (P : A -> Prop) idx (l : list A) :
  Forall P l -> Forall P (splice1 idx l).
Proof.
  intros H. revert idx. induction H as [|x l Hx Hl IH]; intros [|i]; cbn;
    auto using Forall.
Qed.

Lemma splice1_elem_of {A} idx (l : list A) x :
  x ∈ splice1 idx l -> x ∈ l.
Proof.
  revert idx. induction l as [|y l IH]; intros [|i]; cbn; auto;
    rewrite ?elem_of_cons; intuition eauto.
Qed.

Lemma splice1_fmap {A B} (f : A -> B) idx (l : list A) :
  f <$> splice1 idx l = splice1 idx (f <$> l).
Proof.
  revert idx. induction l as [|y l IH]; intros [|i]; cbn; auto.
  rewrite IH. reflexivity.
Qed.

Lemma splice1_NoDup {A} idx (l : list A) :
  NoDup l -> NoDup (splice1 idx l).
Proof.
  revert idx. induction l as [|y l IH]; intros [|i]; cbn; auto;
    rewrite !NoDup_cons; intros [Hn Hd]; auto.
  split; [|auto]. intros H. apply Hn. eapply splice1_elem_of, H.
Qed.

Lemma removeById_Forall {A} (idOf : A -> string) (P : A -> Prop) l id :
  Forall P l -> Forall P (removeById idOf l id).
Proof.
  intros H. unfold removeById. destruct (findIndex _ l); [|exact H].
  apply splice1_Forall, H.
Qed.

Lemma removeById_NoDup {A} (idOf : A -> string) (l : list A) id :
  NoDup (idOf <$> l) -> NoDup (idOf <$> removeById idOf l id).
Proof.
  intros H. unfold removeById. destruct (findIndex _ l); [|exact H].
  rewrite splice1_fmap. apply splice1_NoDup, H.
Qed.

Lemma removeByIds_Forall {A} (idOf : A -> string) (P : A -> Prop) ids :
  forall l, Forall P l -> Forall P (removeByIds idOf ids l).
Proof.
  induction ids as [|id ids IH]; intros l H; cbn; [exact H|].
  apply IH, removeById_Forall, H.
Qed.

Lemma removeByIds_NoDup {A} (idOf : A -> string) ids :
  forall l : list A,
    NoDup (idOf <$> l) -> NoDup (idOf <$> removeByIds idOf ids l).
Proof.
  induction ids as [|id ids IH]; intros l H; cbn; [exact H|].
  apply IH, removeById_NoDup, H.
Qed.

Lemma find_Some {A} (p : A -> bool) (l : list A) x :
  find p l = Some x -> In x l /\ p x = true.
Proof.
  induction l as [|y l IH]; cbn; [discriminate|].
  destruct (p y) eqn:E.
  - intros [= <-]. auto.
  - intros H. destruct (IH H). auto.
Qed.

Lemma renameFirst_Forall {A} (P : A -> Prop) p f (l : list A) :
  (forall x, P x -> P (f x)) -> Forall P l -> Forall P (renameFirst p f l).
Proof.
  intros Hf. induction 1 as [|x l Hx Hl IH]; cbn; [constructor|].
  destruct (p x); constructor; auto.
Qed.

Lemma tokenIdOf_inj n m : tokenIdOf n = tokenIdOf m -> n = m.
Proof.
  unfold tokenIdOf. cbn. intros [= H]. exact (pretty_nat_inj _ _ H).
Qed.

Lemma arrowIdOf_inj n m : arrowIdOf n = arrowIdOf m -> n = m.
Proof.
  unfold arrowIdOf. cbn. intros [= H]. exact (pretty_nat_inj _ _ H).
Qed.

(** ** Closed forms of the replay procedures *)

Lemma forEach_clearTimeout hs : forall σ,
  forEach hs clearTimeout σ = Ok tt (upd_pending (clearAll hs) σ) [].
Proof.
  induction hs as [|h hs IH]; intros σ.
  - destruct σ. reflexivity.
  - cbn [forEach]. unfold bind. unfold clearTimeout at 1. unfold modify.
    rewrite IH. destruct σ. reflexivity.
Qed.

Lemma finishReplay_eq σ :
  finishReplay σ =
  match preSnap (rep σ) with
  | Some s => Ok tt (replayFinished s σ) (finishMessages s)
  | None => Throw
  end.
Proof.
  unfold finishReplay. unfold bind at 1. unfold get at 1.
  unfold bind at 1. rewrite forEach_clearTimeout.
  open_server σ. destruct pps as [s|]; reflexivity.
Qed.

Lemma schedule_entries now tl : forall σ,
  forEach tl (fun entry =>
      h ← setTimeout now (CbEmit (event entry) (data entry)) (t entry + 350);
      push_rep_timer h) σ
  = Ok tt
      (mkServer (state σ) (nextTokenId σ) (nextArrowId σ) (rec σ)
         (mkRep (rep_active (rep σ))
                (rep_timers (rep σ) ++ seq (nextTimer σ) (length tl))
                (preSnap (rep σ)) (currentRecId (rep σ)))
         (recordings σ) (nextRecId σ) (boardPresets σ) (nextPresetId σ)
         (colorIndex σ) (pending σ ++ entryTimers now (nextTimer σ) tl)
         (nextTimer σ + length tl)%nat) [].
Proof.
  induction tl as [|e tl IH]; intros σ.
  - open_server σ. cbn. unfold ret. rewrite !app_nil_r, Nat.add_0_r.
    reflexivity.
  - cbn [forEach]. unfold bind at 1.
    unfold setTimeout, push_rep_timer, bind, get, modify, ret. cbn.
    unfold bind in IH. rewrite IH. open_server σ.
    rewrite <- ?app_assoc. cbn. rewrite ?Nat.add_succ_r. reflexivity.
Qed.

Lemma on_replay_start_accepts now recId σ recording snap :
  rep_active (rep σ) = false ->
  find (fun r => Nat.eqb (r_id r) recId) (recordings σ) = Some recording ->
  snapshot recording = Some snap ->
  on_replay_start now recId σ =
  Ok tt (replayStarted now recId recording snap σ)
    [mkEmit ToAll "clear-board" PNone;
     mkEmit ToAll "tokens-cleared" PNone;
     mkEmit ToAll "replay-started" (PReplayStarted (duration recording) recId)].
Proof.
  intros Hact Hfind Hsnap. unfold on_replay_start.
  unfold bind at 1. unfold get at 1. rewrite Hact, Hfind.
  unfold bind at 1. unfold snapState at 1, bind at 1, get at 1, ret at 1.
  unfold bind at 1. unfold modify at 1. rewrite Hsnap.
  unfold bind at 1. unfold modify at 1.
  unfold bind at 1. unfold io_emit at 1, emit at 1.
  unfold bind at 1. unfold io_emit at 1, emit at 1.
  unfold bind at 1. unfold io_emit at 1, emit at 1.
  unfold bind at 1. unfold setTimeout at 1, bind at 1, get at 1.
  unfold bind at 1. unfold modify at 1. unfold bind at 1, modify at 1, ret at 1.
  unfold bind at 1. unfold modify at 1.
  unfold bind at 1. rewrite schedule_entries.
  unfold bind at 1, setTimeout, push_rep_timer, bind, get, modify, ret.
  open_server σ. unfold replayStarted, store, deepCopy. cbn. upd_norm.
  rewrite <- ?app_assoc. cbn. rewrite ?Nat.add_succ_r. reflexivity.
Qed.

(** ** The identifier invariant *)

Lemma tokensOk_nil b : tokensOk b [].
Proof. split; [apply NoDup_nil_2|constructor]. Qed.

Lemma arrowsOk_nil b : arrowsOk b [].
Proof. split; [apply NoDup_nil_2|constructor]. Qed.

Lemma tokensOk_mono b b' o : (b <= b')%nat -> tokensOk b o -> tokensOk b' o.
Proof.
  intros Hle [Hd Hf]. split; [exact Hd|].
  eapply Forall_impl; [exact Hf|]. cbn. intros kv (Hid & n & Hn & Hk).
  split; [exact Hid|]. exists n. split; [lia|exact Hk].
Qed.

Lemma arrowsOk_mono b b' l : (b <= b')%nat -> arrowsOk b l -> arrowsOk b' l.
Proof.
  intros Hle [Hd Hf]. split; [exact Hd|].
  eapply Forall_impl; [exact Hf|]. cbn. intros a (n & Hn & Hk).
  exists n. split; [lia|exact Hk].
Qed.

Lemma snapOk_mono nt na nt' na' s :
  (nt <= nt')%nat -> (na <= na')%nat -> snapOk nt na s -> snapOk nt' na' s.
Proof.
  intros H1 H2 [Ht Ha]. split; eauto using tokensOk_mono, arrowsOk_mono.
Qed.

Lemma optOk_mono nt na nt' na' o :
  (nt <= nt')%nat -> (na <= na')%nat -> optOk nt na o -> optOk nt' na' o.
Proof. destruct o; cbn; eauto using snapOk_mono. Qed.

(** The next token id is not a key of a store that satisfies the
    invariant. *)
Lemma tokensOk_fresh b o : tokensOk b o -> JsObj.get (tokenIdOf b) o = None.
Proof.
  intros [_ Hf]. apply JsObj_get_None. unfold JsObj.keys.
  intros Hin. apply list_elem_of_fmap in Hin as (kv & Hk & Hkv).
  rewrite Forall_forall in Hf.
  destruct (Hf kv Hkv) as (_ & n & Hn & Hkn).
  rewrite <- Hk in Hkn. apply tokenIdOf_inj in Hkn. lia.
Qed.

Lemma tokensOk_add b o tk :
  tokensOk b o -> t_id tk = tokenIdOf b ->
  tokensOk (S b) (JsObj.set (tokenIdOf b) tk o).
Proof.
  intros Hok Hid. pose proof (tokensOk_fresh _ _ Hok) as Hfresh.
  rewrite (JsObj_set_fresh _ _ _ Hfresh).
  apply (tokensOk_mono b (S b)) in Hok; [|lia]. destruct Hok as [Hd Hf].
  split.
  - unfold JsObj.keys in *. rewrite fmap_app. apply NoDup_app.
    split; [exact Hd|]. split; [|apply NoDup_singleton].
    intros x Hx. cbn. rewrite list_elem_of_singleton. intros ->.
    apply JsObj_get_None in Hfresh. exact (Hfresh Hx).
  - apply Forall_app. split; [exact Hf|]. repeat constructor; cbn; [exact Hid|].
    exists b. split; [lia|reflexivity].
Qed.

Lemma tokensOk_update b o id tk tk' :
  tokensOk b o -> JsObj.get id o = Some tk -> t_id tk' = t_id tk ->
  tokensOk b (JsObj.set id tk' o).
Proof.
  intros [Hd Hf] Hget Hid. split.
  - rewrite (JsObj_set_keys _ _ _ _ Hget). exact Hd.
  - apply JsObj_set_Forall; [exact Hf|].
    pose proof (JsObj_get_Forall _ _ _ _ Hf Hget) as H. cbn in *.
    rewrite Hid. exact H.
Qed.

Lemma tokensOk_delete b o id : tokensOk b o -> tokensOk b (JsObj.delete id o).
Proof.
  intros [Hd Hf]. split; [apply JsObj_delete_NoDup, Hd|].
  apply JsObj_delete_Forall, Hf.
Qed.

(** The next arrow id is carried by no arrow of a store that satisfies the
    invariant. *)
Lemma arrowsOk_fresh b l : arrowsOk b l -> arrowIdOf b ∉ a_id <$> l.
Proof.
  intros [_ Hf] Hin. apply list_elem_of_fmap in Hin as (a & Hk & Ha).
  rewrite Forall_forall in Hf.
  destruct (Hf a Ha) as (n & Hn & Hkn).
  rewrite <- Hk in Hkn. apply arrowIdOf_inj in Hkn. lia.
Qed.

Lemma arrowsOk_push b l a :
  arrowsOk b l -> a_id a = arrowIdOf b -> arrowsOk (S b) (l ++ [a]).
Proof.
  intros Hok Hid. pose proof (arrowsOk_fresh _ _ Hok) as Hfresh.
  apply (arrowsOk_mono b (S b)) in Hok; [|lia]. destruct Hok as [Hd Hf].
  split.
  - rewrite fmap_app. apply NoDup_app.
    split; [exact Hd|]. split; [|apply NoDup_singleton].
    intros x Hx. cbn. rewrite list_elem_of_singleton, Hid. intros ->.
    exact (Hfresh Hx).
  - apply Forall_app. split; [exact Hf|]. repeat constructor.
    exists b. split; [lia|exact Hid].
Qed.

Lemma arrowsOk_removeByIds b l ids :
  arrowsOk b l -> arrowsOk b (removeByIds a_id ids l).
Proof.
  intros [Hd Hf]. split; [apply removeByIds_NoDup, Hd|].
  apply removeByIds_Forall, Hf.
Qed.

Lemma recordingsOk_mono nt na nt' na' (l : list Recording) :
  (nt <= nt')%nat -> (na <= na')%nat ->
  Forall (fun r => optOk nt na (snapshot r)) l ->
  Forall (fun r => optOk nt' na' (snapshot r)) l.
Proof.
  intros H1 H2 H. eapply Forall_impl; [exact H|].
  intros r. apply optOk_mono; assumption.
Qed.

Lemma presetsOk_mono nt na nt' na' (l : list Preset) :
  (nt <= nt')%nat -> (na <= na')%nat ->
  Forall (fun p => snapOk nt na (presetSnap p)) l ->
  Forall (fun p => snapOk nt' na' (presetSnap p)) l.
Proof.
  intros H1 H2 H. eapply Forall_impl; [exact H|].
  intros r. apply snapOk_mono; assumption.
Qed.

Ltac ids_open Hinv :=
  unfold idsInv, store in *; cbn in *;
  destruct Hinv as ([Ht Ha] & Hp & Hr & Hrs & Hps).

Ltac ids_split := refine (conj (conj _ _) (conj _ (conj _ (conj _ _)))).

Ltac ids_auto :=
  eauto using tokensOk_nil, arrowsOk_nil, tokensOk_delete,
    arrowsOk_removeByIds, splice1_Forall.

Lemma idsInv_finishReplay σ σ' out :
  idsInv σ -> finishReplay σ = Ok tt σ' out -> idsInv σ'.
Proof.
  intros Hinv. rewrite finishReplay_eq. open_server σ.
  destruct pps as [s|]; [|discriminate]. intros H. injection H as <- <-.
  ids_open Hinv. unfold replayFinished. cbn. destruct Hp.
  ids_split; ids_auto. split; assumption.
Qed.

Lemma idsInv_handle socket now msg σ σ' out :
  idsInv σ -> handle socket now msg σ = Ok tt σ' out -> idsInv σ'.
Proof.
  intros Hinv H.
  destruct msg as [uname|d|stroke|ids|token|id x y|id|id lbl|arrow|ids| | |x y
                  | | |recId| | |recId newName|recId|name|presetId
                  |presetId newName|presetId| | ].
  all: try (open_server σ; revert H; handler_eval; destruct ra; cbn;
            intros H; injection H as <- <-; exact Hinv).
  - (* token-add *)
    open_server σ; revert H; handler_eval; intros H.
    ids_open Hinv.
    destruct ra; cbn in H; injection H as <- <-; cbn;
      (ids_split;
       [apply tokensOk_add; [assumption|reflexivity]
       |assumption
       |apply optOk_mono with ntk nar; [lia|lia|assumption]
       |apply optOk_mono with ntk nar; [lia|lia|assumption]
       |apply recordingsOk_mono with ntk nar; [lia|lia|assumption]
       |apply presetsOk_mono with ntk nar; [lia|lia|assumption]]).
  - (* token-move *)
    open_server σ; revert H; handler_eval.
    destruct (JsObj.get id ts) as [tk|] eqn:Hget; handler_eval; intros H.
    + ids_open Hinv.
      destruct ra; cbn in H; injection H as <- <-; cbn;
        (ids_split; ids_auto; eapply tokensOk_update; eauto).
    + revert H. destruct (JsObj.inherited id); handler_eval;
        destruct ra; cbn; intros H; injection H as <- <-; exact Hinv.
  - (* token-remove *)
    open_server σ; revert H; handler_eval; intros H. ids_open Hinv.
    destruct ra; cbn in H; injection H as <- <-; cbn; ids_split; ids_auto.
  - (* token-relabel *)
    open_server σ; revert H; handler_eval.
    destruct (JsObj.get id ts) as [tk|] eqn:Hget; handler_eval; intros H;
      ids_open Hinv;
      destruct ra; cbn in H; injection H as <- <-; cbn;
        (ids_split; ids_auto; eapply tokensOk_update; eauto).
  - (* arrow-done *)
    open_server σ; revert H; handler_eval; intros H.
    ids_open Hinv.
    destruct ra; cbn in H; injection H as <- <-; cbn;
      (ids_split;
       [assumption
       |apply arrowsOk_push; [assumption|reflexivity]
       |apply optOk_mono with ntk nar; [lia|lia|assumption]
       |apply optOk_mono with ntk nar; [lia|lia|assumption]
       |apply recordingsOk_mono with ntk nar; [lia|lia|assumption]
       |apply presetsOk_mono with ntk nar; [lia|lia|assumption]]).
  - (* arrow-remove *)
    open_server σ; revert H; handler_eval; intros H. ids_open Hinv.
    destruct ra; cbn in H; injection H as <- <-; cbn; ids_split; ids_auto.
  - (* clear-board *)
    open_server σ; revert H; handler_eval; intros H. ids_open Hinv.
    destruct ra; cbn in H; injection H as <- <-; cbn; ids_split; ids_auto.
  - (* clear-drawings *)
    open_server σ; revert H; handler_eval; intros H. ids_open Hinv.
    destruct ra; cbn in H; injection H as <- <-; cbn; ids_split; ids_auto.
  - (* recording-start *)
    open_server σ; revert H; handler_eval.
    destruct ra, pa; cbn; intros H; injection H as <- <-; try exact Hinv.
    ids_open Hinv. ids_split; ids_auto. split; assumption.
  - (* recording-stop *)
    open_server σ; revert H; handler_eval.
    destruct ra; cbn; intros H; injection H as <- <-; try exact Hinv.
    ids_open Hinv. ids_split; ids_auto.
    apply Forall_app. split; [assumption|].
    constructor; [exact Hr|constructor].
  - (* replay-start *)
    cbn [handle] in H. destruct (rep_active (rep σ)) eqn:Hact.
    { revert H. unfold on_replay_start, bind, get. rewrite Hact. cbn.
      intros H. injection H as <- <-. exact Hinv. }
    destruct (find (fun r => Nat.eqb (r_id r) recId) (recordings σ))
      as [recording|] eqn:Hfind.
    2:{ revert H. unfold on_replay_start, bind, get. rewrite Hact, Hfind. cbn.
        intros H. injection H as <- <-. exact Hinv. }
    destruct (snapshot recording) as [snap|] eqn:Hsnap.
    2:{ revert H. unfold on_replay_start, bind, get, snapState, modify, ret.
        rewrite Hact, Hfind. cbn. rewrite Hsnap. discriminate. }
    rewrite (on_replay_start_accepts _ _ _ _ _ Hact Hfind Hsnap) in H.
    injection H as <- <-. apply find_Some in Hfind as [Hin _].
    open_server σ. ids_open Hinv. unfold replayStarted. cbn.
    pose proof Hrs as Hall. rewrite Forall_forall in Hall.
    apply list_elem_of_In in Hin.
    specialize (Hall _ Hin). rewrite Hsnap in Hall. destruct Hall.
    ids_split; ids_auto. split; assumption.
  - (* replay-stop *)
    cbn [handle] in H. unfold on_replay_stop, bind, get in H.
    destruct (rep_active (rep σ)).
    + destruct (finishReplay σ) as [[] σ1 out1|] eqn:E; [|discriminate].
      injection H as <- <-. eapply idsInv_finishReplay; eassumption.
    + cbn in H. injection H as <- <-. exact Hinv.
  - (* rename-recording *)
    open_server σ; revert H; handler_eval.
    destruct (find _ rcs); handler_eval; intros H; injection H as <- <-;
      [|exact Hinv].
    ids_open Hinv. ids_split; ids_auto.
    apply (renameFirst_Forall (fun r => optOk ntk nar (snapshot r)));
      [|exact Hrs]. intros rr Hr'. exact Hr'.
  - (* delete-recording *)
    open_server σ; revert H; handler_eval.
    destruct (findIndex _ rcs); handler_eval; intros H; injection H as <- <-;
      [|exact Hinv].
    ids_open Hinv. ids_split; ids_auto.
  - (* save-preset *)
    open_server σ; revert H; handler_eval. intros H; injection H as <- <-.
    ids_open Hinv. ids_split; ids_auto.
    apply Forall_app. split; [assumption|].
    constructor; [split; assumption|constructor].
  - (* load-preset *)
    open_server σ; revert H; handler_eval.
    destruct (find _ bps) as [preset|] eqn:Hfind; handler_eval; intros H;
      injection H as <- <-; [|exact Hinv].
    apply find_Some in Hfind as [Hin _]. ids_open Hinv.
    pose proof Hps as Hall. rewrite Forall_forall in Hall.
    apply list_elem_of_In in Hin. destruct (Hall _ Hin).
    ids_split; ids_auto.
  - (* rename-preset *)
    open_server σ; revert H; handler_eval.
    destruct (find _ bps); handler_eval; intros H; injection H as <- <-;
      [|exact Hinv].
    ids_open Hinv. ids_split; ids_auto.
    apply (renameFirst_Forall (fun p => snapOk ntk nar (presetSnap p)));
      [|exact Hps]. intros pp Hp'. exact Hp'.
  - (* delete-preset *)
    open_server σ; revert H; handler_eval.
    destruct (findIndex _ bps); handler_eval; intros H; injection H as <- <-;
      [|exact Hinv].
    ids_open Hinv. ids_split; ids_auto.
  - (* disconnect *)
    open_server σ; revert H; handler_eval.
    destruct (JsObj.get socket us); cbn; intros H; injection H as <- <-;
      exact Hinv.
Qed.

Lemma fire_cases h σ σ' out :
  fire h σ = Ok tt σ' out ->
  (σ' = σ /\ out = []) \/
  exists tm,
    In tm (pending σ) /\ tid tm = h /\
    runCallback (callback tm)
      (upd_pending (List.filter (fun tm => negb (Nat.eqb (tid tm) h))) σ)
    = Ok tt σ' out.
Proof.
  unfold fire. unfold bind at 1. unfold get at 1.
  destruct (find _ (pending σ)) as [tm|] eqn:Hfind.
  - unfold bind, modify. intros H. right. exists tm.
    apply find_Some in Hfind as [Hin Hid]. apply Nat.eqb_eq in Hid.
    split; [exact Hin|]. split; [exact Hid|].
    destruct (runCallback _ _) as [[] σ1 out1|]; [|discriminate].
    cbn in H. injection H as <- <-. reflexivity.
  - cbn. intros H. injection H as <- <-. left. auto.
Qed.

Lemma idsInv_step a σ σ' out :
  idsInv σ -> step a σ = Ok tt σ' out -> idsInv σ'.
Proof.
  destruct a as [socket now msg|h]; [apply idsInv_handle|].
  intros Hinv H. cbn [step] in H.
  apply fire_cases in H as [[-> _]|(tm & _ & _ & H)]; [exact Hinv|].
  assert (Hinv' : idsInv (upd_pending
            (List.filter (fun tm => negb (Nat.eqb (tid tm) h))) σ)).
  { open_server σ. exact Hinv. }
  destruct (callback tm); cbn [runCallback] in H.
  - injection H as <- <-. exact Hinv'.
  - injection H as <- <-. exact Hinv'.
  - eapply idsInv_finishReplay; eassumption.
Qed.

Lemma idsInv_init : idsInv init.
Proof.
  unfold idsInv. cbn.
  repeat split; auto using NoDup_nil_2, Forall_nil_2.
Qed.

(** The invariant holds throughout a process that found nothing
    stored. *)
Lemma run_idsInv turns σ out : run turns init = Ok tt σ out -> idsInv σ.
Proof.
  apply (run_inv idsInv); [|apply idsInv_init].
  intros a σ1 σ2 out' Hinv Hstep. eapply idsInv_step; eassumption.
Qed.

(** ** Case analysis of the replay controls *)

Lemma on_replay_start_cases now recId σ σ' out :
  on_replay_start now recId σ = Ok tt σ' out ->
  (σ' = σ /\ out = []) \/
  exists recording snap,
    rep_active (rep σ) = false /\
    find (fun r => Nat.eqb (r_id r) recId) (recordings σ) = Some recording /\
    snapshot recording = Some snap /\
    σ' = replayStarted now recId recording snap σ /\
    out = [mkEmit ToAll "clear-board" PNone;
           mkEmit ToAll "tokens-cleared" PNone;
           mkEmit ToAll "replay-started"
             (PReplayStarted (duration recording) recId)].
Proof.
  intros H. destruct (rep_active (rep σ)) eqn:Hact.
  { revert H. unfold on_replay_start, bind, get. rewrite Hact. cbn.
    intros H. injection H as <- <-. auto. }
  destruct (find (fun r => Nat.eqb (r_id r) recId) (recordings σ))
    as [recording|] eqn:Hfind.
  2:{ revert H. unfold on_replay_start, bind, get. rewrite Hact, Hfind. cbn.
      intros H. injection H as <- <-. auto. }
  destruct (snapshot recording) as [snap|] eqn:Hsnap.
  2:{ revert H. unfold on_replay_start, bind, get, snapState, modify, ret.
      rewrite Hact, Hfind. cbn. rewrite Hsnap. discriminate. }
  rewrite (on_replay_start_accepts _ _ _ _ _ Hact Hfind Hsnap) in H.
  injection H as <- <-. right. exists recording, snap. auto.
Qed.

Lemma on_replay_stop_cases σ σ' out :
  on_replay_stop σ = Ok tt σ' out ->
  (rep_active (rep σ) = false /\ σ' = σ /\ out = []) \/
  exists s,
    rep_active (rep σ) = true /\ preSnap (rep σ) = Some s /\
    σ' = replayFinished s σ /\ out = finishMessages s.
Proof.
  unfold on_replay_stop, bind, get.
  destruct (rep_active (rep σ));
    [rewrite finishReplay_eq; destruct (preSnap (rep σ)) as [s|]|]; cbn.
  - intros H. injection H as <- <-. right. exists s. auto.
  - discriminate.
  - intros H. injection H as <- <-. auto.
Qed.

(** Case analysis on an innermost scrutinee of the goal. *)
Ltac case_scrutinee :=
  match goal with
  | |- context [match ?x with _ => _ end] =>
      lazymatch x with
      | context [match _ with _ => _ end] => fail
      | _ => destruct x eqn:?
      end
  end.

(** ** Token objects sit under their own ids *)

Lemma keyed_nil : keyed [].
Proof. split; [apply NoDup_nil_2|constructor]. Qed.

Lemma keyed_delete o id : keyed o -> keyed (JsObj.delete id o).
Proof.
  intros [Hd Hf]. split; [apply JsObj_delete_NoDup, Hd|].
  apply JsObj_delete_Forall, Hf.
Qed.

Lemma JsObj_set_NoDup {V} k (v : V) (o : JsObj.t V) :
  NoDup (JsObj.keys o) -> NoDup (JsObj.keys (JsObj.set k v o)).
Proof.
  intros Hd. destruct (JsObj.get k o) as [v0|] eqn:E.
  - rewrite (JsObj_set_keys _ _ _ _ E). exact Hd.
  - rewrite (JsObj_set_fresh _ _ _ E). unfold JsObj.keys in *.
    rewrite fmap_app. apply NoDup_app.
    split; [exact Hd|]. split; [|apply NoDup_singleton].
    intros x Hx. cbn. rewrite list_elem_of_singleton. intros ->.
    apply JsObj_get_None in E. exact (E Hx).
Qed.

Lemma keyed_set o id tk : keyed o -> t_id tk = id -> keyed (JsObj.set id tk o).
Proof.
  intros [Hd Hf] Hid. split; [apply JsObj_set_NoDup, Hd|].
  apply JsObj_set_Forall; [exact Hf|exact Hid].
Qed.

Lemma keyed_update o id tk tk' :
  keyed o -> JsObj.get id o = Some tk -> t_id tk' = t_id tk ->
  keyed (JsObj.set id tk' o).
Proof.
  intros Hk Hget Hid. apply keyed_set; [exact Hk|].
  destruct Hk as [_ Hf].
  pose proof (JsObj_get_Forall _ _ _ _ Hf Hget) as H. cbn in H. congruence.
Qed.

Ltac keyed_open Hinv :=
  unfold keyedInv in *; cbn in *;
  destruct Hinv as (Ht & Hp & Hr & Hrs & Hps).

Ltac keyed_split := refine (conj _ (conj _ (conj _ (conj _ _)))).

Ltac keyed_auto :=
  eauto using keyed_nil, keyed_delete, splice1_Forall.

Lemma keyedInv_finishReplay σ σ' out :
  keyedInv σ -> finishReplay σ = Ok tt σ' out -> keyedInv σ'.
Proof.
  intros Hinv. rewrite finishReplay_eq. open_server σ.
  destruct pps as [s|]; [|discriminate]. intros H. injection H as <- <-.
  keyed_open Hinv. unfold replayFinished. cbn.
  keyed_split; keyed_auto.
Qed.

Lemma keyedInv_handle socket now msg σ σ' out :
  keyedInv σ -> handle socket now msg σ = Ok tt σ' out -> keyedInv σ'.
Proof.
  intros Hinv H.
  destruct msg as [uname|d|stroke|ids|token|id x y|id|id lbl|arrow|ids| | |x y
                  | | |recId| | |recId newName|recId|name|presetId
                  |presetId newName|presetId| | ].
  all: try (open_server σ; revert H; handler_eval; destruct ra; cbn;
            intros H; injection H as <- <-; exact Hinv).
  - (* token-add *)
    open_server σ; revert H; handler_eval; intros H.
    keyed_open Hinv.
    destruct ra; cbn in H; injection H as <- <-; cbn;
      (keyed_split; keyed_auto; apply keyed_set; [assumption|reflexivity]).
  - (* token-move *)
    open_server σ; revert H; handler_eval.
    destruct (JsObj.get id ts) as [tk|] eqn:Hget; handler_eval; intros H.
    + keyed_open Hinv.
      destruct ra; cbn in H; injection H as <- <-; cbn;
        (keyed_split; keyed_auto; eapply keyed_update; eauto).
    + revert H. destruct (JsObj.inherited id); handler_eval;
        destruct ra; cbn; intros H; injection H as <- <-; exact Hinv.
  - (* token-remove *)
    open_server σ; revert H; handler_eval; intros H. keyed_open Hinv.
    destruct ra; cbn in H; injection H as <- <-; cbn; keyed_split; keyed_auto.
  - (* token-relabel *)
    open_server σ; revert H; handler_eval.
    destruct (JsObj.get id ts) as [tk|] eqn:Hget; handler_eval; intros H;
      keyed_open Hinv;
      destruct ra; cbn in H; injection H as <- <-; cbn;
        (keyed_split; keyed_auto; eapply keyed_update; eauto).
  - (* clear-board *)
    open_server σ; revert H; handler_eval; intros H. keyed_open Hinv.
    destruct ra; cbn in H; injection H as <- <-; cbn; keyed_split; keyed_auto.
  - (* recording-start *)
    open_server σ; revert H; handler_eval.
    destruct ra, pa; cbn; intros H; injection H as <- <-; try exact Hinv.
    keyed_open Hinv. keyed_split; keyed_auto.
  - (* recording-stop *)
    open_server σ; revert H; handler_eval.
    destruct ra; cbn; intros H; injection H as <- <-; try exact Hinv.
    keyed_open Hinv. keyed_split; keyed_auto.
    apply Forall_app. split; [assumption|].
    constructor; [exact Hr|constructor].
  - (* replay-start *)
    cbn [handle] in H.
    apply on_replay_start_cases in H
      as [[-> _]|(recording & snap & Hact & Hfind & Hsnap & -> & _)];
      [exact Hinv|].
    apply find_Some in Hfind as [Hin _].
    open_server σ. keyed_open Hinv. unfold replayStarted. cbn.
    pose proof Hrs as Hall. rewrite Forall_forall in Hall.
    apply list_elem_of_In in Hin.
    specialize (Hall _ Hin). rewrite Hsnap in Hall.
    keyed_split; keyed_auto.
  - (* replay-stop *)
    cbn [handle] in H. unfold on_replay_stop, bind, get in H.
    destruct (rep_active (rep σ)).
    + destruct (finishReplay σ) as [[] σ1 out1|] eqn:E; [|discriminate].
      injection H as <- <-. eapply keyedInv_finishReplay; eassumption.
    + cbn in H. injection H as <- <-. exact Hinv.
  - (* rename-recording *)
    open_server σ; revert H; handler_eval.
    destruct (find _ rcs); handler_eval; intros H; injection H as <- <-;
      [|exact Hinv].
    keyed_open Hinv. keyed_split; keyed_auto.
    apply (renameFirst_Forall (fun r => keyedOpt (snapshot r)));
      [|exact Hrs]. intros rr Hr'. exact Hr'.
  - (* delete-recording *)
    open_server σ; revert H; handler_eval.
    destruct (findIndex _ rcs); handler_eval; intros H; injection H as <- <-;
      [|exact Hinv].
    keyed_open Hinv. keyed_split; keyed_auto.
  - (* save-preset *)
    open_server σ; revert H; handler_eval. intros H; injection H as <- <-.
    keyed_open Hinv. keyed_split; keyed_auto.
    apply Forall_app. split; [assumption|].
    constructor; [assumption|constructor].
  - (* load-preset *)
    open_server σ; revert H; handler_eval.
    destruct (find _ bps) as [preset|] eqn:Hfind; handler_eval; intros H;
      injection H as <- <-; [|exact Hinv].
    apply find_Some in Hfind as [Hin _]. keyed_open Hinv.
    pose proof Hps as Hall. rewrite Forall_forall in Hall.
    apply list_elem_of_In in Hin. specialize (Hall _ Hin).
    keyed_split; keyed_auto.
  - (* rename-preset *)
    open_server σ; revert H; handler_eval.
    destruct (find _ bps); handler_eval; intros H; injection H as <- <-;
      [|exact Hinv].
    keyed_open Hinv. keyed_split; keyed_auto.
    apply (renameFirst_Forall (fun p => keyed (p_tokens p)));
      [|exact Hps]. intros pp Hp'. exact Hp'.
  - (* delete-preset *)
    open_server σ; revert H; handler_eval.
    destruct (findIndex _ bps); handler_eval; intros H; injection H as <- <-;
      [|exact Hinv].
    keyed_open Hinv. keyed_split; keyed_auto.
  - (* disconnect *)
    open_server σ; revert H; handler_eval.
    destruct (JsObj.get socket us); cbn; intros H; injection H as <- <-;
      exact Hinv.
Qed.

Lemma keyedInv_step a σ σ' out :
  keyedInv σ -> step a σ = Ok tt σ' out -> keyedInv σ'.
Proof.
  destruct a as [socket now msg|h]; [apply keyedInv_handle|].
  intros Hinv H. cbn [step] in H.
  apply fire_cases in H as [[-> _]|(tm & _ & _ & H)]; [exact Hinv|].
  assert (Hinv' : keyedInv (upd_pending
            (List.filter (fun tm => negb (Nat.eqb (tid tm) h))) σ)).
  { open_server σ. exact Hinv. }
  destruct (callback tm); cbn [runCallback] in H.
  - injection H as <- <-. exact Hinv'.
  - injection H as <- <-. exact Hinv'.
  - eapply keyedInv_finishReplay; eassumption.
Qed.

Lemma keyedInv_init : keyedInv init.
Proof.
  unfold keyedInv. cbn.
  repeat split; auto using NoDup_nil_2, Forall_nil_2.
Qed.

Lemma reachable_keyedInv σ : reachable σ -> keyedInv σ.
Proof.
  induction 1 as [|a σ1 σ2 out _ Hinv Hstep|σ presets recs _ Hinv Hp Hr].
  - apply keyedInv_init.
  - eapply keyedInv_step; eassumption.
  - destruct (started_left σ presets recs Hp Hr) as (np & nr & -> & _).
    destruct Hinv as (_ & _ & _ & Hrs & Hps).
    unfold keyedInv. cbn.
    split; [apply keyed_nil|]. split; [exact I|]. split; [exact I|].
    split; assumption.
Qed.

(** ** C6: token ids *)

Lemma nextTokenId_handle socket now msg σ σ' out :
  handle socket now msg σ = Ok tt σ' out ->
  (nextTokenId σ <= nextTokenId σ')%nat.
Proof.
  intros H. destruct msg.
  16:{ apply on_replay_start_cases in H
         as [[-> _]|(rc & sn & _ & _ & _ & -> & _)]; cbn; lia. }
  16:{ apply on_replay_stop_cases in H
         as [(_ & -> & _)|(s & _ & _ & -> & _)]; cbn; lia. }
  all: open_server σ; revert H; handler_eval;
    repeat (case_scrutinee; handler_eval);
    intros H; try discriminate; injection H as <- <-; cbn; lia.
Qed.

Lemma nextTokenId_step a σ σ' out :
  step a σ = Ok tt σ' out -> (nextTokenId σ <= nextTokenId σ')%nat.
Proof.
  destruct a as [socket now msg|h]; [apply nextTokenId_handle|].
  intros H. cbn [step] in H.
  apply fire_cases in H as [[-> _]|(tm & _ & _ & H)]; [lia|].
  destruct (callback tm); cbn [runCallback] in H.
  - injection H as <- <-. destruct σ. cbn. lia.
  - injection H as <- <-. destruct σ. cbn. lia.
  - rewrite finishReplay_eq in H. open_server σ.
    destruct pps; [|discriminate]. injection H as <- <-. cbn. lia.
Qed.

Lemma nextTokenId_run turns : forall σ σ' out,
  run turns σ = Ok tt σ' out -> (nextTokenId σ <= nextTokenId σ')%nat.
Proof.
  induction turns as [|a turns IH]; intros σ σ' out H.
  - cbn in H. unfold ret in H. injection H as <- _. lia.
  - rewrite run_cons in H.
    destruct (step a σ) as [[] σ1 out1|] eqn:E; [|discriminate].
    destruct (run turns σ1) as [[] σ2 out2|] eqn:E2; [|discriminate].
    injection H as <- _. apply nextTokenId_step in E. apply IH in E2. lia.
Qed.

Lemma tokensOk_ids b o :
  tokensOk b o -> NoDup (t_id <$> JsObj.values o).
Proof.
  intros [Hd Hf]. unfold JsObj.keys, JsObj.values in *.
  assert (Heq : t_id <$> o.*2 = o.*1).
  { clear Hd. induction Hf as [|[k v] o [Hid _] _ IH]; cbn in *;
      [reflexivity|]. rewrite Hid, IH. reflexivity. }
  rewrite Heq. exact Hd.
Qed.

(** The second process of the scenario is one the server can be in, and
    so is its state once preset 1 is loaded. *)
Lemma reachable_presetLoaded : reachable presetLoaded.
Proof.
  assert (H1 : reachable firstProcessEnd).
  { eapply (reachable_run firstProcess init); [apply reachable_init|].
    vm_compute. reflexivity. }
  assert (H2 : reachable secondProcess).
  { apply (reachable_restart firstProcessEnd);
      [exact H1|apply left_file|apply left_file]. }
  eapply (reachable_step (Inbound "c2" 50 (LoadPreset 1)) secondProcess);
    [exact H2|].
  vm_compute. reflexivity.
Qed.

(** C6 fails on the code once a process has loaded what an earlier one
    left: the presets are kept across processes, the token counter is
    not.  In the scenario the second process has loaded preset 1, so its
    store holds token A of c1 under ["t1"] while the counter is back at
    1; the token-add of c2 is given ["t1"] again, and the new token
    takes the place of token A in the store. *)
Theorem token_add_reuses_id_after_restart :
  reachable presetLoaded /\
  nextTokenId presetLoaded = 1%nat /\
  tokens (state presetLoaded)
    = [("t1", mkToken "t1" 50 60 "#e74c3c" "A" "circle" "c1")] /\
  exists σ',
    let newToken := mkToken "t1" 20 30 "#3498db" "B" "square" "c2" in
    handle "c2" 400 (TokenAdd tokenU) presetLoaded
      = Ok tt σ' [mkEmit ToAll "token-add" (PToken newToken)] /\
    tokens (state σ') = [("t1", newToken)].
Proof.
  split; [exact reachable_presetLoaded|].
  split; [reflexivity|]. split; [reflexivity|].
  eexists. split; reflexivity.
Qed.

(** Within one process the token counter never goes back, so one process
    issues no token id twice. *)
Lemma token_ids_of_one_process_differ socket now token σ σ' out :
  handle socket now (TokenAdd token) σ = Ok tt σ' out ->
  forall turns σ'' out',
    run turns σ' = Ok tt σ'' out' ->
    tokenIdOf (nextTokenId σ'') <> tokenIdOf (nextTokenId σ).
Proof.
  intros H turns σ'' out' Hrun Heq. apply tokenIdOf_inj in Heq.
  apply nextTokenId_run in Hrun.
  assert (Hn : nextTokenId σ' = S (nextTokenId σ)).
  { revert H. open_server σ. handler_eval.
    destruct ra; cbn; intros H; injection H as <- _; reflexivity. }
  lia.
Qed.

(** ** C8: arrow-done and its confirmation *)

Lemma assignAt_length {A} idx (x : A) l :
  length (Client.assignAt idx x l) = length l.
Proof.
  revert idx. induction l as [|y l IH]; intros [|i]; cbn; auto.
Qed.

Lemma on_arrow_confirmed_length tempId arrow b :
  length (Client.allArrows (Client.on_arrow_confirmed tempId arrow b))
  = length (Client.allArrows b).
Proof.
  unfold Client.on_arrow_confirmed. cbn.
  destruct (findIndex _ (Client.allArrows b)); [apply assignAt_length|auto].
Qed.

(** In every state an arrow-done stores the arrow under the id built
    from the counter and advances the counter; the arrow with that id is
    sent as arrow-done to the connections other than the origin, and the
    origin is sent arrow-confirmed with its temporary id and the stored
    arrow.  The origin is handed no arrow-done, so its client replaces
    its local copy instead of adding one, while every other client adds
    the arrow. *)
Lemma arrow_done_routing σ socket now arrow :
  let saved :=
    mkArrow (arrowIdOf (nextArrowId σ)) (x1 arrow) (y1 arrow) (x2 arrow)
            (y2 arrow) (a_color arrow) (a_width arrow) (a_style arrow)
            socket in
  let out :=
    [mkEmit (ToOthers socket) "arrow-done" (PArrow saved);
     mkEmit (ToSocket socket) "arrow-confirmed"
            (PArrowConfirmed (a_id arrow) saved)] in
  (exists σ',
     handle socket now (ArrowDone arrow) σ = Ok tt σ' out /\
     arrows (state σ') = arrows (state σ) ++ [saved] /\
     nextArrowId σ' = S (nextArrowId σ)) /\
  inbox socket out =
    [mkEmit (ToSocket socket) "arrow-confirmed"
            (PArrowConfirmed (a_id arrow) saved)] /\
  (forall other, other <> socket ->
     inbox other out = [mkEmit (ToOthers socket) "arrow-done" (PArrow saved)]) /\
  (forall b,
     length (Client.allArrows (Client.receiveAll (inbox socket out) b))
     = length (Client.allArrows b)) /\
  (forall other b, other <> socket ->
     Client.allArrows (Client.receiveAll (inbox other out) b)
     = Client.allArrows b ++ [saved]).
Proof.
  intros saved out.
  assert (Hown : inbox socket out =
    [mkEmit (ToSocket socket) "arrow-confirmed"
            (PArrowConfirmed (a_id arrow) saved)]).
  { unfold inbox, out, receives. cbn. rewrite String.eqb_refl. reflexivity. }
  assert (Hother : forall other, other <> socket ->
    inbox other out = [mkEmit (ToOthers socket) "arrow-done" (PArrow saved)]).
  { intros other Hne. unfold inbox, out, receives. cbn.
    assert (E : String.eqb socket other = false)
      by (apply String.eqb_neq; congruence).
    rewrite E. reflexivity. }
  split.
  { open_server σ. handler_eval. destruct ra; cbn; eauto. }
  split; [exact Hown|]. split; [exact Hother|]. split.
  - intros b. rewrite Hown. cbn. apply on_arrow_confirmed_length.
  - intros other b Hne. rewrite (Hother other Hne). reflexivity.
Qed.

(** C8 fails on the code once a process has loaded what an earlier one
    left: the id that arrow-done assigns is not fresh.  In the scenario
    the store of the second process holds the arrow of c1 under ["ar1"]
    while the arrow counter is back at 1.  The arrow-done of c2 is routed
    as the claim says, but the arrow is stored under ["ar1"] as well.
    When c2 then undoes its arrow, the arrow-remove for ["ar1"] makes the
    server drop the first arrow it finds, the one of c1, and keep the
    arrow that c2 drew, while the listener of every client drops both. *)
Theorem arrow_done_reuses_id_after_restart :
  let saved := mkArrow "ar1" 5 5 60 70 "#3498db" 3 "solid" "c2" in
  reachable presetLoaded /\
  nextArrowId presetLoaded = 1%nat /\
  a_id <$> arrows (state presetLoaded) = ["ar1"] /\
  a_socketId <$> arrows (state presetLoaded) = ["c1"] /\
  exists σ' σ'',
    handle "c2" 400 (ArrowDone arrowS) presetLoaded
      = Ok tt σ'
          [mkEmit (ToOthers "c2") "arrow-done" (PArrow saved);
           mkEmit (ToSocket "c2") "arrow-confirmed"
                  (PArrowConfirmed "c2-a1" saved)] /\
    a_id <$> arrows (state σ') = ["ar1"; "ar1"] /\
    handle "c2" 500 (ArrowRemove ["ar1"]) σ'
      = Ok tt σ'' [mkEmit ToAll "arrow-remove" (PIds ["ar1"])] /\
    arrows (state σ'') = [saved] /\
    Canvas.removeListed a_id ["ar1"] (arrows (state σ')) = [].
Proof.
  intros saved.
  split; [exact reachable_presetLoaded|].
  split; [reflexivity|]. split; [reflexivity|]. split; [reflexivity|].
  do 2 eexists. repeat split; reflexivity.
Qed.

(** ** C9: the length of a stored stroke's points *)

(** C9 as stated fails: the server stores a stroke-done payload with a
    single point. *)
Lemma stroke_done_accepts_single_point :
  ~ (forall socket now stroke σ σ' out,
       reachable σ ->
       handle socket now (StrokeDone stroke) σ = Ok tt σ' out ->
       Forall retainable (strokes (state σ'))).
Proof.
  intros H.
  specialize (H "c1" 0 dot init _ _ reachable_init eq_refl).
  cbn in H. apply Forall_cons in H as [H _].
  unfold retainable in H. cbn in H. lia.
Qed.

(** C9, amended.  The server stores every stroke-done payload with the
    points it came with, checking nothing, so the strokes of the store
    all have at least two points after the event exactly when they had
    before and the payload has; the payloads that the client's pointer-up
    listener sends have at least two points, and [renderStroke] draws
    them. *)
Theorem stroke_done_keeps_payload_points socket now σ stroke :
  (exists σ' out saved,
     handle socket now (StrokeDone stroke) σ = Ok tt σ' out /\
     strokes (state σ') = strokes (state σ) ++ [saved] /\
     points saved = points stroke /\
     s_socketId saved = socket /\
     (Forall retainable (strokes (state σ')) <->
      Forall retainable (strokes (state σ)) /\ retainable stroke)) /\
  (forall myId strokeSeq activeTool ownEraseOnly currentPath color size,
     Client.pointerup_stroke_done myId strokeSeq activeTool ownEraseOnly
       currentPath color size = Some stroke ->
     retainable stroke /\ Client.renderStroke_draws stroke = true).
Proof.
  split.
  - exists (upd_state (upd_strokes (fun l => l ++
              [mkStroke (s_id stroke) (points stroke) (s_color stroke)
                        (s_width stroke) (tool stroke) socket]))
             (if rec_active (rec σ)
              then upd_rec (fun r =>
                     mkRec (rec_active r) (rec_start r) (rec_snapshot r)
                       (rec_timeline r ++
                        [mkEntry (now - rec_start r) "stroke-done"
                           (PStroke (mkStroke (s_id stroke) (points stroke)
                              (s_color stroke) (s_width stroke) (tool stroke)
                              socket))])) σ
              else σ)).
    do 2 eexists. split; [|split; [|split; [|split]]].
    + open_server σ. handler_eval. destruct ra; reflexivity.
    + open_server σ. destruct ra; reflexivity.
    + reflexivity.
    + reflexivity.
    + assert (E : strokes (state (upd_state (upd_strokes (fun l => l ++
                [mkStroke (s_id stroke) (points stroke) (s_color stroke)
                          (s_width stroke) (tool stroke) socket]))
               (if rec_active (rec σ)
                then upd_rec (fun r =>
                       mkRec (rec_active r) (rec_start r) (rec_snapshot r)
                         (rec_timeline r ++
                          [mkEntry (now - rec_start r) "stroke-done"
                             (PStroke (mkStroke (s_id stroke) (points stroke)
                                (s_color stroke) (s_width stroke)
                                (tool stroke) socket))])) σ
                else σ)))
              = strokes (state σ) ++
                [mkStroke (s_id stroke) (points stroke) (s_color stroke)
                          (s_width stroke) (tool stroke) socket]).
      { open_server σ. destruct ra; reflexivity. }
      rewrite E, Forall_app, Forall_singleton. reflexivity.
  - intros myId strokeSeq activeTool ownEraseOnly currentPath color size.
    unfold Client.pointerup_stroke_done.
    destruct (Nat.leb_spec 2 (length currentPath));
      destruct (String.eqb activeTool "draw");
      destruct (String.eqb activeTool "erase");
      destruct ownEraseOnly; intros Hs; cbn in Hs; try discriminate;
      injection Hs as <-;
      (split; [exact H|apply Nat.leb_le; exact H]).
Qed.

(** C9, amended, on a two-point path drawn by connection ["c1"]. *)
Lemma stroke_done_keeps_payload_points_witness :
  retainable strokeA /\ Client.renderStroke_draws strokeA = true.
Proof.
  exact (proj2 (stroke_done_keeps_payload_points "c1" 0 init strokeA)
           "c1" 0%nat "draw" false [mkPoint 10 10; mkPoint 20 25]
           "#e74c3c" 3 eq_refl).
Defined.

(** ** How a turn changes the replay engine and the timers *)

(** A handler other than replay-start and replay-stop leaves the replay
    engine and the pending timers alone. *)
Lemma handle_keeps_rep socket now msg σ σ' out :
  handle socket now msg σ = Ok tt σ' out ->
  (forall recId, msg <> ReplayStart recId) -> msg <> ReplayStop ->
  rep σ' = rep σ /\ pending σ' = pending σ.
Proof.
  intros H Hns Hnt.
  destruct msg; try (exfalso; apply Hnt; reflexivity);
    try (exfalso; eapply Hns; reflexivity).
  all: open_server σ; revert H; handler_eval;
    repeat (case_scrutinee; handler_eval);
    intros H; try discriminate; injection H as <- <-; cbn; auto.
Qed.

Lemma clearAll_Forall (P : Timer -> Prop) hs : forall p,
  Forall P p -> Forall P (clearAll hs p).
Proof.
  induction hs as [|h hs IH]; intros p H; cbn; [exact H|].
  apply IH. apply Forall_forall. intros tm Hin.
  apply list_elem_of_In, filter_In in Hin as [Hin _].
  rewrite Forall_forall in H. apply H, list_elem_of_In, Hin.
Qed.

Lemma clearAll_removes hs : forall p,
  Forall (fun tm => ~ In (tid tm) hs) (clearAll hs p).
Proof.
  induction hs as [|h hs IH]; intros p; cbn.
  - apply Forall_forall. intros tm _ [].
  - specialize (IH (List.filter (fun tm => negb (Nat.eqb (tid tm) h)) p)).
    assert (Hh : Forall (fun tm => tid tm <> h)
                   (clearAll hs
                      (List.filter (fun tm => negb (Nat.eqb (tid tm) h)) p))).
    { apply clearAll_Forall. apply Forall_forall. intros tm Hin.
      apply list_elem_of_In, filter_In in Hin as [_ Hne].
      apply negb_true_iff, Nat.eqb_neq in Hne. exact Hne. }
    rewrite Forall_forall in *. intros tm Hin [Heq|Hin'].
    + apply (Hh tm Hin). congruence.
    + apply (IH tm Hin Hin').
Qed.

(** Once the tracked handles are cleared, no re-emission or
    end-of-replay timer is pending. *)
Lemma clearAll_tracked hs p :
  Forall (fun tm => tracked (callback tm) = true -> In (tid tm) hs) p ->
  Forall (fun tm => tracked (callback tm) = false) (clearAll hs p).
Proof.
  intros H.
  pose proof (clearAll_removes hs p) as Hrm.
  pose proof (clearAll_Forall _ hs p H) as Hkeep.
  rewrite Forall_forall in *. intros tm Hin.
  destruct (tracked (callback tm)) eqn:E; [|reflexivity].
  exfalso. apply (Hrm tm Hin). apply (Hkeep tm Hin). exact E.
Qed.

Lemma entryTimers_tids now tl : forall h,
  Forall (fun tm => In (tid tm) (seq h (length tl))) (entryTimers now h tl).
Proof.
  induction tl as [|e tl IH]; intros h; cbn; constructor.
  - cbn. auto.
  - eapply Forall_impl; [apply IH|]. cbn. auto.
Qed.

Lemma filter_Forall {A} (P : A -> Prop) f (l : list A) :
  Forall P l -> Forall P (List.filter f l).
Proof.
  intros H. apply Forall_forall. intros x Hin.
  apply list_elem_of_In, filter_In in Hin as [Hin _].
  rewrite Forall_forall in H. apply H, list_elem_of_In, Hin.
Qed.

Lemma replayInv_init : replayInv init.
Proof.
  unfold replayInv. cbn. split; [discriminate|]. split; [reflexivity|].
  constructor.
Qed.

Lemma replayInv_replayStarted now recId recording snap σ :
  replayInv σ -> rep_active (rep σ) = false ->
  replayInv (replayStarted now recId recording snap σ).
Proof.
  intros (_ & Hidle & Hpend) Hact. specialize (Hidle Hact).
  unfold replayInv, replayStarted. cbn.
  split; [discriminate|]. split; [discriminate|].
  apply Forall_app. split.
  - eapply Forall_impl; [exact Hpend|]. cbn. intros tm H Htr.
    rewrite Hidle in H. destruct (H Htr).
  - constructor; [discriminate|]. apply Forall_app. split.
    + eapply Forall_impl; [apply entryTimers_tids|]. cbn. intros tm H _.
      apply in_or_app. left. exact H.
    + constructor; [|constructor]. cbn. intros _.
      apply in_or_app. right. cbn. auto.
Qed.

Lemma replayInv_replayFinished s σ :
  replayInv σ -> replayInv (replayFinished s σ).
Proof.
  intros (_ & _ & Hpend). unfold replayInv, replayFinished. cbn.
  split; [discriminate|]. split; [reflexivity|].
  eapply Forall_impl; [apply clearAll_tracked, Hpend|].
  cbn. intros tm -> [=].
Qed.

Lemma replayInv_unpend σ f :
  replayInv σ -> replayInv (upd_pending (List.filter f) σ).
Proof.
  intros (H1 & H2 & H3). open_server σ. unfold replayInv. cbn.
  split; [exact H1|]. split; [exact H2|]. apply filter_Forall, H3.
Qed.

Lemma replayInv_step a σ σ' out :
  replayInv σ -> step a σ = Ok tt σ' out -> replayInv σ'.
Proof.
  intros Hinv H. destruct a as [socket now msg|h]; cbn [step] in H.
  - destruct msg eqn:Emsg.
    16:{ apply on_replay_start_cases in H
           as [[-> _]|(rc & sn & Hact & _ & _ & -> & _)]; [exact Hinv|].
         apply replayInv_replayStarted; assumption. }
    16:{ apply on_replay_stop_cases in H
           as [(_ & -> & _)|(s & _ & _ & -> & _)]; [exact Hinv|].
         apply replayInv_replayFinished, Hinv. }
    all: apply handle_keeps_rep in H as [Hrep Hpend]; try congruence;
      unfold replayInv in *; rewrite Hrep, Hpend; exact Hinv.
  - apply fire_cases in H as [[-> _]|(tm & _ & _ & H)]; [exact Hinv|].
    pose proof (replayInv_unpend σ
                  (fun tm => negb (Nat.eqb (tid tm) h)) Hinv) as Hinv'.
    destruct (callback tm); cbn [runCallback] in H.
    + injection H as <- <-. exact Hinv'.
    + injection H as <- <-. exact Hinv'.
    + rewrite finishReplay_eq in H.
      destruct (preSnap _) as [s|]; [|discriminate].
      injection H as <- <-. apply replayInv_replayFinished, Hinv'.
Qed.

Lemma reachable_replayInv σ : reachable σ -> replayInv σ.
Proof.
  induction 1 as [|a σ1 σ2 out _ Hinv Hstep|σ presets recs _ _ Hp Hr].
  - apply replayInv_init.
  - eapply replayInv_step; eassumption.
  - destruct (started_left σ presets recs Hp Hr) as (np & nr & -> & _).
    unfold replayInv. cbn. split; [discriminate|]. split; [reflexivity|].
    constructor.
Qed.

(** ** At most one replay in flight *)

Lemma filter_filter_length {A} (p q : A -> bool) (l : list A) :
  (length (List.filter p (List.filter q l)) <= length (List.filter p l))%nat.
Proof.
  induction l as [|x l IH]; cbn; [lia|].
  destruct (q x), (p x) eqn:E; cbn; rewrite ?E; cbn; lia.
Qed.

Lemma untracked_no_end (l : list Timer) :
  Forall (fun tm => tracked (callback tm) = false) l ->
  List.filter isEnd l = [].
Proof.
  induction 1 as [|tm l H _ IH]; cbn; [reflexivity|].
  unfold isEnd at 1. destruct (callback tm); try discriminate; exact IH.
Qed.

Lemma entryTimers_no_end now tl : forall h,
  List.filter isEnd (entryTimers now h tl) = [].
Proof. induction tl as [|e tl IH]; intros h; cbn; auto. Qed.

(** In every reachable state at most one end-of-replay timer is pending,
    and none while the engine is idle. *)
Lemma one_replay_in_flight σ :
  reachable σ ->
  (replaysInFlight σ <= 1)%nat /\
  (rep_active (rep σ) = false -> replaysInFlight σ = 0%nat).
Proof.
  induction 1 as [|a σ σ' out Hreach [Hle Hidle] Hstep
                  |σ presets recs _ _ Hp Hr]; [cbn; auto| |].
  2:{ destruct (started_left σ presets recs Hp Hr) as (np & nr & -> & _).
      cbn. auto. }
  pose proof (reachable_replayInv _ Hreach) as Hinv.
  assert (Hfin : forall s τ, replayInv τ ->
            replaysInFlight (replayFinished s τ) = 0%nat).
  { intros s τ (_ & _ & Hp). unfold replaysInFlight, replayFinished. cbn.
    rewrite untracked_no_end; [reflexivity|]. apply clearAll_tracked, Hp. }
  destruct a as [socket now msg|h]; cbn [step] in Hstep.
  - destruct msg eqn:Emsg.
    16:{ apply on_replay_start_cases in Hstep
           as [[-> _]|(rc & sn & Hact & _ & _ & -> & _)]; [auto|].
         specialize (Hidle Hact). unfold replaysInFlight in *.
         unfold replayStarted. cbn.
         rewrite List.filter_app, length_app. cbn.
         rewrite List.filter_app, entryTimers_no_end. cbn.
         split; [lia|discriminate]. }
    16:{ apply on_replay_stop_cases in Hstep
           as [(_ & -> & _)|(s & _ & _ & -> & _)]; [auto|].
         rewrite (Hfin s σ Hinv). auto. }
    all: apply handle_keeps_rep in Hstep as [Hrep Hpend]; try congruence;
      unfold replaysInFlight in *; rewrite Hrep, Hpend; auto.
  - apply fire_cases in Hstep as [[-> _]|(tm & _ & _ & H)]; [auto|].
    pose proof (replayInv_unpend σ
                  (fun tm => negb (Nat.eqb (tid tm) h)) Hinv) as Hinv'.
    assert (Hdrop : (replaysInFlight (upd_pending
                       (List.filter (fun tm => negb (Nat.eqb (tid tm) h))) σ)
                     <= replaysInFlight σ)%nat).
    { destruct σ. apply filter_filter_length. }
    assert (Hrep : rep (upd_pending
                      (List.filter (fun tm => negb (Nat.eqb (tid tm) h))) σ)
                   = rep σ) by (destruct σ; reflexivity).
    destruct (callback tm); cbn [runCallback] in H.
    + injection H as <- <-. rewrite Hrep. split; [lia|].
      intros Hi. specialize (Hidle Hi). lia.
    + injection H as <- <-. rewrite Hrep. split; [lia|].
      intros Hi. specialize (Hidle Hi). lia.
    + rewrite finishReplay_eq in H.
      destruct (preSnap _) as [s|]; [|discriminate].
      injection H as <- <-. rewrite (Hfin s _ Hinv'). auto.
Qed.

(** ** The end-of-replay timer *)

Lemma handle_keeps_nextTimer socket now msg σ σ' out :
  handle socket now msg σ = Ok tt σ' out ->
  (forall recId, msg <> ReplayStart recId) ->
  nextTimer σ' = nextTimer σ.
Proof.
  intros H Hns.
  destruct msg; try (exfalso; eapply Hns; reflexivity).
  16:{ apply on_replay_stop_cases in H
         as [(_ & -> & _)|(s & _ & _ & -> & _)]; reflexivity. }
  all: open_server σ; revert H; handler_eval;
    repeat (case_scrutinee; handler_eval);
    intros H; try discriminate; injection H as <- <-; cbn; auto.
Qed.

Lemma filter_tids_NoDup f (l : list Timer) :
  NoDup (tid <$> l) -> NoDup (tid <$> List.filter f l).
Proof.
  induction l as [|tm l IH]; cbn; [auto|].
  rewrite NoDup_cons. intros [Hn Hd]. destruct (f tm); cbn; [|auto].
  rewrite NoDup_cons. split; [|auto].
  intros Hin. apply Hn. apply list_elem_of_fmap in Hin as (tm' & -> & Hin).
  apply list_elem_of_fmap_2.
  apply list_elem_of_In, filter_In in Hin as [Hin _].
  apply list_elem_of_In, Hin.
Qed.

Lemma clearAll_tids_NoDup hs : forall l,
  NoDup (tid <$> l) -> NoDup (tid <$> clearAll hs l).
Proof.
  induction hs as [|h hs IH]; intros l H; cbn; [exact H|].
  apply IH, filter_tids_NoDup, H.
Qed.

Lemma entryTimers_tid_seq now tl : forall h,
  tid <$> entryTimers now h tl = seq h (length tl).
Proof.
  induction tl as [|e tl IH]; intros h; cbn; [reflexivity|].
  rewrite IH. reflexivity.
Qed.

Lemma find_NoDup (l : list Timer) tm :
  NoDup (tid <$> l) -> In tm l ->
  find (fun x => Nat.eqb (tid x) (tid tm)) l = Some tm.
Proof.
  induction l as [|x l IH]; cbn; [intros _ []|].
  rewrite NoDup_cons. intros [Hn Hd] [->|Hin].
  - rewrite Nat.eqb_refl. reflexivity.
  - destruct (Nat.eqb (tid x) (tid tm)) eqn:E; [|auto].
    apply Nat.eqb_eq in E. exfalso. apply Hn. rewrite E.
    apply list_elem_of_fmap_2, list_elem_of_In, Hin.
Qed.

Lemma timersInv_init : timersInv init.
Proof.
  unfold timersInv. cbn. split; [apply NoDup_nil_2|].
  split; [constructor|discriminate].
Qed.

Lemma timersInv_replayStarted now recId recording snap σ :
  timersInv σ -> timersInv (replayStarted now recId recording snap σ).
Proof.
  intros (Hd & Hlt & _). unfold timersInv, replayStarted. cbn.
  split; [|split].
  - rewrite fmap_app. cbn. rewrite fmap_app, entryTimers_tid_seq. cbn.
    apply NoDup_app. split; [exact Hd|]. split.
    + intros h Hin Hnew.
      apply list_elem_of_fmap in Hin as (tm & -> & Hin).
      rewrite Forall_forall in Hlt. specialize (Hlt tm Hin).
      apply elem_of_cons in Hnew as [Heq|Hnew]; [lia|].
      apply elem_of_app in Hnew as [Hnew|Hnew].
      * apply list_elem_of_In, in_seq in Hnew. lia.
      * apply list_elem_of_singleton in Hnew. lia.
    + assert (E : nextTimer σ
                    :: seq (S (nextTimer σ)) (length (timeline recording))
                       ++ [S (nextTimer σ + length (timeline recording))]
                  = seq (nextTimer σ) (S (length (timeline recording) + 1))).
      { cbn. rewrite seq_app. reflexivity. }
      rewrite E. apply NoDup_ListNoDup, seq_NoDup.
  - apply Forall_app. split.
    + eapply Forall_impl; [exact Hlt|]. cbn. lia.
    + constructor; [cbn; lia|]. apply Forall_app. split.
      * eapply Forall_impl; [apply entryTimers_tids|]. cbn.
        intros tm Hin. apply in_seq in Hin. lia.
      * constructor; [cbn; lia|constructor].
  - intros _.
    exists (mkTimer (S (nextTimer σ) + length (timeline recording)) now
              (duration recording + 900) CbFinishReplay).
    split; [|reflexivity].
    apply in_or_app. right. right. apply in_or_app. right. left. reflexivity.
Qed.

Lemma timersInv_replayFinished s σ :
  NoDup (tid <$> pending σ) ->
  Forall (fun tm => (tid tm < nextTimer σ)%nat) (pending σ) ->
  timersInv (replayFinished s σ).
Proof.
  intros Hd Hlt. unfold timersInv, replayFinished. cbn.
  split; [apply clearAll_tids_NoDup, Hd|].
  split; [apply clearAll_Forall, Hlt|discriminate].
Qed.

Lemma timersInv_step a σ σ' out :
  timersInv σ -> step a σ = Ok tt σ' out -> timersInv σ'.
Proof.
  intros Hinv H. destruct a as [socket now msg|h]; cbn [step] in H.
  - destruct msg eqn:Emsg.
    16:{ apply on_replay_start_cases in H
           as [[-> _]|(rc & sn & Hact & _ & _ & -> & _)]; [exact Hinv|].
         apply timersInv_replayStarted; assumption. }
    16:{ apply on_replay_stop_cases in H
           as [(_ & -> & _)|(s & _ & _ & -> & _)]; [exact Hinv|].
         destruct Hinv as (Hd & Hlt & _).
         apply timersInv_replayFinished; assumption. }
    all: pose proof (handle_keeps_nextTimer _ _ _ _ _ _ H) as Hnt;
      apply handle_keeps_rep in H as [Hrep Hpend]; try congruence;
      unfold timersInv in *; rewrite Hrep, Hpend, Hnt by congruence;
      exact Hinv.
  - unfold fire, bind, get in H.
    destruct (find _ (pending σ)) as [tm|] eqn:Hfind.
    2:{ cbn in H. injection H as <- <-. exact Hinv. }
    unfold modify in H.
    assert (Hinv' : NoDup (tid <$> List.filter
                      (fun tm => negb (Nat.eqb (tid tm) h)) (pending σ)) /\
                    Forall (fun tm => (tid tm < nextTimer σ)%nat)
                      (List.filter (fun tm => negb (Nat.eqb (tid tm) h))
                         (pending σ))).
    { destruct Hinv as (Hd & Hlt & _).
      split; [apply filter_tids_NoDup, Hd|apply filter_Forall, Hlt]. }
    assert (Hkeep : callback tm <> CbFinishReplay ->
              rep_active (rep σ) = true ->
              exists tm', In tm' (List.filter
                            (fun tm => negb (Nat.eqb (tid tm) h)) (pending σ))
                          /\ callback tm' = CbFinishReplay).
    { intros Hcb Hact. destruct Hinv as (Hd & _ & Hend).
      destruct (Hend Hact) as (tmE & HinE & HcbE).
      exists tmE. split; [|exact HcbE]. apply filter_In. split; [exact HinE|].
      apply negb_true_iff, Nat.eqb_neq. intros Heq.
      pose proof (find_NoDup _ _ Hd HinE) as HfE. rewrite Heq, Hfind in HfE.
      congruence. }
    destruct (callback tm) eqn:Hcb; cbn [runCallback] in H.
    + cbn in H. injection H as <- <-. open_server σ.
      destruct Hinv' as [H1 H2]. split; [exact H1|]. split; [exact H2|].
      apply Hkeep. discriminate.
    + cbn in H. injection H as <- <-. open_server σ.
      destruct Hinv' as [H1 H2]. split; [exact H1|]. split; [exact H2|].
      apply Hkeep. discriminate.
    + rewrite finishReplay_eq in H.
      destruct (preSnap _) as [s|]; [|discriminate].
      cbn in H. injection H as <- <-. destruct Hinv' as [H1 H2].
      apply timersInv_replayFinished; destruct σ; assumption.
Qed.

Lemma reachable_timersInv σ : reachable σ -> timersInv σ.
Proof.
  induction 1 as [|a σ1 σ2 out _ Hinv Hstep|σ presets recs _ _ Hp Hr].
  - apply timersInv_init.
  - eapply timersInv_step; eassumption.
  - destruct (started_left σ presets recs Hp Hr) as (np & nr & -> & _).
    unfold timersInv. cbn. split; [apply NoDup_nil_2|].
    split; [constructor|discriminate].
Qed.

(** While a replay is active its end is scheduled: some pending handle
    is that of the end-of-replay timer. *)
Lemma end_of_replay_is_scheduled σ :
  reachable σ -> rep_active (rep σ) = true ->
  exists h, endsReplay σ (Fire h).
Proof.
  intros Hreach Hact.
  destruct (reachable_timersInv _ Hreach) as (Hd & _ & Hend).
  destruct (Hend Hact) as (tm & Hin & Hcb).
  exists (tid tm). right. exists (tid tm), tm.
  split; [reflexivity|]. split; [apply find_NoDup; assumption|exact Hcb].
Qed.

(** ** C2: state conflicts *)

(** recording-start is refused while a recording or a replay is active,
    and replay-start is refused while a replay is active. *)
Lemma state_conflict_guards socket now σ :
  (rec_active (rec σ) || rep_active (rep σ) = true ->
   handle socket now RecordingStart σ = Ok tt σ []) /\
  (rep_active (rep σ) = true ->
   forall recId, handle socket now (ReplayStart recId) σ = Ok tt σ []).
Proof.
  open_server σ. split.
  - intros H. handler_eval. rewrite H. reflexivity.
  - intros -> recId. reflexivity.
Qed.

(** C2 fails on the code: replay-start does not look at [rec.active].
    After one recording has been saved and a second one started, a
    replay-start of the saved recording is accepted: the replay becomes
    active while the recording is still active, the store is swapped for
    the recording's snapshot, and messages go out. *)
Theorem replay_start_accepted_while_recording :
  exists σ4 out4 σ5 out5,
    run [Inbound "c1" 1000 RecordingStart;
         Inbound "c1" 1200 (StrokeDone strokeA);
         Inbound "c1" 1900 RecordingStop;
         Inbound "c1" 2000 RecordingStart] init = Ok tt σ4 out4 /\
    rec_active (rec σ4) = true /\ rep_active (rep σ4) = false /\
    handle "c2" 2500 (ReplayStart 1) σ4 = Ok tt σ5 out5 /\
    rec_active (rec σ5) = true /\ rep_active (rep σ5) = true /\
    store σ5 <> store σ4 /\
    out5 = [mkEmit ToAll "clear-board" PNone;
            mkEmit ToAll "tokens-cleared" PNone;
            mkEmit ToAll "replay-started" (PReplayStarted 200 1)].
Proof.
  do 4 eexists. split; [reflexivity|]. cbn.
  split; [reflexivity|]. split; [reflexivity|].
  split; [reflexivity|]. cbn.
  split; [reflexivity|]. split; [reflexivity|]. split; [discriminate|].
  reflexivity.
Qed.

(** ** C1: how a replay ends *)

Lemma store_replayFinished s σ : store (replayFinished s σ) = s.
Proof. destruct s. reflexivity. Qed.

(** What a turn can do to the replay engine: leave it as it is, finish
    the replay, or start one from an idle engine. *)
Lemma rep_turn a σ σ' out :
  step a σ = Ok tt σ' out ->
  rep σ' = rep σ \/
  rep_active (rep σ') = false \/
  (rep_active (rep σ) = false /\ preSnap (rep σ') = Some (store σ) /\
   exists socket now recId, a = Inbound socket now (ReplayStart recId)).
Proof.
  intros H. destruct a as [socket now msg|h]; cbn [step] in H.
  - destruct msg eqn:Emsg.
    16:{ apply on_replay_start_cases in H
           as [[-> _]|(rc & sn & Hact & _ & _ & -> & _)]; [auto|].
         right. right. split; [exact Hact|]. split; [reflexivity|]. eauto. }
    16:{ apply on_replay_stop_cases in H
           as [(_ & -> & _)|(s & _ & _ & -> & _)]; auto. }
    all: apply handle_keeps_rep in H as [Hrep _]; try congruence; auto.
  - apply fire_cases in H as [[-> _]|(tm & _ & _ & H)]; [auto|].
    destruct (callback tm); cbn [runCallback] in H.
    + injection H as <- <-. left. destruct σ. reflexivity.
    + injection H as <- <-. left. destruct σ. reflexivity.
    + rewrite finishReplay_eq in H.
      destruct (preSnap _) as [s|]; [|discriminate].
      injection H as <- <-. auto.
Qed.

Lemma replayingSince_preSnap s0 σ :
  replayingSince s0 σ ->
  reachable σ /\ rep_active (rep σ) = true /\ preSnap (rep σ) = Some s0.
Proof.
  induction 1 as [σ0 socket now recId σ1 out Hreach Hidle Hs0 Hrun Hact
                 |σ a σ' out Hrs (Hreach & Hact & Hpre) Hstep Hact'].
  - split; [eapply (reachable_step (Inbound socket now (ReplayStart recId)));
            eassumption|].
    split; [exact Hact|].
    apply on_replay_start_cases in Hrun
      as [[-> _]|(rc & sn & _ & _ & _ & -> & _)]; [congruence|].
    cbn. congruence.
  - split; [eapply reachable_step; eassumption|]. split; [exact Hact'|].
    destruct (rep_turn _ _ _ _ Hstep) as [Hrep|[Hoff|(Hidle & _)]];
      congruence.
Qed.

(** Every reachable state with an active replay is covered by
    [replayingSince]. *)
Lemma reachable_replaying σ :
  reachable σ -> rep_active (rep σ) = true -> exists s0, replayingSince s0 σ.
Proof.
  induction 1 as [|a σ σ' out Hreach IH Hstep|σ presets recs _ _ Hp Hr].
  - discriminate.
  - intros Hact'.
    destruct (rep_turn _ _ _ _ Hstep)
      as [Hrep|[Hoff|(Hidle & _ & socket & now & recId & ->)]].
    + assert (Hact : rep_active (rep σ) = true) by congruence.
      destruct (IH Hact) as [s0 Hs0].
      exists s0. eapply rs_turn; eassumption.
    + congruence.
    + exists (store σ).
      exact (rs_start (store σ) σ socket now recId σ' out
               Hreach Hidle eq_refl Hstep Hact').
  - destruct (started_left σ presets recs Hp Hr) as (np & nr & -> & _).
    discriminate.
Qed.

(** C1.  In every reachable state with an active replay there is a
    pre-replay store, the store of the state in which that replay was
    started; the end of the replay is scheduled; and each way of ending
    the replay there, a replay-stop or the end-of-replay timer firing,
    succeeds with this outcome: the store is exactly the pre-replay
    store, the messages sent to every connection are clear-board,
    tokens-cleared, replay-restore carrying the strokes, the arrows and
    the tokens of the pre-replay store, and replay-done, the engine is
    idle and tracks no handle, and no re-emission or end-of-replay timer
    is left pending. *)
Theorem replay_end_restores_pre_replay_store σ :
  reachable σ ->
  rep_active (rep σ) = true ->
  exists s0,
    replayingSince s0 σ /\
    (exists h, endsReplay σ (Fire h)) /\
    forall a,
      endsReplay σ a ->
      exists σ',
        step a σ
          = Ok tt σ'
              [mkEmit ToAll "clear-board" PNone;
               mkEmit ToAll "tokens-cleared" PNone;
               mkEmit ToAll "replay-restore"
                 (PBoard (snap_strokes s0) (snap_arrows s0)
                         (JsObj.values (snap_tokens s0)));
               mkEmit ToAll "replay-done" PNone] /\
        store σ' = s0 /\
        rep_active (rep σ') = false /\
        rep_timers (rep σ') = [] /\
        Forall (fun tm => tracked (callback tm) = false) (pending σ').
Proof.
  intros Hreach Hact.
  destruct (reachable_replaying σ Hreach Hact) as [s0 Hs0].
  exists s0. split; [exact Hs0|].
  split; [apply end_of_replay_is_scheduled; assumption|].
  destruct (replayingSince_preSnap _ _ Hs0) as (_ & _ & Hpre).
  pose proof (reachable_replayInv _ Hreach) as Hinv.
  intros a [(socket & now & ->)|(h & tm & -> & Hfind & Hcb)].
  - exists (replayFinished s0 σ). cbn [step handle].
    unfold on_replay_stop, bind, get. rewrite Hact, finishReplay_eq, Hpre.
    split; [reflexivity|]. split; [apply store_replayFinished|].
    split; [reflexivity|]. split; [reflexivity|].
    destruct Hinv as (_ & _ & Hpend). cbn. apply clearAll_tracked, Hpend.
  - pose proof (replayInv_unpend σ
                  (fun tm => negb (Nat.eqb (tid tm) h)) Hinv) as Hinv'.
    exists (replayFinished s0
              (upd_pending
                 (List.filter (fun tm => negb (Nat.eqb (tid tm) h))) σ)).
    cbn [step]. unfold fire, bind, get. rewrite Hfind. unfold modify.
    rewrite Hcb. cbn [runCallback]. rewrite finishReplay_eq.
    assert (Hpre' : preSnap (rep (upd_pending
              (List.filter (fun tm => negb (Nat.eqb (tid tm) h))) σ))
            = Some s0) by (destruct σ; exact Hpre).
    rewrite Hpre'. split; [reflexivity|].
    split; [apply store_replayFinished|].
    split; [reflexivity|]. split; [reflexivity|].
    destruct Hinv' as (_ & _ & Hpend). cbn. apply clearAll_tracked, Hpend.
Qed.

(** C1 on [midReplay], where the pre-replay store holds strokes A and B
    and the recording's snapshot is empty. *)
Lemma replay_end_restores_pre_replay_store_witness :
  exists s0,
    replayingSince s0 midReplay /\
    (exists h, endsReplay midReplay (Fire h)) /\
    forall a,
      endsReplay midReplay a ->
      exists σ',
        step a midReplay
          = Ok tt σ'
              [mkEmit ToAll "clear-board" PNone;
               mkEmit ToAll "tokens-cleared" PNone;
               mkEmit ToAll "replay-restore"
                 (PBoard (snap_strokes s0) (snap_arrows s0)
                         (JsObj.values (snap_tokens s0)));
               mkEmit ToAll "replay-done" PNone] /\
        store σ' = s0 /\
        rep_active (rep σ') = false /\
        rep_timers (rep σ') = [] /\
        Forall (fun tm => tracked (callback tm) = false) (pending σ').
Proof.
  apply (replay_end_restores_pre_replay_store midReplay).
  - eapply (reachable_run replayOfRecording1 init); [apply reachable_init|].
    vm_compute. reflexivity.
  - vm_compute. reflexivity.
Defined.

(** Stopping [midReplay] brings back strokes A and B, which the
    recording's empty snapshot does not hold; the delayed replay-init,
    whose handle is not among [rep.timers], stays pending. *)
Example stop_mid_replay :
  exists σ' out,
    step (Inbound "c2" 3100 ReplayStop) midReplay = Ok tt σ' out /\
    strokes (state midReplay) = [] /\
    map s_id (strokes (state σ')) = ["c1-1"; "c1-2"] /\
    map callback (pending σ') = [CbReplayInit (mkSnapshot [] [] [])].
Proof. do 2 eexists. vm_compute. auto. Qed.

(** The end-of-replay timer of [midReplay] is pending under handle 2;
    when it fires the same strokes come back. *)
Example end_of_replay_timer_fires :
  endsReplay midReplay (Fire 2) /\
  exists σ' out,
    step (Fire 2) midReplay = Ok tt σ' out /\
    map s_id (strokes (state σ')) = ["c1-1"; "c1-2"] /\
    map e_event out
      = ["clear-board"; "tokens-cleared"; "replay-restore"; "replay-done"].
Proof.
  split.
  - right. exists 2%nat. eexists. split; [reflexivity|].
    split; [vm_compute; reflexivity|reflexivity].
  - do 2 eexists. vm_compute. auto.
Qed.

(** ** C3: what a replay does to the store *)

(** C3 as stated fails.  Recording 1 has an empty base snapshot and a
    timeline holding the stroke-done of stroke A; applying that timeline
    to the base gives one stroke.  When its replay runs, the store has no
    stroke after the entry's timer has fired, and holds the two pre-replay
    strokes once the replay has ended. *)
Lemma replay_does_not_apply_timeline :
  exists recording base σmid outmid σend outend,
    recordings midReplay = [recording] /\
    snapshot recording = Some base /\
    length (applyTimeline (timeline recording) (snap_strokes base)) = 1%nat /\
    run [Fire 0; Fire 1] midReplay = Ok tt σmid outmid /\
    rep_active (rep σmid) = true /\
    strokes (state σmid) = [] /\
    strokes (state σmid)
      <> applyTimeline (timeline recording) (snap_strokes base) /\
    run replayTimers midReplay = Ok tt σend outend /\
    rep_active (rep σend) = false /\ pending σend = [] /\
    length (strokes (state σend)) = 2%nat /\
    strokes (state σend)
      <> applyTimeline (timeline recording) (snap_strokes base).
Proof.
  do 6 eexists. vm_compute.
  repeat (split; [reflexivity || discriminate|]). discriminate.
Qed.

Lemma store_replayStarted now recId recording snap σ :
  store (replayStarted now recId recording snap σ) = snap.
Proof. destruct snap. reflexivity. Qed.

(** While only timers fire, the store is the recording's snapshot as long
    as the replay is active and the pre-replay store afterwards. *)
Lemma fire_keeps_store (pre snap : Snapshot) h τ :
  preSnap (rep τ) = Some pre ->
  store τ = (if rep_active (rep τ) then snap else pre) ->
  exists τ' out,
    fire h τ = Ok tt τ' out /\
    preSnap (rep τ') = Some pre /\
    store τ' = (if rep_active (rep τ') then snap else pre).
Proof.
  intros Hpre Hst. unfold fire, bind, get.
  destruct (find _ (pending τ)) as [tm|].
  2:{ cbn. eauto. }
  unfold modify. destruct (callback tm); cbn [runCallback].
  - do 2 eexists. split; [reflexivity|]. destruct τ. auto.
  - do 2 eexists. split; [reflexivity|]. destruct τ. auto.
  - rewrite finishReplay_eq.
    assert (E : preSnap (rep (upd_pending
              (List.filter (fun tm => negb (Nat.eqb (tid tm) h))) τ))
            = Some pre) by (destruct τ; exact Hpre).
    rewrite E. do 2 eexists. split; [reflexivity|].
    split; [reflexivity|]. apply store_replayFinished.
Qed.

Lemma fires_keep_store (pre snap : Snapshot) hs : forall τ,
  preSnap (rep τ) = Some pre ->
  store τ = (if rep_active (rep τ) then snap else pre) ->
  exists τ' out,
    run (map Fire hs) τ = Ok tt τ' out /\
    store τ' = (if rep_active (rep τ') then snap else pre).
Proof.
  induction hs as [|h hs IH]; intros τ Hpre Hst.
  - exists τ, []. auto.
  - destruct (fire_keeps_store pre snap h τ Hpre Hst)
      as (τ1 & out1 & Hfire & Hpre1 & Hst1).
    destruct (IH τ1 Hpre1 Hst1) as (τ2 & out2 & Hrun & Hst2).
    exists τ2, (out1 ++ out2). split; [|exact Hst2].
    cbn [map]. rewrite run_cons. cbn [step]. rewrite Hfire, Hrun. reflexivity.
Qed.

(** C3, amended.  An accepted replay-start puts the recording's base
    snapshot in the store and schedules, besides the delayed replay-init
    and the end of the replay, one timer per timeline entry that
    re-broadcasts the entry to every connection and leaves the store as
    it is.  Whichever timers then fire, the stroke collection of the
    store is the base snapshot's while the replay is active and the
    pre-replay one once it has ended: the recorded operations are never
    applied to the server's store. *)
Theorem replay_keeps_store_on_snapshots socket now recId σ recording snap :
  rep_active (rep σ) = false ->
  find (fun r => Nat.eqb (r_id r) recId) (recordings σ) = Some recording ->
  snapshot recording = Some snap ->
  exists σ1 out1,
    handle socket now (ReplayStart recId) σ = Ok tt σ1 out1 /\
    store σ1 = snap /\
    pending σ1 =
      pending σ
        ++ [mkTimer (nextTimer σ) now 150 (CbReplayInit snap)]
        ++ entryTimers now (S (nextTimer σ)) (timeline recording)
        ++ [mkTimer (S (nextTimer σ) + length (timeline recording)) now
                    (duration recording + 900) CbFinishReplay] /\
    (forall ev d τ, runCallback (CbEmit ev d) τ = Ok tt τ [mkEmit ToAll ev d]) /\
    forall hs, exists σ2 out2,
      run (map Fire hs) σ1 = Ok tt σ2 out2 /\
      store σ2 = (if rep_active (rep σ2) then snap else store σ) /\
      strokes (state σ2) =
        (if rep_active (rep σ2) then snap_strokes snap else strokes (state σ)).
Proof.
  intros Hact Hfind Hsnap. do 2 eexists.
  split; [exact (on_replay_start_accepts now recId σ recording snap
                   Hact Hfind Hsnap)|].
  split; [apply store_replayStarted|]. split; [reflexivity|].
  split; [reflexivity|].
  intros hs.
  destruct (fires_keep_store (store σ) snap hs
              (replayStarted now recId recording snap σ))
    as (σ2 & out2 & Hrun & Hst).
  - reflexivity.
  - cbn. apply store_replayStarted.
  - exists σ2, out2. split; [exact Hrun|]. split; [exact Hst|].
    change (strokes (state σ2)) with (snap_strokes (store σ2)).
    rewrite Hst. destruct (rep_active (rep σ2)); reflexivity.
Qed.

(** C3, amended, on the session above: after stroke B, the replay of
    recording 1 starts from the state reached before the replay-start. *)
Lemma replay_keeps_store_on_snapshots_witness :
  let σ := match run (take 4 replayOfRecording1) init with
           | Ok _ σ _ => σ
           | Throw => init
           end in
  exists σ1 out1,
    handle "c2" 3000 (ReplayStart 1) σ = Ok tt σ1 out1 /\
    store σ1 = mkSnapshot [] [] [] /\
    forall hs, exists σ2 out2,
      run (map Fire hs) σ1 = Ok tt σ2 out2 /\
      strokes (state σ2) =
        (if rep_active (rep σ2) then [] else strokes (state σ)).
Proof.
  intros σ.
  destruct (replay_keeps_store_on_snapshots "c2" 3000 1%nat σ
              (mkRecording 1 (DefaultRecording 1900) 1900 200 1
                 (Some (mkSnapshot [] [] []))
                 [mkEntry 200 "stroke-done" (PStroke strokeA)])
              (mkSnapshot [] [] []) eq_refl eq_refl eq_refl)
    as (σ1 & out1 & Hrun & Hst & _ & _ & Hfires).
  exists σ1, out1. split; [exact Hrun|]. split; [exact Hst|].
  intros hs. destruct (Hfires hs) as (σ2 & out2 & Hr & _ & Hs).
  exists σ2, out2. split; [exact Hr|exact Hs].
Defined.

(** * Further properties *)

(** ** What board events leave alone *)

Lemma handle_boardEvent socket now msg σ σ' out :
  boardEvent msg = true ->
  handle socket now msg σ = Ok tt σ' out ->
  recordings σ' = recordings σ /\ nextRecId σ' = nextRecId σ /\
  boardPresets σ' = boardPresets σ /\ nextPresetId σ' = nextPresetId σ /\
  rec_active (rec σ') = rec_active (rec σ) /\
  rec_start (rec σ') = rec_start (rec σ) /\
  rec_snapshot (rec σ') = rec_snapshot (rec σ) /\
  rep σ' = rep σ /\ pending σ' = pending σ /\ nextTimer σ' = nextTimer σ.
Proof.
  intros Hb H. destruct msg; try discriminate Hb.
  all: open_server σ; revert H; handler_eval;
    repeat (case_scrutinee; handler_eval);
    intros H; try discriminate; injection H as <- <-; cbn; auto 12.
Qed.

Lemma handle_boardEvent_total socket now msg σ :
  boardEvent msg = true ->
  exists σ' out, handle socket now msg σ = Ok tt σ' out.
Proof.
  intros Hb. destruct msg; try discriminate Hb.
  all: open_server σ; handler_eval;
    repeat (case_scrutinee; handler_eval); eauto.
Qed.

(** ** Closed forms of the recording and preset controls *)

Lemma handle_recording_start socket now σ :
  handle socket now RecordingStart σ =
  if rec_active (rec σ) || rep_active (rep σ) then Ok tt σ []
  else Ok tt (upd_rec (fun _ => mkRec true now (Some (store σ)) []) σ)
          [mkEmit ToAll "recording-started" PNone].
Proof. open_server σ. handler_eval. destruct ra, pa; reflexivity. Qed.

Lemma handle_recording_stop socket now σ :
  handle socket now RecordingStop σ =
  if rec_active (rec σ) then
    Ok tt (upd_recordings (fun l => l ++ [savedRecording now σ])
             (upd_nextRecId S
                (upd_rec (fun r => mkRec false (rec_start r) (rec_snapshot r)
                                     (rec_timeline r)) σ)))
       [mkEmit ToAll "recording-saved"
          (PRecordings (recInfos (recordings σ ++ [savedRecording now σ])))]
  else Ok tt σ [].
Proof. open_server σ. handler_eval. destruct ra; reflexivity. Qed.

Lemma handle_rename_recording socket now recId newName σ :
  handle socket now (RenameRecording recId newName) σ =
  match find (fun r => Nat.eqb (r_id r) recId) (recordings σ) with
  | Some _ =>
      Ok tt (upd_recordings (renameFirst (fun r => Nat.eqb (r_id r) recId)
                               (renamedRecording newName)) σ)
         [mkEmit ToAll "recordings-list"
            (PRecordings (recInfos
               (renameFirst (fun r => Nat.eqb (r_id r) recId)
                  (renamedRecording newName) (recordings σ))))]
  | None => Ok tt σ []
  end.
Proof.
  open_server σ. handler_eval. destruct (find _ rcs); reflexivity.
Qed.

Lemma handle_delete_recording socket now recId σ :
  handle socket now (DeleteRecording recId) σ =
  match findIndex (fun r => Nat.eqb (r_id r) recId) (recordings σ) with
  | Some idx =>
      Ok tt (upd_recordings (splice1 idx) σ)
         [mkEmit ToAll "recordings-list"
            (PRecordings (recInfos (splice1 idx (recordings σ))))]
  | None => Ok tt σ []
  end.
Proof.
  open_server σ. handler_eval. destruct (findIndex _ rcs); reflexivity.
Qed.

Lemma handle_save_preset socket now name σ :
  handle socket now (SavePreset name) σ =
  Ok tt (upd_boardPresets (fun l => l ++ [savedPreset now name σ])
           (upd_nextPresetId S σ))
     [mkEmit ToAll "presets-list"
        (PPresets (presetInfos (boardPresets σ ++ [savedPreset now name σ])));
      mkEmit (ToSocket socket) "preset-saved"
        (PPresetSaved (nextPresetId σ) (p_name (savedPreset now name σ)))].
Proof. open_server σ. reflexivity. Qed.

Lemma handle_load_preset socket now presetId σ :
  handle socket now (LoadPreset presetId) σ =
  match find (fun p => Nat.eqb (p_id p) presetId) (boardPresets σ) with
  | Some preset =>
      Ok tt (upd_state (restoreState (presetSnap preset)) σ)
         [mkEmit ToAll "clear-board" PNone;
          mkEmit ToAll "tokens-cleared" PNone;
          mkEmit ToAll "preset-loaded" (boardPayload (presetSnap preset))]
  | None => Ok tt σ []
  end.
Proof.
  open_server σ. handler_eval. destruct (find _ bps); reflexivity.
Qed.

Lemma handle_rename_preset socket now presetId newName σ :
  handle socket now (RenamePreset presetId newName) σ =
  match find (fun p => Nat.eqb (p_id p) presetId) (boardPresets σ) with
  | Some _ =>
      Ok tt (upd_boardPresets (renameFirst (fun p => Nat.eqb (p_id p) presetId)
                                 (renamedPreset newName)) σ)
         [mkEmit ToAll "presets-list"
            (PPresets (presetInfos
               (renameFirst (fun p => Nat.eqb (p_id p) presetId)
                  (renamedPreset newName) (boardPresets σ))))]
  | None => Ok tt σ []
  end.
Proof.
  open_server σ. handler_eval. destruct (find _ bps); reflexivity.
Qed.

Lemma handle_delete_preset socket now presetId σ :
  handle socket now (DeletePreset presetId) σ =
  match findIndex (fun p => Nat.eqb (p_id p) presetId) (boardPresets σ) with
  | Some idx =>
      Ok tt (upd_boardPresets (splice1 idx) σ)
         [mkEmit ToAll "presets-list"
            (PPresets (presetInfos (splice1 idx (boardPresets σ))))]
  | None => Ok tt σ []
  end.
Proof.
  open_server σ. handler_eval. destruct (findIndex _ bps); reflexivity.
Qed.

(** The replay controls and the timers leave the recorder, the saved
    recordings and the presets alone. *)
Lemma replay_turn_keeps_saved a σ σ' out :
  step a σ = Ok tt σ' out ->
  (forall socket now msg, a = Inbound socket now msg ->
     (exists recId, msg = ReplayStart recId) \/ msg = ReplayStop) ->
  recordings σ' = recordings σ /\ nextRecId σ' = nextRecId σ /\
  boardPresets σ' = boardPresets σ /\ nextPresetId σ' = nextPresetId σ /\
  rec σ' = rec σ.
Proof.
  intros H Hkind. destruct a as [socket now msg|h]; cbn [step] in H.
  - destruct (Hkind _ _ _ eq_refl) as [[recId ->]| ->].
    + apply on_replay_start_cases in H
        as [[-> _]|(rc & sn & _ & _ & _ & -> & _)]; cbn; auto.
    + apply on_replay_stop_cases in H
        as [(_ & -> & _)|(s & _ & _ & -> & _)]; cbn; auto.
  - apply fire_cases in H as [[-> _]|(tm & _ & _ & H)]; [auto|].
    destruct (callback tm); cbn [runCallback] in H.
    + injection H as <- <-. destruct σ. cbn. auto.
    + injection H as <- <-. destruct σ. cbn. auto.
    + rewrite finishReplay_eq in H.
      destruct (preSnap _) as [s|]; [|discriminate].
      injection H as <- <-. destruct σ. cbn. auto.
Qed.

(** ** Saved recordings are complete *)

Lemma recsInv_init : recsInv init.
Proof. split; [discriminate|constructor]. Qed.

Lemma recsInv_step a σ σ' out :
  recsInv σ -> step a σ = Ok tt σ' out -> recsInv σ'.
Proof.
  intros Hinv H.
  destruct a as [socket now msg|h].
  2:{ apply replay_turn_keeps_saved in H as (Hr & _ & _ & _ & Hrec);
        [|discriminate]. unfold recsInv. rewrite Hr, Hrec. exact Hinv. }
  destruct (boardEvent msg) eqn:Hb.
  { cbn [step] in H.
    apply handle_boardEvent in H
      as (Hr & _ & _ & _ & Ha & _ & Hs & _); [|exact Hb].
    unfold recsInv. rewrite Hr, Ha, Hs. exact Hinv. }
  destruct msg; try discriminate Hb; cbn [step] in H.
  - rewrite handle_recording_start in H.
    destruct (_ || _); injection H as <- <-; [exact Hinv|].
    destruct Hinv as [Hact Hall].
    open_server σ. split; [discriminate|exact Hall].
  - rewrite handle_recording_stop in H.
    destruct (rec_active (rec σ)) eqn:Ea; injection H as <- <-;
      [|exact Hinv].
    destruct Hinv as [Hact Hall].
    open_server σ. split; [discriminate|].
    apply Forall_app. split; [exact Hall|].
    constructor; [|constructor]. split; [apply Hact; exact Ea|].
    split; reflexivity.
  - apply (replay_turn_keeps_saved (Inbound socket now (ReplayStart recId)))
      in H as (Hr & _ & _ & _ & Hrec).
    + unfold recsInv. rewrite Hr, Hrec. exact Hinv.
    + intros ? ? ? [= _ _ <-]. eauto.
  - apply (replay_turn_keeps_saved (Inbound socket now ReplayStop))
      in H as (Hr & _ & _ & _ & Hrec).
    + unfold recsInv. rewrite Hr, Hrec. exact Hinv.
    + intros ? ? ? [= _ _ <-]. eauto.
  - rewrite handle_rename_recording in H.
    destruct (find _ _); injection H as <- <-; [|exact Hinv].
    destruct Hinv as [Hact Hall].
    open_server σ. split; [exact Hact|].
    apply renameFirst_Forall; [|exact Hall]. intros x Hx. exact Hx.
  - rewrite handle_delete_recording in H.
    destruct (findIndex _ _); injection H as <- <-; [|exact Hinv].
    destruct Hinv as [Hact Hall].
    open_server σ. split; [exact Hact|]. apply splice1_Forall, Hall.
  - rewrite handle_save_preset in H. injection H as <- <-.
    open_server σ. exact Hinv.
  - rewrite handle_rename_preset in H.
    destruct (find _ _); injection H as <- <-; [|exact Hinv].
    open_server σ. exact Hinv.
  - rewrite handle_delete_preset in H.
    destruct (findIndex _ _); injection H as <- <-; [|exact Hinv].
    open_server σ. exact Hinv.
Qed.

Lemma reachable_recsInv σ : reachable σ -> recsInv σ.
Proof.
  induction 1 as [|a σ1 σ2 out _ Hinv Hstep|σ presets recs _ Hinv Hp Hr].
  - apply recsInv_init.
  - eapply recsInv_step; eassumption.
  - destruct (started_left σ presets recs Hp Hr) as (np & nr & -> & _).
    destruct Hinv as [_ Hall]. split; [discriminate|exact Hall].
Qed.

(** X2.  In every reachable state each saved recording has its snapshot,
    an eventCount equal to the length of its timeline and a duration equal
    to the offset of its last entry, whatever renames and deletions
    happened since it was saved. *)
Theorem saved_recordings_are_complete σ :
  reachable σ -> Forall recordingOk (recordings σ).
Proof. intros H. apply (reachable_recsInv σ H). Qed.

(** ** No turn throws *)

(** X1.  In a reachable state no turn of the event loop throws: every
    inbound event whose payload has the shape its handler destructures,
    and every timer firing, returns normally.  The two places that would
    dereference [null], [rep.preSnap] in [finishReplay] and a recording's
    snapshot in replay-start, are never reached with [null]. *)
Theorem no_turn_throws σ a :
  reachable σ -> exists σ' out, step a σ = Ok tt σ' out.
Proof.
  intros Hreach.
  pose proof (reachable_recsInv _ Hreach) as [_ Hrecs].
  pose proof (reachable_replayInv _ Hreach) as (Hpre & Hidle & Hpend).
  destruct a as [socket now msg|h]; cbn [step].
  - destruct (boardEvent msg) eqn:Hb;
      [apply handle_boardEvent_total, Hb|].
    destruct msg; try discriminate Hb.
    + rewrite handle_recording_start. destruct (_ || _); eauto.
    + rewrite handle_recording_stop. destruct (rec_active _); eauto.
    + cbn [handle]. destruct (rep_active (rep σ)) eqn:Hact.
      { unfold on_replay_start, bind, get. rewrite Hact. cbn. eauto. }
      destruct (find (fun r => Nat.eqb (r_id r) recId) (recordings σ))
        as [recording|] eqn:Hfind.
      2:{ unfold on_replay_start, bind, get. rewrite Hact, Hfind. cbn. eauto. }
      destruct (snapshot recording) as [snap|] eqn:Hsnap.
      * rewrite (on_replay_start_accepts _ _ _ _ _ Hact Hfind Hsnap). eauto.
      * exfalso. apply find_Some in Hfind as [Hin _].
        rewrite Forall_forall in Hrecs.
        destruct (Hrecs recording) as [Hs _]; [apply list_elem_of_In, Hin|].
        exact (Hs Hsnap).
    + cbn [handle]. unfold on_replay_stop, bind, get.
      destruct (rep_active (rep σ)) eqn:Hact; [|cbn; eauto].
      rewrite finishReplay_eq.
      destruct (preSnap (rep σ)) eqn:E; [eauto|].
      destruct (Hpre eq_refl eq_refl).
    + rewrite handle_rename_recording. destruct (find _ _); eauto.
    + rewrite handle_delete_recording. destruct (findIndex _ _); eauto.
    + rewrite handle_save_preset. eauto.
    + rewrite handle_rename_preset. destruct (find _ _); eauto.
    + rewrite handle_delete_preset. destruct (findIndex _ _); eauto.
  - unfold fire, bind, get.
    destruct (find _ (pending σ)) as [tm|] eqn:Hfind; [|cbn; eauto].
    unfold modify. apply find_Some in Hfind as [Hin _].
    destruct (callback tm) eqn:Hcb; cbn [runCallback]; [cbn; eauto..|].
    rewrite finishReplay_eq.
    assert (Hsome : preSnap (rep σ) <> None).
    { apply Hpre. destruct (rep_active (rep σ)) eqn:Hact; [reflexivity|].
      rewrite Forall_forall in Hpend.
      specialize (Hpend tm (proj2 (list_elem_of_In _ _) Hin)).
      rewrite Hcb, (Hidle eq_refl) in Hpend. destruct (Hpend eq_refl). }
    destruct σ as [st ntk nar rc [pa ptm [s|] pcr] rcs nri bps npi ci pend ntm];
      cbn in *; [eauto|congruence].
Qed.

(** ** Ids of saved recordings and presets *)

Lemma renameFirst_fmap {A B} (g : A -> B) p f (l : list A) :
  (forall x, g (f x) = g x) -> g <$> renameFirst p f l = g <$> l.
Proof.
  intros Hg. induction l as [|x l IH]; cbn; [reflexivity|].
  destruct (p x); cbn; [rewrite Hg|rewrite IH]; reflexivity.
Qed.

Lemma NoDup_snoc_fresh (ids : list nat) n :
  NoDup ids -> Forall (fun i => (i < n)%nat) ids -> NoDup (ids ++ [n]).
Proof.
  intros Hd Hlt. apply NoDup_app. split; [exact Hd|].
  split; [|apply NoDup_singleton].
  intros i Hi Hn. apply list_elem_of_singleton in Hn. subst i.
  rewrite Forall_forall in Hlt. specialize (Hlt n Hi). lia.
Qed.

Lemma savedIdsInv_init : savedIdsInv init.
Proof.
  unfold savedIdsInv. cbn.
  repeat split; auto using NoDup_nil_2, Forall_nil_2.
Qed.

Lemma savedIdsInv_step a σ σ' out :
  savedIdsInv σ -> step a σ = Ok tt σ' out -> savedIdsInv σ'.
Proof.
  intros Hinv H.
  destruct a as [socket now msg|h].
  2:{ apply replay_turn_keeps_saved in H as (Hr & Hn & Hp & Hm & _);
        [|discriminate]. unfold savedIdsInv. rewrite Hr, Hn, Hp, Hm.
      exact Hinv. }
  destruct (boardEvent msg) eqn:Hb.
  { cbn [step] in H.
    apply handle_boardEvent in H as (Hr & Hn & Hp & Hm & _); [|exact Hb].
    unfold savedIdsInv. rewrite Hr, Hn, Hp, Hm. exact Hinv. }
  destruct msg; try discriminate Hb; cbn [step] in H.
  - rewrite handle_recording_start in H.
    destruct (_ || _); injection H as <- <-; [exact Hinv|].
    open_server σ. exact Hinv.
  - rewrite handle_recording_stop in H.
    destruct (rec_active (rec σ)) eqn:Ea; injection H as <- <-;
      [|exact Hinv].
    destruct Hinv as (Hd & Hlt & Hpd & Hplt).
    open_server σ. unfold savedIdsInv. cbn.
    split; [|split; [|split; assumption]].
    + rewrite fmap_app. cbn. apply NoDup_snoc_fresh; [exact Hd|].
      apply Forall_fmap. exact Hlt.
    + apply Forall_app. split.
      * eapply Forall_impl; [exact Hlt|]. cbn. lia.
      * constructor; [cbn; lia|constructor].
  - apply (replay_turn_keeps_saved (Inbound socket now (ReplayStart recId)))
      in H as (Hr & Hn & Hp & Hm & _).
    + unfold savedIdsInv. rewrite Hr, Hn, Hp, Hm. exact Hinv.
    + intros ? ? ? [= _ _ <-]. eauto.
  - apply (replay_turn_keeps_saved (Inbound socket now ReplayStop))
      in H as (Hr & Hn & Hp & Hm & _).
    + unfold savedIdsInv. rewrite Hr, Hn, Hp, Hm. exact Hinv.
    + intros ? ? ? [= _ _ <-]. eauto.
  - rewrite handle_rename_recording in H.
    destruct (find _ _); injection H as <- <-; [|exact Hinv].
    destruct Hinv as (Hd & Hlt & Hpd & Hplt).
    open_server σ. unfold savedIdsInv. cbn.
    split; [|split; [|split; assumption]].
    + rewrite renameFirst_fmap; [exact Hd|reflexivity].
    + apply renameFirst_Forall; [|exact Hlt]. intros x Hx. exact Hx.
  - rewrite handle_delete_recording in H.
    destruct (findIndex _ _); injection H as <- <-; [|exact Hinv].
    destruct Hinv as (Hd & Hlt & Hpd & Hplt).
    open_server σ. unfold savedIdsInv. cbn.
    split; [|split; [|split; assumption]].
    + rewrite splice1_fmap. apply splice1_NoDup, Hd.
    + apply splice1_Forall, Hlt.
  - rewrite handle_save_preset in H. injection H as <- <-.
    destruct Hinv as (Hd & Hlt & Hpd & Hplt).
    open_server σ. unfold savedIdsInv. cbn.
    split; [assumption|]. split; [assumption|]. split.
    + rewrite fmap_app. cbn. apply NoDup_snoc_fresh; [exact Hpd|].
      apply Forall_fmap. exact Hplt.
    + apply Forall_app. split.
      * eapply Forall_impl; [exact Hplt|]. cbn. lia.
      * constructor; [cbn; lia|constructor].
  - rewrite handle_rename_preset in H.
    destruct (find _ _); injection H as <- <-; [|exact Hinv].
    destruct Hinv as (Hd & Hlt & Hpd & Hplt).
    open_server σ. unfold savedIdsInv. cbn.
    split; [assumption|]. split; [assumption|]. split.
    + rewrite renameFirst_fmap; [exact Hpd|reflexivity].
    + apply renameFirst_Forall; [|exact Hplt]. intros x Hx. exact Hx.
  - rewrite handle_delete_preset in H.
    destruct (findIndex _ _); injection H as <- <-; [|exact Hinv].
    destruct Hinv as (Hd & Hlt & Hpd & Hplt).
    open_server σ. unfold savedIdsInv. cbn.
    split; [assumption|]. split; [assumption|]. split.
    + rewrite splice1_fmap. apply splice1_NoDup, Hpd.
    + apply splice1_Forall, Hplt.
Qed.

Lemma reachable_savedIdsInv σ : reachable σ -> savedIdsInv σ.
Proof.
  induction 1 as [|a σ1 σ2 out _ Hinv Hstep|σ presets recs _ Hinv Hp Hr].
  - apply savedIdsInv_init.
  - eapply savedIdsInv_step; eassumption.
  - destruct (started_left σ presets recs Hp Hr)
      as (np & nr & -> & Hnp & Hnr).
    destruct Hinv as (Hd & Hlt & Hpd & Hplt).
    unfold savedIdsInv. cbn. auto.
Qed.

Lemma sorted_snoc_above (ids : list nat) n :
  StronglySorted lt ids -> Forall (fun i => (i < n)%nat) ids ->
  StronglySorted lt (ids ++ [n]).
Proof.
  induction 1 as [|i ids Hs IH Hi]; intros Hlt; cbn.
  - repeat constructor.
  - apply Forall_cons in Hlt as [Hin Hlt].
    constructor; [apply IH, Hlt|].
    apply Forall_app. split; [exact Hi|]. constructor; [exact Hin|constructor].
Qed.

Lemma splice1_sorted idx : forall ids : list nat,
  StronglySorted lt ids -> StronglySorted lt (splice1 idx ids).
Proof.
  induction idx as [|idx IH]; intros ids Hs; destruct Hs as [|i ids Hs Hi];
    cbn; try constructor; auto.
  apply splice1_Forall, Hi.
Qed.

Lemma ascendingInv_step a σ σ' out :
  savedIdsInv σ -> ascendingInv σ -> step a σ = Ok tt σ' out ->
  ascendingInv σ'.
Proof.
  intros (_ & Hlt & _ & Hplt) Hinv H.
  destruct a as [socket now msg|h].
  2:{ apply replay_turn_keeps_saved in H as (Hr & Hn & Hp & Hm & _);
        [|discriminate]. unfold ascendingInv. rewrite Hr, Hp. exact Hinv. }
  destruct (boardEvent msg) eqn:Hb.
  { cbn [step] in H.
    apply handle_boardEvent in H as (Hr & Hn & Hp & Hm & _); [|exact Hb].
    unfold ascendingInv. rewrite Hr, Hp. exact Hinv. }
  destruct Hinv as [Hr Hp].
  destruct msg; try discriminate Hb; cbn [step] in H.
  - rewrite handle_recording_start in H.
    destruct (_ || _); injection H as <- <-; [split; assumption|].
    open_server σ. split; assumption.
  - rewrite handle_recording_stop in H.
    destruct (rec_active (rec σ)) eqn:Ea; injection H as <- <-;
      [|split; assumption].
    open_server σ. unfold ascendingInv. cbn. split; [|exact Hp].
    rewrite fmap_app. cbn. apply sorted_snoc_above; [exact Hr|].
    apply Forall_fmap. exact Hlt.
  - apply (replay_turn_keeps_saved (Inbound socket now (ReplayStart recId)))
      in H as (Er & _ & Ep & _).
    + unfold ascendingInv. rewrite Er, Ep. split; assumption.
    + intros ? ? ? [= _ _ <-]. eauto.
  - apply (replay_turn_keeps_saved (Inbound socket now ReplayStop))
      in H as (Er & _ & Ep & _).
    + unfold ascendingInv. rewrite Er, Ep. split; assumption.
    + intros ? ? ? [= _ _ <-]. eauto.
  - rewrite handle_rename_recording in H.
    destruct (find _ _); injection H as <- <-; [|split; assumption].
    open_server σ. unfold ascendingInv. cbn. split; [|exact Hp].
    rewrite renameFirst_fmap; [exact Hr|reflexivity].
  - rewrite handle_delete_recording in H.
    destruct (findIndex _ _); injection H as <- <-; [|split; assumption].
    open_server σ. unfold ascendingInv. cbn. split; [|exact Hp].
    rewrite splice1_fmap. apply splice1_sorted, Hr.
  - rewrite handle_save_preset in H. injection H as <- <-.
    open_server σ. unfold ascendingInv. cbn. split; [exact Hr|].
    rewrite fmap_app. cbn. apply sorted_snoc_above; [exact Hp|].
    apply Forall_fmap. exact Hplt.
  - rewrite handle_rename_preset in H.
    destruct (find _ _); injection H as <- <-; [|split; assumption].
    open_server σ. unfold ascendingInv. cbn. split; [exact Hr|].
    rewrite renameFirst_fmap; [exact Hp|reflexivity].
  - rewrite handle_delete_preset in H.
    destruct (findIndex _ _); injection H as <- <-; [|split; assumption].
    open_server σ. unfold ascendingInv. cbn. split; [exact Hr|].
    rewrite splice1_fmap. apply splice1_sorted, Hp.
Qed.

(** The saved recordings and the presets stand in the order of their
    ids, so reading the rows of a table back in the order of their ids
    gives the array that the process held. *)
Lemma reachable_ascendingInv σ : reachable σ -> ascendingInv σ.
Proof.
  induction 1 as [|a σ1 σ2 out Hreach Hinv Hstep|σ presets recs _ Hinv Hp Hr].
  - split; constructor.
  - eapply ascendingInv_step; [|exact Hinv|exact Hstep].
    apply reachable_savedIdsInv, Hreach.
  - destruct (started_left σ presets recs Hp Hr) as (np & nr & -> & _).
    exact Hinv.
Qed.

(** X3.  In every reachable state the ids of the saved recordings are
    pairwise distinct and below [nextRecId], and the ids of the presets
    are pairwise distinct and below [nextPresetId]: an id names at most
    one recording and one preset, and the next save gets an unused id. *)
Theorem saved_ids_are_distinct σ :
  reachable σ -> savedIdsInv σ.
Proof. apply reachable_savedIdsInv. Qed.

(** ** Removing the one element that carries a key *)

Lemma filter_none {A} (p : A -> bool) (l : list A) :
  Forall (fun x => p x = false) l -> List.filter (fun x => negb (p x)) l = l.
Proof.
  induction 1 as [|x l Hx _ IH]; cbn; [reflexivity|].
  rewrite Hx. cbn. rewrite IH. reflexivity.
Qed.

Lemma findIndex_None_Forall {A} (p : A -> bool) (l : list A) :
  findIndex p l = None -> Forall (fun x => p x = false) l.
Proof.
  induction l as [|x l IH]; cbn; [constructor|].
  destruct (p x) eqn:E; [discriminate|].
  destruct (findIndex p l); [discriminate|]. intros _.
  constructor; [exact E|apply IH; reflexivity].
Qed.

(** With distinct keys, [findIndex] followed by [splice] removes every
    element that carries the key. *)
Lemma splice1_first_is_filter {A K} (key : A -> K) (eqb : K -> K -> bool)
    (k : K) (l : list A) idx :
  (forall a b, eqb a b = true <-> a = b) ->
  NoDup (key <$> l) ->
  findIndex (fun x => eqb (key x) k) l = Some idx ->
  splice1 idx l = List.filter (fun x => negb (eqb (key x) k)) l.
Proof.
  intros Heqb. revert idx. induction l as [|x l IH]; intros idx; cbn;
    [discriminate|].
  rewrite NoDup_cons. intros [Hn Hd].
  destruct (eqb (key x) k) eqn:E; cbn.
  - intros [= <-]. cbn. symmetry. apply (filter_none (fun y => eqb (key y) k)).
    apply Forall_forall. intros y Hy.
    destruct (eqb (key y) k) eqn:Ey; [|reflexivity].
    apply Heqb in E, Ey. exfalso. apply Hn. rewrite E, <- Ey.
    apply list_elem_of_fmap_2, Hy.
  - destruct (findIndex _ l) as [i|] eqn:Ei; cbn; [|discriminate].
    intros [= <-]. cbn. rewrite (IH i Hd eq_refl). reflexivity.
Qed.

(** X4.  In a reachable state delete-recording removes the recording that
    carries the id, and nothing else: afterwards the list holds exactly
    the recordings with other ids, in their order, all other server state
    is as before, and the new list is sent to every connection; for an id
    that names no recording nothing changes and nothing is sent.
    delete-preset does the same to the presets. *)
Theorem delete_removes_exactly_one_id socket now id σ :
  reachable σ ->
  (exists σ',
     handle socket now (DeleteRecording id) σ
       = Ok tt σ'
           (if hasRecording id σ
            then [mkEmit ToAll "recordings-list"
                    (PRecordings (recInfos (recordings σ')))]
            else []) /\
     σ' = upd_recordings
            (List.filter (fun r => negb (Nat.eqb (r_id r) id))) σ /\
     hasRecording id σ' = false) /\
  (exists σ',
     handle socket now (DeletePreset id) σ
       = Ok tt σ'
           (if hasPreset id σ
            then [mkEmit ToAll "presets-list"
                    (PPresets (presetInfos (boardPresets σ')))]
            else []) /\
     σ' = upd_boardPresets
            (List.filter (fun p => negb (Nat.eqb (p_id p) id))) σ /\
     hasPreset id σ' = false).
Proof.
  intros Hreach. destruct (reachable_savedIdsInv σ Hreach) as (Hd & _ & Hpd & _).
  assert (Hgone : forall {A} (key : A -> nat) (l : list A),
            existsb (fun x => Nat.eqb (key x) id)
              (List.filter (fun x => negb (Nat.eqb (key x) id)) l) = false).
  { intros A key l. induction l as [|x l IH]; cbn; [reflexivity|].
    destruct (Nat.eqb (key x) id) eqn:E; cbn; [exact IH|].
    rewrite E, IH. reflexivity. }
  split.
  - rewrite handle_delete_recording. unfold hasRecording.
    destruct (findIndex _ (recordings σ)) as [idx|] eqn:Ei.
    + pose proof (splice1_first_is_filter r_id Nat.eqb id _ idx
                    Nat.eqb_eq Hd Ei) as Hf.
      assert (Hex : existsb (fun r => Nat.eqb (r_id r) id) (recordings σ)
                    = true).
      { destruct (existsb _ _) eqn:E; [reflexivity|].
        apply findIndex_None in E. congruence. }
      rewrite Hex. exists (upd_recordings (splice1 idx) σ).
      split; [reflexivity|].
      open_server σ. upd_norm. rewrite Hf. split; [reflexivity|]. apply Hgone.
    + pose proof (proj1 (findIndex_None _ _) Ei) as Hex. rewrite Hex.
      pose proof (filter_none _ _ (findIndex_None_Forall _ _ Ei)) as Hf.
      exists σ. split; [reflexivity|].
      open_server σ. upd_norm. rewrite Hf. split; [reflexivity|exact Hex].
  - rewrite handle_delete_preset. unfold hasPreset.
    destruct (findIndex _ (boardPresets σ)) as [idx|] eqn:Ei.
    + pose proof (splice1_first_is_filter p_id Nat.eqb id _ idx
                    Nat.eqb_eq Hpd Ei) as Hf.
      assert (Hex : existsb (fun p => Nat.eqb (p_id p) id) (boardPresets σ)
                    = true).
      { destruct (existsb _ _) eqn:E; [reflexivity|].
        apply findIndex_None in E. congruence. }
      rewrite Hex. exists (upd_boardPresets (splice1 idx) σ).
      split; [reflexivity|].
      open_server σ. upd_norm. rewrite Hf. split; [reflexivity|]. apply Hgone.
    + pose proof (proj1 (findIndex_None _ _) Ei) as Hex. rewrite Hex.
      pose proof (filter_none _ _ (findIndex_None_Forall _ _ Ei)) as Hf.
      exists σ. split; [reflexivity|].
      open_server σ. upd_norm. rewrite Hf. split; [reflexivity|exact Hex].
Qed.

(** ** Saving a preset and loading it back *)








(** ** Saved recordings do not change *)






(** ** The recorder *)

Ltac grown :=
  first [ exists []; split; [symmetry; apply app_nil_r|];
          split; [constructor|reflexivity]
        | eexists; split; [rewrite <- ?app_assoc; reflexivity|];
          split; [repeat constructor|discriminate] ].

(** A board event leaves the timeline alone when the recorder is idle and
    appends entries stamped with the event's clock reading otherwise. *)
Lemma handle_boardEvent_timeline socket now msg σ σ' out :
  boardEvent msg = true ->
  handle socket now msg σ = Ok tt σ' out ->
  exists suffix,
    rec_timeline (rec σ') = rec_timeline (rec σ) ++ suffix /\
    Forall (fun e => t e = now - rec_start (rec σ)) suffix /\
    (rec_active (rec σ) = false -> suffix = []).
Proof.
  intros Hb H. destruct msg; try discriminate Hb.
  all: open_server σ; revert H; handler_eval;
    repeat (case_scrutinee; handler_eval);
    intros H; try discriminate; injection H as <- <-; cbn; grown.
Qed.

(** What one turn other than a recording-stop does to an active
    recorder. *)
Lemma recorder_step a σ σ' out :
  step a σ = Ok tt σ' out ->
  notRecordingStop a ->
  rec_active (rec σ) = true ->
  rec_active (rec σ') = true /\
  rec_start (rec σ') = rec_start (rec σ) /\
  rec_snapshot (rec σ') = rec_snapshot (rec σ) /\
  nextRecId σ' = nextRecId σ /\
  exists suffix,
    rec_timeline (rec σ') = rec_timeline (rec σ) ++ suffix /\
    Forall (fun e => In (rec_start (rec σ) + t e) (clocks [a])) suffix.
Proof.
  intros H Hns Hact.
  assert (Hsame : rec σ' = rec σ -> nextRecId σ' = nextRecId σ ->
    rec_active (rec σ') = true /\
    rec_start (rec σ') = rec_start (rec σ) /\
    rec_snapshot (rec σ') = rec_snapshot (rec σ) /\
    nextRecId σ' = nextRecId σ /\
    exists suffix,
      rec_timeline (rec σ') = rec_timeline (rec σ) ++ suffix /\
      Forall (fun e => In (rec_start (rec σ) + t e) (clocks [a])) suffix).
  { intros -> ->. repeat (split; [auto|]). exists [].
    split; [symmetry; apply app_nil_r|constructor]. }
  destruct a as [socket now msg|h].
  2:{ apply replay_turn_keeps_saved in H as (_ & Hn & _ & _ & Hr);
        [|discriminate]. auto. }
  destruct (boardEvent msg) eqn:Hb.
  { cbn [step] in H.
    destruct (handle_boardEvent_timeline _ _ _ _ _ _ Hb H)
      as (suffix & Htl & Hall & _).
    apply handle_boardEvent in H
      as (_ & Hn & _ & _ & Ha & Hst & Hsn & _); [|exact Hb].
    rewrite Ha, Hst, Hsn. repeat (split; [auto|]).
    exists suffix. split; [exact Htl|].
    eapply Forall_impl; [exact Hall|].
    intros e He. cbn in He |- *. left. lia. }
  destruct msg; try discriminate Hb; cbn [step] in H.
  - rewrite handle_recording_start, Hact in H. cbn in H.
    injection H as <- <-. auto.
  - destruct (Hns socket now eq_refl).
  - apply (replay_turn_keeps_saved (Inbound socket now (ReplayStart recId)))
      in H as (_ & Hn & _ & _ & Hr); [auto|].
    intros ? ? ? [= _ _ <-]. eauto.
  - apply (replay_turn_keeps_saved (Inbound socket now ReplayStop))
      in H as (_ & Hn & _ & _ & Hr); [auto|].
    intros ? ? ? [= _ _ <-]. eauto.
  - rewrite handle_rename_recording in H.
    destruct (find _ _); injection H as <- <-; apply Hsame; destruct σ;
      reflexivity.
  - rewrite handle_delete_recording in H.
    destruct (findIndex _ _); injection H as <- <-; apply Hsame; destruct σ;
      reflexivity.
  - rewrite handle_save_preset in H. injection H as <- <-.
    apply Hsame; destruct σ; reflexivity.
  - rewrite handle_rename_preset in H.
    destruct (find _ _); injection H as <- <-; apply Hsame; destruct σ;
      reflexivity.
  - rewrite handle_delete_preset in H.
    destruct (findIndex _ _); injection H as <- <-; apply Hsame; destruct σ;
      reflexivity.
Qed.

Lemma clocks_app l k : clocks (l ++ k) = clocks l ++ clocks k.
Proof. unfold clocks. apply flat_map_app. Qed.

Lemma recorder_run turns : forall σ σ' out cs,
  run turns σ = Ok tt σ' out ->
  Forall notRecordingStop turns ->
  rec_active (rec σ) = true ->
  Forall (fun e => In (rec_start (rec σ) + t e) cs) (rec_timeline (rec σ)) ->
  rec_active (rec σ') = true /\
  rec_start (rec σ') = rec_start (rec σ) /\
  rec_snapshot (rec σ') = rec_snapshot (rec σ) /\
  nextRecId σ' = nextRecId σ /\
  Forall (fun e => In (rec_start (rec σ) + t e) (cs ++ clocks turns))
         (rec_timeline (rec σ')).
Proof.
  induction turns as [|a turns IH]; intros σ σ' out cs H Hns Hact Htl.
  - cbn in H. unfold ret in H. injection H as <- _.
    cbn. rewrite app_nil_r. auto.
  - rewrite run_cons in H.
    destruct (step a σ) as [[] σ1 out1|] eqn:E; [|discriminate].
    destruct (run turns σ1) as [[] σ2 out2|] eqn:E2; [|discriminate].
    injection H as <- _.
    apply Forall_cons in Hns as [Ha Hns].
    destruct (recorder_step _ _ _ _ E Ha Hact)
      as (Hact1 & Hst1 & Hsn1 & Hn1 & suffix & Htl1 & Hsuf).
    destruct (IH σ1 σ2 out2 (cs ++ clocks [a]) E2 Hns Hact1)
      as (Hact2 & Hst2 & Hsn2 & Hn2 & Htl2).
    { rewrite Htl1, Hst1. apply Forall_app. split.
      - eapply Forall_impl; [exact Htl|]. intros e He. cbn in He |- *.
        apply in_or_app. left. exact He.
      - eapply Forall_impl; [exact Hsuf|]. intros e He. cbn in He |- *.
        apply in_or_app. right. exact He. }
    rewrite Hst1 in Hst2, Htl2.
    repeat (split; [congruence|]).
    change (a :: turns) with ([a] ++ turns).
    rewrite clocks_app, app_assoc. exact Htl2.
Qed.

Lemma run_app l k σ :
  run (l ++ k) σ =
  match run l σ with
  | Ok _ σ1 out1 =>
      match run k σ1 with
      | Ok _ σ2 out2 => Ok tt σ2 (out1 ++ out2)
      | Throw => Throw
      end
  | Throw => Throw
  end.
Proof.
  revert σ. induction l as [|a l IH]; intros σ; cbn [app].
  - cbn. unfold ret. destruct (run k σ) as [[] ? ?|]; reflexivity.
  - rewrite !run_cons. destruct (step a σ) as [[] σ1 out1|]; [|reflexivity].
    rewrite IH. destruct (run l σ1) as [[] σ2 out2|]; [|reflexivity].
    destruct (run k σ2) as [[] σ3 out3|]; [|reflexivity].
    rewrite app_assoc. reflexivity.
Qed.

(** X7.  A recording holds the board as it was when it was started.
    When recording-start is accepted (recorder and replay idle) and the
    next recording-stop comes after any other turns, the recording saved
    last carries the id the counter showed at the start, the stop's clock
    reading as timestamp, the store of the moment of recording-start as
    snapshot, and a timeline whose entries are all stamped with the clock
    reading of one of the turns in between, taken relative to the start. *)
Theorem recording_holds_start_board σ s0 now0 turns s1 now1 σ' out :
  rec_active (rec σ) = false ->
  rep_active (rep σ) = false ->
  Forall notRecordingStop turns ->
  run (Inbound s0 now0 RecordingStart
         :: turns ++ [Inbound s1 now1 RecordingStop]) σ = Ok tt σ' out ->
  exists r,
    last (recordings σ') = Some r /\
    r_id r = nextRecId σ /\
    r_timestamp r = now1 /\
    snapshot r = Some (store σ) /\
    Forall (fun e => In (now0 + t e) (clocks turns)) (timeline r) /\
    rec_active (rec σ') = false /\
    In (mkEmit ToAll "recording-started" PNone) out.
Proof.
  intros Hrec Hrep Hns H.
  rewrite run_cons in H. cbn [step] in H.
  rewrite handle_recording_start, Hrec, Hrep in H. cbn [orb] in H.
  rewrite run_app in H.
  destruct (run turns _) as [[] σ1 out1|] eqn:E1; [|discriminate].
  apply (recorder_run _ _ _ _ []) in E1
    as (Hact1 & Hst1 & Hsn1 & Hn1 & Htl1);
    [|exact Hns|destruct σ; reflexivity|destruct σ; constructor].
  rewrite run_cons in H. cbn [step run] in H.
  rewrite handle_recording_stop, Hact1 in H. unfold ret in H.
  injection H as <- <-.
  exists (savedRecording now1 σ1).
  assert (Hs0 : rec_start (rec σ1) = now0) by (destruct σ; exact Hst1).
  assert (Hsn0 : rec_snapshot (rec σ1) = Some (store σ))
    by (destruct σ; exact Hsn1).
  assert (Hn0 : nextRecId σ1 = nextRecId σ) by (destruct σ; exact Hn1).
  split; [destruct σ1; cbn; apply last_snoc|].
  split; [exact Hn0|]. split; [reflexivity|]. split; [exact Hsn0|].
  split; [|split; [destruct σ1; reflexivity|left; reflexivity]].
  cbn [timeline savedRecording].
  destruct σ; cbn in Htl1 |- *. exact Htl1.
Qed.

(** ** A replay played to its end *)









(** ** Clock readings and offsets *)

Lemma sorted_snoc_block (l s : list Z) v :
  StronglySorted Z.le l ->
  Forall (fun x => x <= v) l ->
  Forall (fun x => x = v) s ->
  StronglySorted Z.le (l ++ s).
Proof.
  intros Hl Hle Hs. induction Hl as [|x l Hl IH Hx]; cbn.
  - induction Hs as [|y s -> Hs IHs]; constructor; [exact IHs|].
    eapply Forall_impl; [exact Hs|]. cbn. intros z ->. lia.
  - apply Forall_cons in Hle as [Hxv Hle].
    constructor; [apply IH, Hle|].
    apply Forall_app. split; [exact Hx|].
    eapply Forall_impl; [exact Hs|]. cbn. intros z ->. exact Hxv.
Qed.

Lemma sorted_le_last (tl : list TimelineEntry) :
  StronglySorted Z.le (t <$> tl) ->
  Forall (fun e => t e <= lastOffset tl) tl.
Proof.
  unfold lastOffset. induction tl as [|e tl IH]; intros Hs; [constructor|].
  cbn [fmap list_fmap] in Hs. apply StronglySorted_inv in Hs as [Hs He].
  specialize (IH Hs). destruct tl as [|e' tl]; cbn [last].
  - constructor; [lia|constructor].
  - cbn [last] in IH. constructor; [|exact IH].
    apply Forall_cons in IH as [He' _].
    cbn [fmap list_fmap] in He. apply Forall_cons in He as [Hee' _]. lia.
Qed.

Lemma clockInv_saved c c' σ σ' :
  c <= c' ->
  rec σ' = rec σ -> recordings σ' = recordings σ ->
  clockInv c σ -> clockInv c' σ'.
Proof.
  intros Hc Hr Hrs [Hrec Hall]. unfold clockInv. rewrite Hr, Hrs.
  split; [|exact Hall].
  intros Hact. destruct (Hrec Hact) as (Hst & Hs & Hb).
  split; [lia|]. split; [exact Hs|].
  eapply Forall_impl; [exact Hb|]. cbn. intros e He. lia.
Qed.

Lemma clockInv_step c a σ σ' out :
  clockInv c σ ->
  c <= clockAfter c a ->
  step a σ = Ok tt σ' out ->
  clockInv (clockAfter c a) σ'.
Proof.
  intros Hinv Hc H.
  destruct a as [socket now msg|h]; cbn [clockAfter] in *.
  2:{ apply replay_turn_keeps_saved in H as (Hr & _ & _ & _ & Hrec);
        [|discriminate].
      eapply clockInv_saved; eauto. }
  destruct (boardEvent msg) eqn:Hb.
  { cbn [step] in H.
    destruct (handle_boardEvent_timeline _ _ _ _ _ _ Hb H)
      as (suffix & Htl & Hsuf & Hidle).
    apply handle_boardEvent in H
      as (Hr & _ & _ & _ & Ha & Hst & _); [|exact Hb].
    destruct Hinv as [Hrec Hall]. unfold clockInv.
    rewrite Hr, Ha, Hst, Htl. split; [|exact Hall].
    intros Hact. destruct (Hrec Hact) as (Hle & Hs & Hbd).
    split; [lia|]. split.
    - rewrite fmap_app.
      apply (sorted_snoc_block _ _ (now - rec_start (rec σ)));
        [exact Hs| |].
      + apply Forall_fmap. eapply Forall_impl; [exact Hbd|].
        cbn. intros e He. lia.
      + apply Forall_fmap. exact Hsuf.
    - apply Forall_app. split.
      + eapply Forall_impl; [exact Hbd|]. cbn. intros e He. lia.
      + eapply Forall_impl; [exact Hsuf|]. cbn. intros e He. lia. }
  destruct msg; try discriminate Hb; cbn [step] in H.
  - rewrite handle_recording_start in H.
    destruct (_ || _); injection H as <- <-.
    + eapply clockInv_saved; eauto.
    + destruct Hinv as [_ Hall]. open_server σ. split; [|exact Hall].
      intros _. cbn. split; [lia|]. split; constructor.
  - rewrite handle_recording_stop in H.
    destruct (rec_active (rec σ)) eqn:Ea; injection H as <- <-.
    2:{ eapply clockInv_saved; eauto. }
    destruct Hinv as [Hrec Hall]. destruct (Hrec Ea) as (Hle & Hs & Hbd).
    open_server σ. split; [discriminate|].
    apply Forall_app. split; [exact Hall|].
    constructor; [|constructor]. split; [exact Hs|]. cbn.
    pose proof (sorted_le_last _ Hs) as Hlast.
    rewrite Forall_forall in Hbd, Hlast. apply Forall_forall.
    intros e He. specialize (Hbd e He). specialize (Hlast e He). lia.
  - apply (replay_turn_keeps_saved (Inbound socket now (ReplayStart recId)))
      in H as (Hr & _ & _ & _ & Hrec).
    + eapply clockInv_saved; eauto.
    + intros ? ? ? [= _ _ <-]. eauto.
  - apply (replay_turn_keeps_saved (Inbound socket now ReplayStop))
      in H as (Hr & _ & _ & _ & Hrec).
    + eapply clockInv_saved; eauto.
    + intros ? ? ? [= _ _ <-]. eauto.
  - rewrite handle_rename_recording in H.
    destruct (find _ _); injection H as <- <-.
    2:{ eapply clockInv_saved; eauto. }
    destruct Hinv as [Hrec Hall]. open_server σ. split.
    + intros Hact. cbn in Hact |- *.
      destruct (Hrec Hact) as (Hle & Hs & Hbd).
      split; [lia|]. split; [exact Hs|].
      eapply Forall_impl; [exact Hbd|]. cbn. intros e He. lia.
    + apply renameFirst_Forall; [|exact Hall]. intros x Hx. exact Hx.
  - rewrite handle_delete_recording in H.
    destruct (findIndex _ _); injection H as <- <-.
    2:{ eapply clockInv_saved; eauto. }
    destruct Hinv as [Hrec Hall]. open_server σ. split.
    + intros Hact. cbn in Hact |- *.
      destruct (Hrec Hact) as (Hle & Hs & Hbd).
      split; [lia|]. split; [exact Hs|].
      eapply Forall_impl; [exact Hbd|]. cbn. intros e He. lia.
    + apply splice1_Forall, Hall.
  - rewrite handle_save_preset in H. injection H as <- <-.
    eapply clockInv_saved; [exact Hc| | |exact Hinv]; destruct σ; reflexivity.
  - rewrite handle_rename_preset in H.
    destruct (find _ _); injection H as <- <-;
      (eapply clockInv_saved; [exact Hc| | |exact Hinv]);
      destruct σ; reflexivity.
  - rewrite handle_delete_preset in H.
    destruct (findIndex _ _); injection H as <- <-;
      (eapply clockInv_saved; [exact Hc| | |exact Hinv]);
      destruct σ; reflexivity.
Qed.

Lemma clockInv_run turns : forall c σ σ' out,
  clockInv c σ ->
  Forall (fun now => c <= now) (clocks turns) ->
  StronglySorted Z.le (clocks turns) ->
  run turns σ = Ok tt σ' out ->
  exists c', clockInv c' σ'.
Proof.
  induction turns as [|a turns IH]; intros c σ σ' out Hinv Hlo Hs H.
  - cbn in H. unfold ret in H. injection H as <- _. eauto.
  - rewrite run_cons in H.
    destruct (step a σ) as [[] σ1 out1|] eqn:E; [|discriminate].
    destruct (run turns σ1) as [[] σ2 out2|] eqn:E2; [|discriminate].
    injection H as <- _.
    change (a :: turns) with ([a] ++ turns) in Hlo, Hs.
    rewrite clocks_app in Hlo, Hs.
    apply (IH (clockAfter c a) σ1 σ2 out2); [| | |exact E2].
    + apply (clockInv_step c a σ σ1 out1 Hinv); [|exact E].
      destruct a; cbn in *; [|lia]. apply Forall_cons in Hlo as [? _].
      assumption.
    + destruct a; cbn in *.
      * apply StronglySorted_inv in Hs as [_ Hs]. exact Hs.
      * exact Hlo.
    + destruct a; cbn in *; [|exact Hs].
      apply StronglySorted_inv in Hs as [Hs _]. exact Hs.
Qed.

Lemma clockInv_init c : clockInv c init.
Proof. split; [discriminate|constructor]. Qed.

Lemma run_recordingTimed turns σ out :
  run turns init = Ok tt σ out ->
  StronglySorted Z.le (clocks turns) ->
  Forall recordingTimed (recordings σ).
Proof.
  intros H Hs.
  destruct (clockInv_run turns (hd 0 (clocks turns)) init σ out) as [c' Hc'];
    [apply clockInv_init| |exact Hs|exact H|apply Hc'].
  destruct (clocks turns) as [|c cs]; [constructor|]. cbn.
  apply StronglySorted_inv in Hs as [_ Hs].
  constructor; [lia|exact Hs].
Qed.

(** X9.  When the clock readings of the inbound events never decrease,
    every saved recording has offsets that never decrease along its
    timeline and lie between 0 and the recording's duration. *)
Theorem recorded_offsets_ascend turns σ out :
  run turns init = Ok tt σ out ->
  StronglySorted Z.le (clocks turns) ->
  Forall recordingTimed (recordings σ).
Proof. apply run_recordingTimed. Qed.

Lemma timerDelay_id ms : 1 <= ms <= TIMEOUT_MAX -> timerDelay ms = ms.
Proof.
  intros [H1 H2]. unfold timerDelay.
  apply Z.leb_le in H1, H2. rewrite H1, H2. reflexivity.
Qed.

Lemma entryTimers_due now tl : forall h,
  Forall (fun e => 1 <= t e + 350 <= TIMEOUT_MAX) tl ->
  dueAt <$> entryTimers now h tl = (fun e => now + (t e + 350)) <$> tl.
Proof.
  induction tl as [|e tl IH]; intros h Hall; cbn; [reflexivity|].
  apply Forall_cons in Hall as [He Hall].
  rewrite IH by exact Hall. unfold dueAt at 1. cbn.
  rewrite timerDelay_id by exact He. reflexivity.
Qed.

Lemma entryTimers_due_Forall (P : Z -> Prop) now tl : forall h,
  Forall (fun e => 1 <= t e + 350 <= TIMEOUT_MAX /\ P (now + (t e + 350))) tl ->
  Forall (fun tm => P (dueAt tm)) (entryTimers now h tl).
Proof.
  induction tl as [|e tl IH]; intros h Hall; cbn; [constructor|].
  apply Forall_cons in Hall as [[He HP] Hall].
  constructor; [|apply IH, Hall].
  unfold dueAt. cbn. rewrite timerDelay_id by exact He. exact HP.
Qed.

(** X10.  The timers of a replay fall due in the order of their handles.
    Take a saved recording whose offsets never decrease and lie between
    0 and its duration, and whose duration plus 900 ms does not exceed
    the longest delay that the runtime accepts.  Replay-start of it in
    an idle reachable state adds exactly these timers: the delayed
    replay-init, one timer per timeline entry and the end of the replay,
    under consecutive handles; the times at which they fall due never
    decrease in that order, and every entry falls due after the
    replay-init and before the end of the replay. *)
Theorem replay_timers_fall_due_in_order σ socket now recId recording :
  reachable σ ->
  rep_active (rep σ) = false ->
  find (fun r => Nat.eqb (r_id r) recId) (recordings σ) = Some recording ->
  recordingTimed recording ->
  duration recording + 900 <= TIMEOUT_MAX ->
  exists snap σ' out',
    handle socket now (ReplayStart recId) σ = Ok tt σ' out' /\
    pending σ' = pending σ ++ replaySchedule now (nextTimer σ) recording snap /\
    tid <$> replaySchedule now (nextTimer σ) recording snap
      = replayHandles (nextTimer σ) (length (timeline recording)) /\
    StronglySorted Z.le
      (dueAt <$> replaySchedule now (nextTimer σ) recording snap) /\
    Forall (fun tm => now + 150 < dueAt tm < now + (duration recording + 900))
      (entryTimers now (S (nextTimer σ)) (timeline recording)) /\
    dueAt <$> replaySchedule now (nextTimer σ) recording snap
      = [now + 150]
        ++ ((fun e => now + (t e + 350)) <$> timeline recording)
        ++ [now + (duration recording + 900)].
Proof.
  intros Hreach Hidle Hfind [Hsorted Hbounds] Hmax.
  pose proof (reachable_recsInv σ Hreach) as [_ Hrecs].
  apply find_Some in Hfind as Hin. destruct Hin as [Hin _].
  apply list_elem_of_In in Hin.
  rewrite Forall_forall in Hrecs.
  destruct (Hrecs recording Hin) as (Hsnap & _ & Hdur).
  destruct (snapshot recording) as [snap|] eqn:Esnap; [|congruence].
  assert (Hdur0 : 0 <= duration recording).
  { rewrite Hdur. unfold lastOffset.
    destruct (last (timeline recording)) as [e|] eqn:El; [|lia].
    apply last_Some_elem_of in El.
    rewrite Forall_forall in Hbounds. destruct (Hbounds e El). lia. }
  assert (Hok : Forall (fun e => 1 <= t e + 350 <= TIMEOUT_MAX)
                  (timeline recording)).
  { eapply Forall_impl; [exact Hbounds|]. cbn. intros e He. lia. }
  assert (Hdue : dueAt <$> replaySchedule now (nextTimer σ) recording snap
      = [now + 150]
        ++ ((fun e => now + (t e + 350)) <$> timeline recording)
        ++ [now + (duration recording + 900)]).
  { unfold replaySchedule. cbn [fmap list_fmap]. rewrite fmap_app.
    rewrite (entryTimers_due _ _ _ Hok). cbn [fmap list_fmap].
    unfold dueAt. cbn [setAt delay].
    rewrite (timerDelay_id (duration recording + 900)) by lia.
    reflexivity. }
  exists snap. do 2 eexists.
  split.
  { cbn [handle].
    apply (on_replay_start_accepts now recId σ recording snap Hidle Hfind
             Esnap). }
  split; [reflexivity|].
  assert (Hdel : Forall
            (fun tm => now + 150 < dueAt tm < now + (duration recording + 900))
            (entryTimers now (S (nextTimer σ)) (timeline recording))).
  { apply (entryTimers_due_Forall
             (fun d => now + 150 < d < now + (duration recording + 900))).
    eapply Forall_impl; [exact Hbounds|]. cbn. intros e He. lia. }
  split; [|split; [|split; [exact Hdel|exact Hdue]]].
  - unfold replaySchedule, replayHandles. cbn [fmap list_fmap].
    rewrite fmap_app, entryTimers_tid_seq. cbn [fmap list_fmap tid].
    change (seq (nextTimer σ) (S (S (length (timeline recording)))))
      with (nextTimer σ
              :: seq (S (nextTimer σ)) (S (length (timeline recording)))).
    rewrite (seq_S (length (timeline recording)) (S (nextTimer σ))).
    reflexivity.
  - rewrite Hdue. cbn [app].
    assert (Hall : Forall (fun x => now + 150 <= x)
              (((fun e => now + (t e + 350)) <$> timeline recording)
                 ++ [now + (duration recording + 900)])).
    { apply Forall_app. split.
      - apply Forall_fmap. eapply Forall_impl; [exact Hbounds|].
        cbn. intros e He. lia.
      - constructor; [lia|constructor]. }
    constructor; [|exact Hall].
    apply (sorted_snoc_block _ _ (now + (duration recording + 900))).
    + rewrite (list_fmap_compose t (fun x => now + (x + 350))).
      clear -Hsorted. induction Hsorted as [|x l Hl IH Hx]; cbn;
        constructor; [exact IH|].
      apply Forall_fmap. eapply Forall_impl; [exact Hx|]. cbn. lia.
    + apply Forall_fmap. eapply Forall_impl; [exact Hbounds|].
      cbn. intros e He. lia.
    + constructor; [reflexivity|constructor].
Qed.

(** ** The roster *)

Lemma handle_join socket now uname σ :
  handle socket now (Join uname) σ =
  let you := joined socket uname σ in
  let us := JsObj.set socket you (JsObj.delete socket (users (state σ))) in
  Ok tt (upd_colorIndex S (upd_state (upd_users (fun _ => us)) σ))
     [mkEmit (ToSocket socket) "init-state"
        (PInit (strokes (state σ)) (JsObj.values (tokens (state σ)))
               (arrows (state σ)) (JsObj.values us) you);
      mkEmit (ToOthers socket) "user-joined" (PUser you);
      mkEmit (ToOthers socket) "user-list" (PUsers (JsObj.values us))].
Proof. open_server σ. reflexivity. Qed.

Lemma handle_disconnect socket now σ :
  handle socket now Disconnect σ =
  let us := JsObj.delete socket (users (state σ)) in
  Ok tt (upd_state (upd_users (fun _ => us)) σ)
     (mkEmit (ToOthers socket) "cursor-remove" (PSocketId socket)
      :: match JsObj.get socket (users (state σ)) with
         | Some u => [mkEmit (ToOthers socket) "user-left" (PUser u)]
         | None => []
         end
      ++ [mkEmit (ToOthers socket) "user-list" (PUsers (JsObj.values us))]).
Proof.
  open_server σ. handler_eval. destruct (JsObj.get socket us); reflexivity.
Qed.

(** Only join and disconnect touch the roster and only join advances the
    colour counter. *)
Lemma roster_step a σ σ' out :
  step a σ = Ok tt σ' out ->
  (forall socket now uname, a <> Inbound socket now (Join uname)) ->
  (forall socket now, a <> Inbound socket now Disconnect) ->
  users (state σ') = users (state σ) /\ colorIndex σ' = colorIndex σ.
Proof.
  intros H Hj Hd. destruct a as [socket now msg|h]; cbn [step] in H.
  - destruct msg;
      try (destruct (Hj socket now uname eq_refl));
      try (destruct (Hd socket now eq_refl)).
    all: try (open_server σ; revert H; handler_eval;
              repeat (case_scrutinee; handler_eval);
              intros H; try discriminate; injection H as <- <-; cbn;
              split; reflexivity).
    + cbn [handle] in H.
      apply on_replay_start_cases in H
        as [[-> _]|(rc & sn & _ & _ & _ & -> & _)]; cbn; auto.
    + cbn [handle] in H.
      apply on_replay_stop_cases in H
        as [(_ & -> & _)|(s & _ & _ & -> & _)]; cbn; auto.
  - apply fire_cases in H as [[-> _]|(tm & _ & _ & H)]; [auto|].
    destruct (callback tm); cbn [runCallback] in H.
    + injection H as <- <-. destruct σ. cbn. auto.
    + injection H as <- <-. destruct σ. cbn. auto.
    + rewrite finishReplay_eq in H.
      destruct (preSnap _) as [s|]; [|discriminate].
      injection H as <- <-. destruct σ. cbn. auto.
Qed.

Lemma nth_palette n : In (nth (n mod length USER_COLORS) USER_COLORS "")
                         USER_COLORS.
Proof.
  apply nth_In. apply Nat.mod_upper_bound. cbn. discriminate.
Qed.

Lemma JsObj_delete_not_in {V} k (o : JsObj.t V) :
  ~ In k (JsObj.keys (JsObj.delete k o)).
Proof.
  unfold JsObj.keys.
  induction o as [|[k' v] o IH]; cbn; [tauto|].
  destruct (String.eqb_spec k' k); [exact IH|].
  cbn. intros [Heq|Hin]; [congruence|exact (IH Hin)].
Qed.

Lemma JsObj_set_absent {V} k (v : V) (o : JsObj.t V) :
  ~ In k (JsObj.keys o) -> JsObj.set k v o = o ++ [(k, v)].
Proof.
  unfold JsObj.keys.
  induction o as [|[k' v'] o IH]; cbn; [reflexivity|].
  intros Hn. destruct (String.eqb_spec k' k); [tauto|].
  rewrite IH; [reflexivity|tauto].
Qed.

Lemma JsObj_get_set {V} k (v : V) (o : JsObj.t V) :
  JsObj.get k (JsObj.set k v o) = Some v.
Proof.
  induction o as [|[k' v'] o IH]; cbn.
  - rewrite String.eqb_refl. reflexivity.
  - destruct (String.eqb k' k) eqn:E; cbn; rewrite E; [reflexivity|exact IH].
Qed.

Lemma usersInv_delete socket (us : JsObj.t User) :
  NoDup (JsObj.keys us) /\
  Forall (fun kv => u_id (snd kv) = fst kv /\
                    In (u_color (snd kv)) USER_COLORS) us ->
  NoDup (JsObj.keys (JsObj.delete socket us)) /\
  Forall (fun kv => u_id (snd kv) = fst kv /\
                    In (u_color (snd kv)) USER_COLORS)
         (JsObj.delete socket us).
Proof.
  intros [Hnd Hall]. split.
  - apply JsObj_delete_NoDup, Hnd.
  - apply JsObj_delete_Forall, Hall.
Qed.

Lemma usersInv_step a σ σ' out :
  usersInv σ -> step a σ = Ok tt σ' out -> usersInv σ'.
Proof.
  intros Hinv H.
  destruct a as [socket now msg|h].
  2:{ apply roster_step in H as [Hu _]; [|discriminate..].
      unfold usersInv. rewrite Hu. exact Hinv. }
  destruct msg.
  1:{ cbn [step] in H. rewrite handle_join in H. cbn zeta in H.
      injection H as <- _.
      apply (usersInv_delete socket) in Hinv as [Hnd Hall].
      pose proof (JsObj_delete_not_in socket (users (state σ))) as Hfresh.
      destruct σ as [[us ss ts ars] ? ? ? ? ? ? ? ? ? ? ?]; cbn in *.
      unfold usersInv. cbn.
      rewrite (JsObj_set_absent _ _ _ Hfresh). unfold JsObj.keys in *.
      split.
      - rewrite fmap_app. cbn. apply NoDup_app. split; [exact Hnd|].
        split; [|apply NoDup_singleton].
        intros x Hx Hx'. apply list_elem_of_In in Hx.
        apply list_elem_of_singleton in Hx'. subst x. exact (Hfresh Hx).
      - apply Forall_app. split; [exact Hall|].
        constructor; [|constructor]. cbn. split; [reflexivity|].
        apply nth_palette. }
  25:{ cbn [step] in H. rewrite handle_disconnect in H. cbn zeta in H.
       injection H as <- _.
       apply (usersInv_delete socket) in Hinv.
       destruct σ as [[us ss ts ars] ? ? ? ? ? ? ? ? ? ? ?]; exact Hinv. }
  all: apply roster_step in H as [Hu _];
    [unfold usersInv; rewrite Hu; exact Hinv|discriminate..].
Qed.

Lemma reachable_usersInv σ : reachable σ -> usersInv σ.
Proof.
  induction 1 as [|a σ1 σ2 out _ Hinv Hstep|σ presets recs _ _ Hp Hr].
  - split; constructor.
  - eapply usersInv_step; eassumption.
  - destruct (started_left σ presets recs Hp Hr) as (np & nr & -> & _).
    split; constructor.
Qed.

(** X11.  In every reachable state the roster lists each connection at
    most once, each user under the id of its own socket, and every user's
    colour is one of the eight palette colours. *)
Theorem roster_lists_each_connection_once σ :
  reachable σ -> usersInv σ.
Proof. apply reachable_usersInv. Qed.

Lemma values_delete socket (us : JsObj.t User) :
  Forall (fun kv => u_id (snd kv) = fst kv) us ->
  JsObj.values (JsObj.delete socket us) = others socket (JsObj.values us).
Proof.
  unfold JsObj.values, others.
  induction 1 as [|[k u] us Hk Hall IH]; cbn in *; [reflexivity|].
  rewrite Hk. destruct (String.eqb k socket); cbn; [exact IH|].
  rewrite IH. reflexivity.
Qed.

(** X12.  Join and disconnect on the roster.  In a reachable state a
    join by [socket] drops the entry the socket had, if any, and appends
    the new user, so a rejoining connection moves to the end of the list
    with a new colour; the joiner is sent that list in init-state and the
    other connections receive it as user-list.  A disconnect drops the
    socket's entry, keeps everyone else in order, and announces user-left
    exactly when the socket had joined. *)
Theorem join_and_disconnect_on_roster socket now uname σ :
  reachable σ ->
  (exists σ' out,
     handle socket now (Join uname) σ = Ok tt σ' out /\
     JsObj.values (users (state σ'))
       = others socket (JsObj.values (users (state σ)))
         ++ [joined socket uname σ] /\
     In (mkEmit (ToSocket socket) "init-state"
           (PInit (strokes (state σ)) (JsObj.values (tokens (state σ)))
                  (arrows (state σ)) (JsObj.values (users (state σ')))
                  (joined socket uname σ))) out /\
     In (mkEmit (ToOthers socket) "user-list"
           (PUsers (JsObj.values (users (state σ'))))) out) /\
  (exists σ' out,
     handle socket now Disconnect σ = Ok tt σ' out /\
     JsObj.values (users (state σ'))
       = others socket (JsObj.values (users (state σ))) /\
     In (mkEmit (ToOthers socket) "user-list"
           (PUsers (JsObj.values (users (state σ'))))) out /\
     (forall u, In (mkEmit (ToOthers socket) "user-left" (PUser u)) out <->
                JsObj.get socket (users (state σ)) = Some u)).
Proof.
  intros Hreach. destruct (reachable_usersInv σ Hreach) as [Hnd Hall].
  assert (Hids : Forall (fun kv : string * User => u_id (snd kv) = fst kv)
                   (users (state σ))).
  { eapply Forall_impl; [exact Hall|]. cbn. tauto. }
  split.
  - rewrite handle_join. cbn zeta. do 2 eexists. split; [reflexivity|].
    pose proof (JsObj_delete_not_in socket (users (state σ))) as Hfresh.
    destruct σ as [[us ss ts ars] ? ? ? ? ? ? ? ? ? ? ?]; cbn in *.
    rewrite (JsObj_set_absent _ _ _ Hfresh).
    split; [|split; [left; reflexivity|right; right; left; reflexivity]].
    unfold JsObj.values. rewrite fmap_app. cbn.
    f_equal. apply values_delete, Hids.
  - rewrite handle_disconnect. cbn zeta. do 2 eexists.
    split; [reflexivity|].
    destruct σ as [[us ss ts ars] ? ? ? ? ? ? ? ? ? ? ?]; cbn in *.
    split; [apply values_delete, Hids|].
    split.
    + right. apply in_or_app. right. left. reflexivity.
    + intros u. destruct (JsObj.get socket us) as [u'|]; cbn; split.
      * intros [Heq|[Heq|[Heq|[]]]]; congruence.
      * intros [= ->]. right. left. reflexivity.
      * intros [Heq|[Heq|[]]]; congruence.
      * discriminate.
Qed.

(** ** Colours *)

Lemma colorIndex_run turns : forall σ σ' out,
  run turns σ = Ok tt σ' out ->
  colorIndex σ' = (colorIndex σ + joins turns)%nat.
Proof.
  induction turns as [|a turns IH]; intros σ σ' out H.
  - cbn in H. unfold ret in H. injection H as <- _. cbn. lia.
  - rewrite run_cons in H.
    destruct (step a σ) as [[] σ1 out1|] eqn:E; [|discriminate].
    destruct (run turns σ1) as [[] σ2 out2|] eqn:E2; [|discriminate].
    injection H as <- _.
    rewrite (IH _ _ _ E2).
    assert (Hone : colorIndex σ1 =
                   (colorIndex σ + joins [a])%nat).
    { destruct a as [socket now msg|h].
      2:{ apply roster_step in E as [_ Hc]; [|discriminate..].
          cbn. lia. }
      destruct msg.
      1:{ cbn [step] in E. rewrite handle_join in E. cbn zeta in E.
          injection E as <- _. destruct σ; cbn. lia. }
      25:{ cbn [step] in E. rewrite handle_disconnect in E. cbn zeta in E.
           injection E as <- _. destruct σ; cbn. lia. }
      all: apply roster_step in E as [_ Hc]; [|discriminate..]; cbn; lia. }
    rewrite Hone. unfold joins. cbn [List.filter].
    destruct a as [? ? []|]; cbn; lia.
Qed.

(** X13.  Colours are handed out in rotation.  After any run from the
    start, the next connection to join is registered with, and told in
    init-state, the palette colour at position k mod 8, where k is the
    number of joins so far, whether or not those users are still
    connected. *)
Theorem join_colours_rotate turns σ out socket now uname :
  run turns init = Ok tt σ out ->
  exists σ' out',
    handle socket now (Join uname) σ = Ok tt σ' out' /\
    joined socket uname σ
      = mkUser socket uname (nth (joins turns mod 8) USER_COLORS "") /\
    JsObj.get socket (users (state σ')) = Some (joined socket uname σ) /\
    In (joined socket uname σ) (JsObj.values (users (state σ'))) /\
    exists ss tks ars us,
      In (mkEmit (ToSocket socket) "init-state"
            (PInit ss tks ars us (joined socket uname σ))) out'.
Proof.
  intros H. rewrite handle_join. cbn zeta. do 2 eexists.
  split; [reflexivity|].
  split.
  { unfold joined. rewrite (colorIndex_run _ _ _ _ H). reflexivity. }
  pose proof (JsObj_delete_not_in socket (users (state σ))) as Hfresh.
  destruct σ as [[us ss ts ars] ? ? ? ? ? ? ? ? ? ? ?]; cbn in *.
  split; [apply JsObj_get_set|].
  rewrite (JsObj_set_absent _ _ _ Hfresh).
  split.
  - unfold JsObj.values. rewrite fmap_app. apply in_or_app. right.
    left. reflexivity.
  - do 4 eexists. left. reflexivity.
Qed.

(** ** Removal by id *)

Lemma includes_cons id' ids id :
  includes (id' :: ids) id = String.eqb id id' || includes ids id.
Proof. reflexivity. Qed.

Lemma filter_filter {A} (p q : A -> bool) (l : list A) :
  List.filter q (List.filter p l) = List.filter (fun x => p x && q x) l.
Proof.
  induction l as [|x l IH]; cbn; [reflexivity|].
  destruct (p x); cbn; [destruct (q x)|]; rewrite IH; reflexivity.
Qed.

Lemma filter_ext_bool {A} (p q : A -> bool) (l : list A) :
  (forall x, p x = q x) -> List.filter p l = List.filter q l.
Proof.
  intros H. induction l as [|x l IH]; cbn; [reflexivity|].
  rewrite H, IH. reflexivity.
Qed.

Lemma removeById_filter {A} (idOf : A -> string) (l : list A) id :
  NoDup (idOf <$> l) ->
  removeById idOf l id
  = List.filter (fun x => negb (String.eqb (idOf x) id)) l.
Proof.
  intros Hnd. unfold removeById.
  destruct (findIndex _ l) as [idx|] eqn:E.
  - apply (splice1_first_is_filter idOf String.eqb id l idx);
      [apply String.eqb_eq|exact Hnd|exact E].
  - symmetry. apply (filter_none (fun x => String.eqb (idOf x) id)).
    apply findIndex_None_Forall, E.
Qed.

(** With distinct ids the server's removal loop drops exactly the
    elements whose id is listed. *)
Lemma removeByIds_unlisted {A} (idOf : A -> string) ids : forall l : list A,
  NoDup (idOf <$> l) -> removeByIds idOf ids l = unlisted idOf ids l.
Proof.
  unfold removeByIds, unlisted.
  induction ids as [|id ids IH]; intros l Hnd; cbn [fold_left].
  - symmetry. apply (filter_none (fun _ => false)).
    apply Forall_forall. reflexivity.
  - rewrite IH by (apply removeById_NoDup, Hnd).
    rewrite (removeById_filter idOf l id Hnd), filter_filter.
    apply filter_ext_bool. intros x. rewrite includes_cons.
    destruct (String.eqb (idOf x) id); reflexivity.
Qed.

(** X14.  Whenever the stored arrows have distinct ids, arrow-remove
    removes exactly the arrows whose ids are listed, whatever the order
    of the list and however often an id is repeated in it; stroke-remove
    does so whenever the stored strokes have distinct ids.  Both send
    the list to every connection and leave the other collections
    alone. *)
Theorem remove_drops_exactly_the_listed socket now ids σ :
  (NoDup (a_id <$> arrows (state σ)) ->
   exists σ' out,
     handle socket now (ArrowRemove ids) σ = Ok tt σ' out /\
     arrows (state σ') = unlisted a_id ids (arrows (state σ)) /\
     strokes (state σ') = strokes (state σ) /\
     tokens (state σ') = tokens (state σ) /\
     out = [mkEmit ToAll "arrow-remove" (PIds ids)]) /\
  (NoDup (s_id <$> strokes (state σ)) ->
   exists σ' out,
     handle socket now (StrokeRemove ids) σ = Ok tt σ' out /\
     strokes (state σ') = unlisted s_id ids (strokes (state σ)) /\
     arrows (state σ') = arrows (state σ) /\
     tokens (state σ') = tokens (state σ) /\
     out = [mkEmit ToAll "stroke-remove" (PIds ids)]).
Proof.
  split.
  - intros Hnd. open_server σ. handler_eval.
    destruct ra; cbn; do 2 eexists; (split; [reflexivity|]); cbn;
      (split; [apply removeByIds_unlisted, Hnd|auto]).
  - intros Hs. open_server σ. handler_eval.
    destruct ra; cbn; do 2 eexists; (split; [reflexivity|]); cbn;
      (split; [apply removeByIds_unlisted, Hs|auto]).
Qed.

(** ** Strokes *)

Lemma findIndex_app_l {A} (p : A -> bool) (l k : list A) idx :
  findIndex p l = Some idx -> findIndex p (l ++ k) = Some idx.
Proof.
  revert idx. induction l as [|x l IH]; intros idx; cbn; [discriminate|].
  destruct (p x); [auto|].
  destruct (findIndex p l) as [i|]; cbn; [|discriminate].
  intros [= <-]. rewrite (IH i eq_refl). reflexivity.
Qed.

Lemma splice1_app_l {A} (l k : list A) idx :
  (idx < length l)%nat -> splice1 idx (l ++ k) = splice1 idx l ++ k.
Proof.
  revert idx. induction l as [|x l IH]; intros idx; cbn; [lia|].
  destruct idx as [|i]; [reflexivity|]. intros Hi. cbn.
  rewrite IH by lia. reflexivity.
Qed.

Lemma findIndex_lt {A} (p : A -> bool) (l : list A) idx :
  findIndex p l = Some idx -> (idx < length l)%nat.
Proof.
  revert idx. induction l as [|x l IH]; intros idx; cbn; [discriminate|].
  destruct (p x); [intros [= <-]; lia|].
  destruct (findIndex p l) as [i|]; cbn; [|discriminate].
  intros [= <-]. specialize (IH i eq_refl). lia.
Qed.

Lemma findIndex_snoc_fresh {A} (p : A -> bool) (l : list A) x :
  findIndex p l = None -> p x = true ->
  findIndex p (l ++ [x]) = Some (length l).
Proof.
  intros Hn Hx. induction l as [|y l IH]; cbn in *.
  - rewrite Hx. reflexivity.
  - destruct (p y); [discriminate|].
    destruct (findIndex p l); [discriminate|].
    rewrite IH by reflexivity. reflexivity.
Qed.

Lemma splice1_last {A} (l : list A) x : splice1 (length l) (l ++ [x]) = l.
Proof.
  induction l as [|y l IH]; cbn; [reflexivity|]. rewrite IH. reflexivity.
Qed.

Lemma removeById_snoc {A} (idOf : A -> string) (l : list A) x :
  removeById idOf (l ++ [x]) (idOf x)
  = if hasId idOf l (idOf x) then removeById idOf l (idOf x) ++ [x] else l.
Proof.
  unfold removeById, hasId.
  destruct (findIndex (fun y => String.eqb (idOf y) (idOf x)) l) as [idx|]
    eqn:E.
  - rewrite (findIndex_app_l _ _ _ _ E).
    rewrite splice1_app_l by (eapply findIndex_lt, E).
    destruct (existsb _ l) eqn:Ex; [reflexivity|].
    apply findIndex_None in Ex. congruence.
  - rewrite (findIndex_snoc_fresh _ _ _ E) by apply String.eqb_refl.
    apply findIndex_None in E. rewrite E. apply splice1_last.
Qed.

(** X15.  stroke-done followed by stroke-remove of the same id.  The
    server stores the stroke under the id the client chose, checking
    nothing.  When no stored stroke had that id the pair leaves the
    strokes as they were.  When one had, the removal takes the oldest
    stroke with the id and the stroke just added stays. *)
Theorem stroke_done_then_remove socket now stroke socket' now' σ :
  exists σ' out,
    run [Inbound socket now (StrokeDone stroke);
         Inbound socket' now' (StrokeRemove [s_id stroke])] σ
    = Ok tt σ' out /\
    out = [mkEmit (ToOthers socket) "stroke-done"
             (PStroke (savedStroke socket stroke));
           mkEmit ToAll "stroke-remove" (PIds [s_id stroke])] /\
    strokes (state σ')
    = (if hasId s_id (strokes (state σ)) (s_id stroke)
       then removeById s_id (strokes (state σ)) (s_id stroke)
            ++ [savedStroke socket stroke]
       else strokes (state σ)) /\
    arrows (state σ') = arrows (state σ) /\
    tokens (state σ') = tokens (state σ).
Proof.
  pose proof (removeById_snoc s_id (strokes (state σ))
                (savedStroke socket stroke)) as Hrm.
  cbn [s_id savedStroke] in Hrm. fold (savedStroke socket stroke) in Hrm.
  open_server σ. cbn [run step]. handler_eval.
  destruct ra; cbn; do 2 eexists; (split; [reflexivity|]); cbn;
    (split; [reflexivity|]); (split; [exact Hrm|auto]).
Qed.

(** ** Tokens *)

Lemma JsObj_delete_set_fresh {V} k (v : V) (o : JsObj.t V) :
  JsObj.get k o = None -> JsObj.delete k (JsObj.set k v o) = o.
Proof.
  induction o as [|[k' v'] o IH]; cbn.
  - rewrite String.eqb_refl. reflexivity.
  - destruct (String.eqb k' k) eqn:E; [discriminate|]. cbn. rewrite E.
    intros H. rewrite IH by assumption. reflexivity.
Qed.

(** X16.  token-add followed by token-remove of the announced id.
    Whenever the store holds no token under the id that the counter
    gives next, the pair leaves the store exactly as it was, both
    messages go to every connection, and the counter stays advanced. *)
Theorem token_add_then_remove socket now token socket' now' σ :
  JsObj.get (tokenIdOf (nextTokenId σ)) (tokens (state σ)) = None ->
  exists σ' out,
    run [Inbound socket now (TokenAdd token);
         Inbound socket' now' (TokenRemove (tokenIdOf (nextTokenId σ)))] σ
    = Ok tt σ' out /\
    out = [mkEmit ToAll "token-add" (PToken (addedToken token σ));
           mkEmit ToAll "token-remove"
             (PTokenId (tokenIdOf (nextTokenId σ)))] /\
    store σ' = store σ /\
    nextTokenId σ' = S (nextTokenId σ).
Proof.
  unfold store, addedToken. open_server σ. intros Hfresh.
  cbn [run step]. handler_eval.
  destruct ra; cbn; do 2 eexists; (split; [reflexivity|]); cbn;
    (split; [reflexivity|]);
    rewrite (JsObj_delete_set_fresh _ _ _ Hfresh); auto.
Qed.

Lemma values_set_present id (f : Token -> Token) (o : JsObj.t Token) tk :
  NoDup (JsObj.keys o) ->
  Forall (fun kv => t_id (snd kv) = fst kv) o ->
  JsObj.get id o = Some tk ->
  JsObj.values (JsObj.set id (f tk) o) = updateToken id f (JsObj.values o).
Proof.
  unfold JsObj.keys, JsObj.values, updateToken.
  intros Hnd Hall. revert Hnd.
  induction Hall as [|[k v] o Hk Hall IH]; cbn in *; [discriminate|].
  rewrite NoDup_cons. intros [Hn Hnd]. rewrite Hk.
  destruct (String.eqb k id) eqn:E; cbn.
  - intros [= ->]. f_equal. apply String.eqb_eq in E. subst k.
    clear IH. induction Hall as [|[k' v'] o' Hk' Hall' IH']; cbn in *;
      [reflexivity|].
    rewrite not_elem_of_cons in Hn. destruct Hn as [Hne Hn].
    apply NoDup_cons in Hnd as [_ Hnd].
    rewrite Hk'. destruct (String.eqb_spec k' id); [congruence|].
    rewrite <- IH' by assumption. reflexivity.
  - intros Hget. rewrite (IH Hnd Hget). reflexivity.
Qed.

(** X17.  token-move and token-relabel change one token in place.  For a
    token that is in the store of a reachable state, token-move replaces
    its coordinates and token-relabel its label; the token keeps its id,
    colour, shape, creator and its place in the list shown to clients,
    and every other token is as before.  token-move is passed on to the
    other connections only, token-relabel to every connection. *)
Theorem token_move_and_relabel_in_place socket now id tk σ :
  reachable σ ->
  JsObj.get id (tokens (state σ)) = Some tk ->
  t_id tk = id /\
  (forall x y, exists σ' out,
     handle socket now (TokenMove id x y) σ = Ok tt σ' out /\
     JsObj.values (tokens (state σ'))
       = updateToken id (movedTo x y) (JsObj.values (tokens (state σ))) /\
     strokes (state σ') = strokes (state σ) /\
     arrows (state σ') = arrows (state σ) /\
     out = [mkEmit (ToOthers socket) "token-move" (PTokenMove id x y)]) /\
  (forall lbl, exists σ' out,
     handle socket now (TokenRelabel id lbl) σ = Ok tt σ' out /\
     JsObj.values (tokens (state σ'))
       = updateToken id (relabelled lbl) (JsObj.values (tokens (state σ))) /\
     strokes (state σ') = strokes (state σ) /\
     arrows (state σ') = arrows (state σ) /\
     out = [mkEmit ToAll "token-relabel" (PTokenLabel id lbl)]).
Proof.
  intros Hreach Hget.
  destruct (reachable_keyedInv σ Hreach) as ([Hnd Hids] & _).
  split.
  { exact (JsObj_get_Forall _ _ _ _ Hids Hget). }
  pose proof (fun f => values_set_present id f _ tk Hnd Hids Hget) as Hset.
  revert Hget Hset. open_server σ. intros Hget Hset. split.
  - intros x y. handler_eval. rewrite Hget. handler_eval.
    destruct ra; cbn; do 2 eexists; (split; [reflexivity|]); cbn;
      (split; [exact (Hset (movedTo x y))|auto]).
  - intros lbl. handler_eval. rewrite Hget. handler_eval.
    destruct ra; cbn; do 2 eexists; (split; [reflexivity|]); cbn;
      (split; [exact (Hset (relabelled lbl))|auto]).
Qed.

(** ** The client's listeners *)

Lemma pushAll_app {A} (xs : list A) : forall arr,
  Canvas.pushAll xs arr = arr ++ xs.
Proof.
  unfold Canvas.pushAll. induction xs as [|x xs IH]; intros arr; cbn.
  - rewrite app_nil_r. reflexivity.
  - rewrite IH, <- app_assoc. reflexivity.
Qed.

Lemma deleteAll_from (ks : list string) : forall o : JsObj.t Token,
  (forall k, In k (JsObj.keys o) -> In k ks) ->
  fold_left (fun o k => JsObj.delete k o) ks o = [].
Proof.
  induction ks as [|k ks IH]; intros o Hsub; cbn.
  - destruct o as [|[k v] o]; [reflexivity|].
    destruct (Hsub k (or_introl eq_refl)).
  - apply IH. intros k' Hin.
    assert (Hk' : k' <> k).
    { intros ->. exact (JsObj_delete_not_in _ _ Hin). }
    apply list_elem_of_In, JsObj_delete_keys, list_elem_of_In in Hin.
    destruct (Hsub k' Hin) as [Heq|Hks]; [congruence|exact Hks].
Qed.

Lemma deleteAll_nil o : Canvas.deleteAll o = [].
Proof. apply deleteAll_from. auto. Qed.

Lemma putAll_values (o2 : JsObj.t Token) : forall o1,
  NoDup (JsObj.keys (o1 ++ o2)) ->
  Forall (fun kv => t_id (snd kv) = fst kv) o2 ->
  Canvas.putAll (JsObj.values o2) o1 = o1 ++ o2.
Proof.
  unfold Canvas.putAll, JsObj.values, JsObj.keys.
  induction o2 as [|[k v] o2 IH]; intros o1 Hnd Hall; cbn.
  - rewrite app_nil_r. reflexivity.
  - apply Forall_cons in Hall as [Hk Hall]. cbn in Hk. rewrite Hk.
    rewrite JsObj_set_fresh.
    + rewrite IH; [rewrite <- app_assoc; reflexivity| |exact Hall].
      rewrite <- app_assoc. exact Hnd.
    + apply JsObj_get_None. unfold JsObj.keys.
      rewrite fmap_app in Hnd. apply NoDup_app in Hnd as (_ & Hdisj & _).
      intros Hin. apply (Hdisj k Hin). cbn. left.
Qed.

Lemma applyBoardSnapshot_store (s : Snapshot) c :
  NoDup (JsObj.keys (snap_tokens s)) ->
  Forall (fun kv => t_id (snd kv) = fst kv) (snap_tokens s) ->
  Canvas.applyBoardSnapshot (snap_strokes s) (snap_arrows s)
    (JsObj.values (snap_tokens s)) c
  = Canvas.ofStore s.
Proof.
  intros Hnd Hall. unfold Canvas.applyBoardSnapshot, Canvas.ofStore.
  rewrite !pushAll_app, deleteAll_nil, (putAll_values _ [] Hnd Hall).
  reflexivity.
Qed.

Lemma nth_error_middle {A} (l1 l2 : list A) x :
  nth_error (l1 ++ x :: l2) (length l1) = Some x.
Proof. induction l1 as [|y l1 IH]; cbn; [reflexivity|exact IH]. Qed.

Lemma splice1_middle {A} (l1 l2 : list A) x :
  splice1 (length l1) (l1 ++ x :: l2) = l1 ++ l2.
Proof.
  induction l1 as [|y l1 IH]; cbn; [reflexivity|]. rewrite IH. reflexivity.
Qed.

Lemma removeFrom_prefix {A} (idOf : A -> string) ids (l1 : list A) :
  forall l2,
    Canvas.removeFrom idOf ids (length l1) (l1 ++ l2)
    = unlisted idOf ids l1 ++ l2.
Proof.
  unfold unlisted.
  induction l1 as [|x l1 IH] using rev_ind; intros l2; [reflexivity|].
  rewrite length_app, Nat.add_comm. cbn [length Nat.add Canvas.removeFrom].
  rewrite <- app_assoc. cbn [app].
  rewrite nth_error_middle, List.filter_app. cbn [List.filter].
  destruct (includes ids (idOf x)); cbn [negb].
  - rewrite splice1_middle, IH, app_nil_r. reflexivity.
  - rewrite IH, <- app_assoc. reflexivity.
Qed.

(** X18.  The removal loop of the client's stroke-remove and
    arrow-remove listeners, which walks the array backwards and splices,
    leaves exactly the elements whose id is not listed, in their order.
    The server's loop, which removes the first element found for each
    listed id, gives the same array whenever the ids in the array are
    distinct. *)
Theorem client_removal_loop {A} (idOf : A -> string) ids (arr : list A) :
  Canvas.removeListed idOf ids arr = unlisted idOf ids arr /\
  (NoDup (idOf <$> arr) ->
   removeByIds idOf ids arr = Canvas.removeListed idOf ids arr).
Proof.
  assert (H : Canvas.removeListed idOf ids arr = unlisted idOf ids arr).
  { unfold Canvas.removeListed.
    rewrite <- (app_nil_r arr) at 2.
    rewrite removeFrom_prefix, app_nil_r. reflexivity. }
  split; [exact H|].
  intros Hnd. rewrite H. apply removeByIds_unlisted, Hnd.
Qed.

(** ** Clients and the store *)

Lemma view_finishMessages conn (s : Snapshot) c :
  keyed (snap_tokens s) ->
  Canvas.view conn (finishMessages s) c = Canvas.ofStore s.
Proof.
  intros [Hnd Hall].
  unfold Canvas.view, inbox, finishMessages. cbn.
  apply applyBoardSnapshot_store; assumption.
Qed.

Lemma view_presetMessages conn (s : Snapshot) c :
  keyed (snap_tokens s) ->
  Canvas.view conn (presetMessages s) c = Canvas.ofStore s.
Proof.
  intros [Hnd Hall].
  unfold Canvas.view, inbox, presetMessages. cbn.
  apply applyBoardSnapshot_store; assumption.
Qed.

(** X19.  A connection that joins is shown the store.  In a reachable
    state, whatever the joining client's canvas held before, once it has
    handled the messages join sends to it, its strokes, arrows and tokens
    are exactly those of the server's store, which join leaves
    unchanged. *)
Theorem joiner_is_shown_the_store conn now uname σ c :
  reachable σ ->
  exists σ' out,
    handle conn now (Join uname) σ = Ok tt σ' out /\
    store σ' = store σ /\
    Canvas.view conn out c = Canvas.ofStore (store σ).
Proof.
  intros Hreach.
  destruct (reachable_keyedInv σ Hreach) as ([Hnd Hall] & _).
  rewrite handle_join. cbn zeta. do 2 eexists. split; [reflexivity|].
  split; [destruct σ; reflexivity|].
  unfold Canvas.view, inbox. cbn. rewrite String.eqb_refl. cbn.
  apply (applyBoardSnapshot_store (store σ)); assumption.
Qed.

Lemma removeListed_unlisted {A} (idOf : A -> string) ids (arr : list A) :
  Canvas.removeListed idOf ids arr = unlisted idOf ids arr.
Proof.
  unfold Canvas.removeListed.
  rewrite <- (app_nil_r arr) at 2.
  rewrite removeFrom_prefix, app_nil_r. reflexivity.
Qed.

Lemma removeListed_server {A} (idOf : A -> string) ids (arr : list A) :
  NoDup (idOf <$> arr) ->
  Canvas.removeListed idOf ids arr = removeByIds idOf ids arr.
Proof.
  intros Hnd. rewrite removeListed_unlisted.
  symmetry. apply removeByIds_unlisted, Hnd.
Qed.

Lemma store_restoreState s σ : store (upd_state (restoreState s) σ) = s.
Proof. destruct s. reflexivity. Qed.

Ltac sync_eval :=
  unfold Canvas.view, inbox, Canvas.ofStore, store; cbn;
  repeat match goal with
         | |- context [String.eqb ?a ?b] =>
             destruct (String.eqb a b); cbn
         end.

Ltac sync_simple σ :=
  open_server σ; handler_eval;
  repeat (case_scrutinee; handler_eval);
  do 2 eexists; (split; [reflexivity|]); sync_eval; try reflexivity.

Lemma sync_finish conn s σ :
  keyed (snap_tokens s) ->
  preSnap (rep σ) = Some s ->
  exists σ' out,
    finishReplay σ = Ok tt σ' out /\
    Canvas.view conn out (Canvas.ofStore (store σ))
    = Canvas.ofStore (store σ').
Proof.
  intros Hok Hpre. rewrite finishReplay_eq, Hpre. do 2 eexists.
  split; [reflexivity|].
  rewrite store_replayFinished. eapply view_finishMessages, Hok.
Qed.

(** X20.  A client that shows the store keeps showing it.  In a
    reachable state, take a connection whose canvas holds exactly the
    strokes, arrows and tokens of the store.  After any inbound event
    other than replay-start, from any connection, or the firing of the
    end-of-replay timer, and once the connection has handled the
    messages addressed to it, its canvas again holds exactly the store.
    For stroke-done, token-move and arrow-done this is about the
    connections other than the sender; for stroke-remove it needs the
    stored strokes to have distinct ids, and for arrow-remove the stored
    arrows. *)
Theorem observer_stays_in_sync conn a σ :
  reachable σ ->
  syncKeeping conn σ a ->
  exists σ' out,
    step a σ = Ok tt σ' out /\
    Canvas.view conn out (Canvas.ofStore (store σ))
    = Canvas.ofStore (store σ').
Proof.
  intros Hreach Hk.
  pose proof (reachable_keyedInv σ Hreach) as Hids.
  pose proof (reachable_replayInv σ Hreach) as (Hpre & Hidle & Hpend).
  destruct a as [socket now msg|h]; cbn [step].
  - destruct msg; cbn in Hk.
    + (* join *)
      destruct Hids as ([Hnd Hall] & _).
      rewrite handle_join. cbn zeta. do 2 eexists. split; [reflexivity|].
      unfold Canvas.view, inbox. cbn.
      destruct (String.eqb socket conn); cbn.
      * replace (store _) with (store σ) by (destruct σ; reflexivity).
        apply (applyBoardSnapshot_store (store σ)); assumption.
      * destruct σ; reflexivity.
    + sync_simple σ.
    + apply String.eqb_neq in Hk. open_server σ. handler_eval.
      destruct ra; cbn; do 2 eexists; (split; [reflexivity|]);
        unfold Canvas.view, inbox, Canvas.ofStore, store; cbn;
        rewrite Hk; reflexivity.
    + pose proof (removeListed_server s_id ids _ Hk) as Hrm.
      revert Hrm. open_server σ. intros Hrm. handler_eval.
      destruct ra; cbn; do 2 eexists; (split; [reflexivity|]);
        unfold Canvas.view, inbox, Canvas.ofStore, store; cbn;
        rewrite Hrm; reflexivity.
    + sync_simple σ.
    + apply String.eqb_neq in Hk. open_server σ. handler_eval.
      destruct (JsObj.get id ts) as [tk|] eqn:Hget; handler_eval.
      * destruct ra; cbn; do 2 eexists; (split; [reflexivity|]);
          unfold Canvas.view, inbox, Canvas.ofStore, store; cbn;
          rewrite Hk; cbn; rewrite Hget; reflexivity.
      * destruct (JsObj.inherited id); handler_eval;
          [|do 2 eexists; split; reflexivity].
        destruct ra; cbn; do 2 eexists; (split; [reflexivity|]);
          unfold Canvas.view, inbox, Canvas.ofStore, store; cbn;
          rewrite Hk; cbn; rewrite Hget; reflexivity.
    + sync_simple σ.
    + open_server σ. handler_eval.
      destruct (JsObj.get id ts) as [tk|] eqn:Hget; handler_eval;
        destruct ra; cbn; do 2 eexists; (split; [reflexivity|]);
        unfold Canvas.view, inbox, Canvas.ofStore, store; cbn;
        rewrite Hget; reflexivity.
    + apply String.eqb_neq in Hk. open_server σ. handler_eval.
      destruct ra; cbn; do 2 eexists; (split; [reflexivity|]);
        unfold Canvas.view, inbox, Canvas.ofStore, store; cbn;
        rewrite Hk; reflexivity.
    + pose proof (removeListed_server a_id ids _ Hk) as Hrm.
      revert Hrm. open_server σ. intros Hrm. handler_eval.
      destruct ra; cbn; do 2 eexists; (split; [reflexivity|]);
        unfold Canvas.view, inbox, Canvas.ofStore, store; cbn;
        rewrite Hrm; reflexivity.
    + open_server σ. handler_eval.
      destruct ra; cbn; do 2 eexists; (split; [reflexivity|]);
        unfold Canvas.view, inbox, Canvas.ofStore, store; cbn;
        rewrite (deleteAll_from _ ts) by auto; reflexivity.
    + sync_simple σ.
    + sync_simple σ.
    + rewrite handle_recording_start.
      destruct (_ || _); do 2 eexists; (split; [reflexivity|]);
        [reflexivity|]. destruct σ; reflexivity.
    + rewrite handle_recording_stop.
      destruct (rec_active _); do 2 eexists; (split; [reflexivity|]);
        [|reflexivity]. destruct σ; reflexivity.
    + destruct Hk.
    + cbn [handle]. unfold on_replay_stop, bind, get.
      destruct (rep_active (rep σ)) eqn:Hact.
      2:{ do 2 eexists. split; reflexivity. }
      destruct (preSnap (rep σ)) as [s|] eqn:Es;
        [|destruct (Hpre eq_refl eq_refl)].
      destruct Hids as (_ & Hs & _). rewrite Es in Hs. cbn in Hs.
      destruct (sync_finish conn s σ Hs Es) as (σ' & out & -> & Hv).
      exists σ', out. split; [reflexivity|]. exact Hv.
    + sync_simple σ.
    + rewrite handle_rename_recording.
      destruct (find _ _); do 2 eexists; (split; [reflexivity|]);
        [|reflexivity]. destruct σ; reflexivity.
    + rewrite handle_delete_recording.
      destruct (findIndex _ _); do 2 eexists; (split; [reflexivity|]);
        [|reflexivity]. destruct σ; reflexivity.
    + rewrite handle_save_preset. do 2 eexists. split; [reflexivity|].
      unfold Canvas.view, inbox. cbn.
      destruct (String.eqb socket conn); destruct σ; reflexivity.
    + rewrite handle_load_preset.
      destruct (find _ _) as [preset|] eqn:Hfind.
      2:{ do 2 eexists. split; reflexivity. }
      do 2 eexists. split; [reflexivity|].
      apply find_Some in Hfind as [Hin _].
      destruct Hids as (_ & _ & _ & _ & Hps).
      rewrite Forall_forall in Hps.
      pose proof (Hps preset (proj2 (list_elem_of_In _ _) Hin)) as Hs.
      rewrite store_restoreState.
      apply (view_presetMessages conn (presetSnap preset) _ Hs).
    + rewrite handle_rename_preset.
      destruct (find _ _); do 2 eexists; (split; [reflexivity|]);
        [|reflexivity]. destruct σ; reflexivity.
    + rewrite handle_delete_preset.
      destruct (findIndex _ _); do 2 eexists; (split; [reflexivity|]);
        [|reflexivity]. destruct σ; reflexivity.
    + sync_simple σ.
    + rewrite handle_disconnect. cbn zeta. do 2 eexists.
      split; [reflexivity|].
      unfold Canvas.view, inbox. cbn.
      destruct (negb (String.eqb socket conn));
        destruct (JsObj.get socket (users (state σ))); cbn;
        rewrite ?List.filter_app; cbn;
        destruct (negb (String.eqb socket conn)); cbn;
        destruct σ; reflexivity.
  - cbn in Hk. unfold fire, bind, get.
    destruct (find _ (pending σ)) as [tm|] eqn:Hfind.
    2:{ do 2 eexists. split; reflexivity. }
    unfold modify. rewrite Hk. cbn [runCallback].
    apply find_Some in Hfind as [Hin _].
    assert (Hsome : exists s, preSnap (rep σ) = Some s).
    { destruct (preSnap (rep σ)) as [s|] eqn:Es; [eauto|]. exfalso.
      destruct (rep_active (rep σ)) eqn:Hact; [exact (Hpre eq_refl eq_refl)|].
      rewrite Forall_forall in Hpend.
      specialize (Hpend tm (proj2 (list_elem_of_In _ _) Hin)).
      rewrite Hk, (Hidle eq_refl) in Hpend. destruct (Hpend eq_refl). }
    destruct Hsome as [s Es].
    destruct Hids as (_ & Hs & _). rewrite Es in Hs. cbn in Hs.
    destruct (sync_finish conn s
                (upd_pending (List.filter
                   (fun tm => negb (Nat.eqb (tid tm) h))) σ) Hs)
      as (σ' & out & Hfin & Hv); [destruct σ; exact Es|].
    rewrite Hfin. exists σ', out. split; [reflexivity|].
    replace (store σ) with
      (store (upd_pending (List.filter
                (fun tm => negb (Nat.eqb (tid tm) h))) σ))
      by (destruct σ; reflexivity).
    exact Hv.
Qed.

(** X21.  The end of a replay brings every client back to the store.
    In a reachable state with an active replay, after a replay-stop or
    the firing of the end-of-replay timer, every connection that handles
    the messages sent ends with exactly the strokes, arrows and tokens of
    the server's store, whatever its canvas showed during the replay. *)
Theorem replay_end_resyncs_every_client σ a :
  reachable σ ->
  rep_active (rep σ) = true ->
  endsReplay σ a ->
  exists σ' out,
    step a σ = Ok tt σ' out /\
    forall conn c, Canvas.view conn out c = Canvas.ofStore (store σ').
Proof.
  intros Hreach Hact Hend.
  pose proof (reachable_keyedInv σ Hreach) as (_ & Hs & _).
  pose proof (reachable_replayInv σ Hreach) as (Hpre & _).
  destruct (preSnap (rep σ)) as [s|] eqn:Es; [|destruct (Hpre Hact eq_refl)].
  cbn in Hs.
  destruct Hend as [(socket & now & ->)|(h & tm & -> & Hfind & Hcb)];
    cbn [step handle].
  - unfold on_replay_stop, bind, get. rewrite Hact, finishReplay_eq, Es.
    do 2 eexists. split; [reflexivity|]. intros conn c.
    rewrite store_replayFinished. cbn [app].
    eapply view_finishMessages, Hs.
  - unfold fire, bind, get. rewrite Hfind. unfold modify.
    rewrite Hcb. cbn [runCallback]. rewrite finishReplay_eq.
    replace (preSnap (rep (upd_pending _ σ))) with (Some s)
      by (destruct σ; symmetry; exact Es).
    do 2 eexists. split; [reflexivity|]. intros conn c.
    rewrite store_replayFinished. cbn [app].
    eapply view_finishMessages, Hs.
Qed.

(** X22.  load-preset shows every client the preset.  In a reachable
    state, loading a preset that exists makes the store the board the
    preset holds and sends clear-board, tokens-cleared and preset-loaded
    to every connection; each connection that handles them ends with
    exactly that board, whatever its canvas showed before. *)
Theorem load_preset_resyncs_every_client σ socket now presetId preset :
  reachable σ ->
  find (fun p => Nat.eqb (p_id p) presetId) (boardPresets σ) = Some preset ->
  exists σ',
    handle socket now (LoadPreset presetId) σ
    = Ok tt σ' (presetMessages (presetSnap preset)) /\
    store σ' = presetSnap preset /\
    forall conn c,
      Canvas.view conn (presetMessages (presetSnap preset)) c
      = Canvas.ofStore (store σ').
Proof.
  intros Hreach Hfind.
  pose proof (reachable_keyedInv σ Hreach) as (_ & _ & _ & _ & Hps).
  rewrite handle_load_preset, Hfind. eexists. split; [reflexivity|].
  rewrite store_restoreState. split; [reflexivity|]. intros conn c.
  apply find_Some in Hfind as [Hin _].
  rewrite Forall_forall in Hps.
  pose proof (Hps preset (proj2 (list_elem_of_In _ _) Hin)) as Hs.
  apply (view_presetMessages conn (presetSnap preset) _ Hs).
Qed.

Lemma assignAt_last {A} (l : list A) x y :
  Client.assignAt (length l) y (l ++ [x]) = l ++ [y].
Proof.
  induction l as [|z l IH]; cbn; [reflexivity|]. rewrite IH. reflexivity.
Qed.

(** X23.  The sender of a stroke or an arrow stays in step with the
    store.  The server does not send stroke-done and arrow-done back to
    their sender.  A client that showed the store, pushed the stroke its
    pointerup listener built and sent it, shows the store again once the
    server has handled the event: the server stores the stroke under the
    sender's socket id, which the client had put into it.  For an arrow
    the client pushed it under a temporary id; once it has handled
    arrow-confirmed the canvas holds the arrow as the server stored it,
    provided no stored arrow carried the temporary id. *)
Theorem sender_stays_in_sync conn now σ :
  (forall strokeSeq activeTool ownEraseOnly currentPath color size stroke,
     Client.pointerup_stroke_done conn strokeSeq activeTool ownEraseOnly
       currentPath color size = Some stroke ->
     exists σ' out,
       handle conn now (StrokeDone stroke) σ = Ok tt σ' out /\
       Canvas.view conn out
         (Canvas.drawn stroke (Canvas.ofStore (store σ)))
       = Canvas.ofStore (store σ')) /\
  (forall arrow,
     hasId a_id (arrows (state σ)) (a_id arrow) = false ->
     exists σ' out,
       handle conn now (ArrowDone arrow) σ = Ok tt σ' out /\
       Canvas.view conn out
         (Canvas.drawnArrow arrow (Canvas.ofStore (store σ)))
       = Canvas.ofStore (store σ')).
Proof.
  split.
  - intros strokeSeq activeTool ownEraseOnly currentPath color size stroke
      Hup.
    assert (Hsaved : savedStroke conn stroke = stroke).
    { unfold Client.pointerup_stroke_done in Hup.
      destruct (_ && _); [injection Hup as <-; reflexivity|].
      destruct (_ && _); [|discriminate].
      destruct ownEraseOnly; [discriminate|].
      injection Hup as <-. reflexivity. }
    unfold savedStroke in Hsaved.
    open_server σ. handler_eval.
    destruct ra; cbn; do 2 eexists; (split; [reflexivity|]);
      unfold Canvas.view, inbox, Canvas.ofStore, Canvas.drawn, store; cbn;
      rewrite String.eqb_refl; cbn; rewrite Hsaved; reflexivity.
  - intros arrow Hfresh. unfold hasId in Hfresh.
    apply findIndex_None in Hfresh.
    pose proof (findIndex_snoc_fresh
                  (fun a => String.eqb (a_id a) (a_id arrow))
                  (arrows (state σ)) arrow Hfresh (String.eqb_refl _))
      as Hidx.
    revert Hidx. open_server σ. intros Hidx. handler_eval.
    destruct ra; cbn; do 2 eexists; (split; [reflexivity|]);
      unfold Canvas.view, inbox, Canvas.ofStore, Canvas.drawnArrow, store;
      cbn; rewrite String.eqb_refl; cbn; rewrite Hidx, assignAt_last;
      reflexivity.
Qed.

(** ** Relayed events *)

Lemma palette_not_empty c : In c USER_COLORS -> or_else c "#fff" = c.
Proof.
  cbn. intros H.
  repeat (destruct H as [<-|H]; [reflexivity|]). destruct H.
Qed.

(** X24.  draw-move and cursor-move are relayed and nothing else: in a
    reachable state they leave the whole server state as it is and send
    one message to the connections other than the sender.  For a sender
    that has joined, the message carries the colour join gave it and its
    user name, or "?" for an empty name; for a sender that has not
    joined it carries "#fff" and "?". *)
Theorem move_events_are_relayed socket now σ :
  reachable σ ->
  forall d x y,
    handle socket now (DrawMove d) σ
    = Ok tt σ
        [mkEmit (ToOthers socket) "draw-move"
           (PDrawMove d socket
              (match JsObj.get socket (users (state σ)) with
               | Some u => u_color u
               | None => "#fff"
               end))] /\
    handle socket now (CursorMove x y) σ
    = Ok tt σ
        [mkEmit (ToOthers socket) "cursor-move"
           (PCursor socket
              (match JsObj.get socket (users (state σ)) with
               | Some u => or_else (username u) "?"
               | None => "?"
               end)
              (match JsObj.get socket (users (state σ)) with
               | Some u => u_color u
               | None => "#fff"
               end)
              x y)].
Proof.
  intros Hreach d x y.
  destruct (reachable_usersInv σ Hreach) as [_ Hall].
  assert (Hcol : forall u, JsObj.get socket (users (state σ)) = Some u ->
                           or_else (u_color u) "#fff" = u_color u).
  { intros u Hu. apply palette_not_empty.
    exact (proj2 (JsObj_get_Forall _ _ _ _ Hall Hu)). }
  revert Hcol. open_server σ. intros Hcol. handler_eval.
  destruct (JsObj.get socket us) as [u|]; [|split; reflexivity].
  rewrite (Hcol u eq_refl). split; reflexivity.
Qed.

(** ** What the recorder logs *)

(** X25.  While the recorder is active the timeline gets, for every
    inbound event other than load-preset, replay-start and replay-stop,
    one new entry per board message sent, in the order sent and under
    the same event name, stamped with the event's clock reading relative
    to the start of the recording; messages that are not board messages
    (cursor and draw previews, the roster, arrow-confirmed, lists) are
    not logged.  The entries that were there before keep their number,
    their order, their offsets and their event names; nothing is said of
    their payloads, because the payload recorded for a token-add is the
    stored token object, which a later token-move or token-relabel
    changes. *)
Theorem recorder_logs_board_messages socket now msg σ σ' out :
  rec_active (rec σ) = true ->
  unrecorded msg = false ->
  handle socket now msg σ = Ok tt σ' out ->
  exists earlier suffix,
    rec_timeline (rec σ') = earlier ++ suffix /\
    schedule earlier = schedule (rec_timeline (rec σ)) /\
    map event suffix = map e_event (List.filter boardMessage out) /\
    Forall (fun e => t e = now - rec_start (rec σ)) suffix.
Proof.
  intros Hact Hun H. exists (rec_timeline (rec σ)).
  assert (Hgoal : exists suffix,
    rec_timeline (rec σ') = rec_timeline (rec σ) ++ suffix /\
    map event suffix = map e_event (List.filter boardMessage out) /\
    Forall (fun e => t e = now - rec_start (rec σ)) suffix).
  { destruct msg; try discriminate Hun.
    all: open_server σ; subst ra; revert H; handler_eval;
      repeat (case_scrutinee; handler_eval);
      intros H; try discriminate; injection H as <- <-; cbn;
      first [ exists []; split; [symmetry; apply app_nil_r|];
              split; [reflexivity|constructor]
            | eexists; split; [rewrite <- ?app_assoc; reflexivity|];
              split; [reflexivity|repeat constructor] ]. }
  destruct Hgoal as (suffix & H1 & H2 & H3).
  exists suffix. auto.
Qed.

(** ** Renaming *)

Lemma map_unmatched {A} (p : A -> bool) (f : A -> A) (l : list A) :
  Forall (fun x => p x = false) l ->
  map (fun x => if p x then f x else x) l = l.
Proof.
  induction 1 as [|x l Hx _ IH]; cbn; [reflexivity|].
  rewrite Hx, IH. reflexivity.
Qed.

(** With distinct keys, renaming the first element that carries a key
    renames every element that carries it. *)
Lemma renameFirst_is_map {A} (key : A -> nat) (id : nat) (f : A -> A)
    (l : list A) :
  NoDup (key <$> l) ->
  renameFirst (fun x => Nat.eqb (key x) id) f l
  = map (fun x => if Nat.eqb (key x) id then f x else x) l.
Proof.
  induction l as [|x l IH]; cbn; [reflexivity|].
  rewrite NoDup_cons. intros [Hn Hd].
  destruct (Nat.eqb (key x) id) eqn:E.
  - f_equal. symmetry.
    apply (map_unmatched (fun y => Nat.eqb (key y) id)).
    apply Forall_forall. intros y Hy.
    destruct (Nat.eqb (key y) id) eqn:Ey; [|reflexivity].
    apply Nat.eqb_eq in E, Ey. exfalso. apply Hn. rewrite E, <- Ey.
    apply list_elem_of_fmap_2, Hy.
  - rewrite (IH Hd). reflexivity.
Qed.

Lemma find_None_Forall {A} (p : A -> bool) (l : list A) :
  find p l = None -> Forall (fun x => p x = false) l.
Proof.
  induction l as [|x l IH]; cbn; [constructor|].
  destruct (p x) eqn:E; [discriminate|].
  intros H. constructor; [exact E|apply IH, H].
Qed.

Lemma find_existsb {A} (p : A -> bool) (l : list A) :
  existsb p l = match find p l with Some _ => true | None => false end.
Proof.
  induction l as [|x l IH]; cbn; [reflexivity|].
  destruct (p x); [reflexivity|exact IH].
Qed.

(** X26.  In a reachable state rename-recording gives the new name to
    the recording that carries the id and changes nothing else: every
    other recording, and everything but the name of the renamed one, is
    as before, and the new list is sent to every connection; for an id
    that names no recording nothing changes and nothing is sent.
    rename-preset does the same to the presets. *)
Theorem rename_changes_exactly_one_name socket now id newName σ :
  reachable σ ->
  (exists σ',
     handle socket now (RenameRecording id newName) σ
       = Ok tt σ'
           (if hasRecording id σ
            then [mkEmit ToAll "recordings-list"
                    (PRecordings (recInfos (recordings σ')))]
            else []) /\
     σ' = upd_recordings
            (map (fun r => if Nat.eqb (r_id r) id
                           then renamedRecording newName r else r)) σ) /\
  (exists σ',
     handle socket now (RenamePreset id newName) σ
       = Ok tt σ'
           (if hasPreset id σ
            then [mkEmit ToAll "presets-list"
                    (PPresets (presetInfos (boardPresets σ')))]
            else []) /\
     σ' = upd_boardPresets
            (map (fun p => if Nat.eqb (p_id p) id
                           then renamedPreset newName p else p)) σ).
Proof.
  intros Hreach.
  destruct (reachable_savedIdsInv σ Hreach) as (Hd & _ & Hpd & _).
  split.
  - rewrite handle_rename_recording. unfold hasRecording.
    rewrite find_existsb.
    pose proof (renameFirst_is_map r_id id (renamedRecording newName)
                  _ Hd) as Hm.
    destruct (find _ (recordings σ)) as [r|] eqn:Ef.
    + exists (upd_recordings
                (renameFirst (fun r => Nat.eqb (r_id r) id)
                   (renamedRecording newName)) σ).
      split; [reflexivity|].
      revert Hm. open_server σ. intros Hm. upd_norm. rewrite Hm.
      reflexivity.
    + exists σ. split; [reflexivity|].
      pose proof (map_unmatched _ (renamedRecording newName) _
                    (find_None_Forall _ _ Ef)) as Hu.
      revert Hu. open_server σ. intros Hu. upd_norm. rewrite Hu.
      reflexivity.
  - rewrite handle_rename_preset. unfold hasPreset.
    rewrite find_existsb.
    pose proof (renameFirst_is_map p_id id (renamedPreset newName)
                  _ Hpd) as Hm.
    destruct (find _ (boardPresets σ)) as [p|] eqn:Ef.
    + exists (upd_boardPresets
                (renameFirst (fun p => Nat.eqb (p_id p) id)
                   (renamedPreset newName)) σ).
      split; [reflexivity|].
      revert Hm. open_server σ. intros Hm. upd_norm. rewrite Hm.
      reflexivity.
    + exists σ. split; [reflexivity|].
      pose proof (map_unmatched _ (renamedPreset newName) _
                    (find_None_Forall _ _ Ef)) as Hu.
      revert Hu. open_server σ. intros Hu. upd_norm. rewrite Hu.
      reflexivity.
Qed.

(** ** Undo *)

Lemma findLastIndex_snoc {A} (p : A -> bool) (l : list A) x :
  p x = true -> Client.findLastIndex p (l ++ [x]) = Some (length l).
Proof.
  intros Hx. induction l as [|y l IH]; cbn.
  - rewrite Hx. reflexivity.
  - rewrite IH. reflexivity.
Qed.

Lemma findLastIndex_None {A} (p : A -> bool) (l : list A) :
  existsb p l = false -> Client.findLastIndex p l = None.
Proof.
  induction l as [|y l IH]; cbn; [reflexivity|].
  destruct (p y); cbn; [discriminate|]. intros H. rewrite IH by exact H.
  reflexivity.
Qed.

Lemma removeLast_snoc {A} (idOf : A -> string) (l : list A) x :
  Ui.removeLast idOf (idOf x) (l ++ [x]) = l.
Proof.
  unfold Ui.removeLast.
  rewrite findLastIndex_snoc by apply String.eqb_refl. apply splice1_last.
Qed.

Lemma nth_error_snoc {A} (l : list A) x :
  nth_error (l ++ [x]) (length l) = Some x.
Proof. apply nth_error_middle. Qed.

Lemma hasId_unlisted {A} (idOf : A -> string) (l : list A) id :
  hasId idOf l id = false -> unlisted idOf [id] l = l.
Proof.
  unfold hasId, unlisted, includes. intros H.
  apply (filter_none (fun x => existsb (String.eqb (idOf x)) [id])).
  apply Forall_forall. intros x Hx. cbn. rewrite orb_false_r.
  destruct (String.eqb (idOf x) id) eqn:E; [|reflexivity].
  exfalso. apply not_true_iff_false in H. apply H.
  apply existsb_exists. exists x. split; [apply list_elem_of_In, Hx|exact E].
Qed.

Lemma unlisted_snoc {A} (idOf : A -> string) (l : list A) x :
  hasId idOf l (idOf x) = false -> unlisted idOf [idOf x] (l ++ [x]) = l.
Proof.
  intros H. unfold unlisted. rewrite List.filter_app. cbn [List.filter].
  replace (includes [idOf x] (idOf x)) with true
    by (unfold includes; cbn; rewrite String.eqb_refl; reflexivity).
  cbn [negb]. rewrite app_nil_r. apply (hasId_unlisted idOf l _ H).
Qed.

(** The four handlers on the store. *)
Lemma handle_stroke_done_store socket now stroke σ :
  exists σ',
    handle socket now (StrokeDone stroke) σ
    = Ok tt σ' [mkEmit (ToOthers socket) "stroke-done"
                  (PStroke (savedStroke socket stroke))] /\
    strokes (state σ') = strokes (state σ) ++ [savedStroke socket stroke] /\
    arrows (state σ') = arrows (state σ) /\
    tokens (state σ') = tokens (state σ).
Proof.
  open_server σ. handler_eval.
  destruct ra; cbn; eexists; (split; [reflexivity|]); cbn; auto.
Qed.

Lemma handle_stroke_remove_store socket now ids σ :
  exists σ',
    handle socket now (StrokeRemove ids) σ
    = Ok tt σ' [mkEmit ToAll "stroke-remove" (PIds ids)] /\
    strokes (state σ') = removeByIds s_id ids (strokes (state σ)) /\
    arrows (state σ') = arrows (state σ) /\
    tokens (state σ') = tokens (state σ).
Proof.
  open_server σ. handler_eval.
  destruct ra; cbn; eexists; (split; [reflexivity|]); cbn; auto.
Qed.

Lemma handle_arrow_done_store socket now arrow σ :
  exists σ',
    handle socket now (ArrowDone arrow) σ
    = Ok tt σ' [mkEmit (ToOthers socket) "arrow-done"
                  (PArrow (savedArrow socket arrow σ));
                mkEmit (ToSocket socket) "arrow-confirmed"
                  (PArrowConfirmed (a_id arrow)
                     (savedArrow socket arrow σ))] /\
    strokes (state σ') = strokes (state σ) /\
    arrows (state σ') = arrows (state σ) ++ [savedArrow socket arrow σ] /\
    tokens (state σ') = tokens (state σ).
Proof.
  unfold savedArrow. open_server σ. handler_eval.
  destruct ra; cbn; eexists; (split; [reflexivity|]); cbn; auto.
Qed.

Lemma handle_arrow_remove_store socket now ids σ :
  exists σ',
    handle socket now (ArrowRemove ids) σ
    = Ok tt σ' [mkEmit ToAll "arrow-remove" (PIds ids)] /\
    strokes (state σ') = strokes (state σ) /\
    arrows (state σ') = removeByIds a_id ids (arrows (state σ)) /\
    tokens (state σ') = tokens (state σ).
Proof.
  open_server σ. handler_eval.
  destruct ra; cbn; eexists; (split; [reflexivity|]); cbn; auto.
Qed.

Lemma store_fields σ σ' :
  strokes (state σ') = strokes (state σ) ->
  arrows (state σ') = arrows (state σ) ->
  tokens (state σ') = tokens (state σ) ->
  store σ' = store σ.
Proof. unfold store. intros -> -> ->. reflexivity. Qed.

(** What the client does in the four steps. *)
Lemma hear_stroke_done conn d u :
  Ui.hear conn [mkEmit (ToOthers conn) "stroke-done" d] u = u.
Proof. unfold Ui.hear, inbox. cbn. rewrite String.eqb_refl. reflexivity. Qed.

Lemma undoLast_stroke stroke c stack :
  Ui.undoLast (Ui.drawStroke stroke (Ui.mk c stack))
  = (Ui.mk c stack, [StrokeRemove [s_id stroke]]).
Proof.
  unfold Ui.undoLast, Ui.drawStroke. cbn [Ui.myUndoStack Ui.canvas].
  rewrite last_snoc, removelast_last. cbn.
  unfold Canvas.drawn. cbn. rewrite removeLast_snoc. destruct c. reflexivity.
Qed.

Lemma hear_stroke_remove conn id c stack :
  hasId s_id (Canvas.allStrokes c) id = false ->
  Ui.hear conn [mkEmit ToAll "stroke-remove" (PIds [id])] (Ui.mk c stack)
  = Ui.mk c stack.
Proof.
  intros H. unfold Ui.hear, inbox. cbn. unfold Ui.listen. cbn.
  unfold Canvas.listen. cbn.
  rewrite removeListed_unlisted, (hasId_unlisted s_id _ _ H).
  destruct c. reflexivity.
Qed.

Lemma hear_arrow_done conn arrow saved c stack :
  hasId a_id (Canvas.allArrows c) (a_id arrow) = false ->
  Ui.hear conn
    [mkEmit (ToOthers conn) "arrow-done" (PArrow saved);
     mkEmit (ToSocket conn) "arrow-confirmed"
       (PArrowConfirmed (a_id arrow) saved)]
    (Ui.drawArrow arrow (Ui.mk c stack))
  = Ui.mk (Canvas.drawnArrow saved c)
          (stack ++ [Client.mkUndo "arrow" (a_id saved) false]).
Proof.
  intros H. unfold hasId in H. apply findIndex_None in H.
  pose proof (findIndex_snoc_fresh
                (fun a => String.eqb (a_id a) (a_id arrow))
                (Canvas.allArrows c) arrow H (String.eqb_refl _)) as Hidx.
  pose proof (findLastIndex_snoc
                (fun e => Client._pending e
                          && String.eqb (Client.u_target e) (a_id arrow))
                stack (Client.mkUndo "arrow" (a_id arrow) true)) as Hue.
  cbn in Hue. rewrite String.eqb_refl in Hue. specialize (Hue eq_refl).
  unfold Ui.hear, inbox. cbn. rewrite String.eqb_refl. cbn.
  unfold Ui.listen, Ui.drawArrow, Canvas.drawnArrow, Canvas.listen,
    Client.on_arrow_confirmed.
  cbn. rewrite Hidx, Hue, nth_error_snoc, !assignAt_last. reflexivity.
Qed.

Lemma hear_confirmed_unknown conn tempId saved c stack :
  hasId a_id (Canvas.allArrows c) tempId = false ->
  existsb (fun e => Client._pending e
                    && String.eqb (Client.u_target e) tempId) stack = false ->
  Ui.hear conn
    [mkEmit (ToOthers conn) "arrow-done" (PArrow saved);
     mkEmit (ToSocket conn) "arrow-confirmed" (PArrowConfirmed tempId saved)]
    (Ui.mk c stack)
  = Ui.mk c stack.
Proof.
  intros H Hstack. unfold hasId in H. apply findIndex_None in H.
  apply findLastIndex_None in Hstack.
  unfold Ui.hear, inbox. cbn. rewrite String.eqb_refl. cbn.
  unfold Ui.listen, Canvas.listen, Client.on_arrow_confirmed.
  cbn. rewrite H, Hstack. destruct c. reflexivity.
Qed.

Lemma undoLast_arrow saved c stack :
  Ui.undoLast (Ui.mk (Canvas.drawnArrow saved c)
                 (stack ++ [Client.mkUndo "arrow" (a_id saved) false]))
  = (Ui.mk c stack, [ArrowRemove [a_id saved]]).
Proof.
  unfold Ui.undoLast. cbn [Ui.myUndoStack Ui.canvas].
  rewrite last_snoc, removelast_last. cbn.
  rewrite removeLast_snoc. destruct c. reflexivity.
Qed.

Lemma hear_arrow_remove conn id c stack :
  hasId a_id (Canvas.allArrows c) id = false ->
  Ui.hear conn [mkEmit ToAll "arrow-remove" (PIds [id])] (Ui.mk c stack)
  = Ui.mk c stack.
Proof.
  intros H. unfold Ui.hear, inbox. cbn. unfold Ui.listen. cbn.
  unfold Canvas.listen. cbn.
  rewrite removeListed_unlisted, (hasId_unlisted a_id _ _ H).
  destruct c. reflexivity.
Qed.

Lemma pointerup_stroke_socket conn strokeSeq activeTool ownEraseOnly
    currentPath color size stroke :
  Client.pointerup_stroke_done conn strokeSeq activeTool ownEraseOnly
    currentPath color size = Some stroke ->
  savedStroke conn stroke = stroke.
Proof.
  unfold Client.pointerup_stroke_done. intros Hup.
  destruct (_ && _); [injection Hup as <-; reflexivity|].
  destruct (_ && _); [|discriminate].
  destruct ownEraseOnly; [discriminate|].
  injection Hup as <-. reflexivity.
Qed.

(** X27.  Drawing and undoing is a round trip.  A client that shows the
    store draws a stroke, or an arrow, under an id that no stored element
    carries; for an arrow, no stored arrow carries the id that the
    server's counter gives next either.  The server handles the event
    and the client the answer; the client then calls [undoLast], the
    server handles the removal it sends and the client the answer.
    Afterwards the store is exactly what it was before the drawing, the
    client's canvas shows it, and the undo stack is as before. *)
Theorem draw_then_undo_round_trip conn now now' stack σ :
  let u0 := Ui.mk (Canvas.ofStore (store σ)) stack in
  (forall strokeSeq activeTool ownEraseOnly currentPath color size stroke,
     Client.pointerup_stroke_done conn strokeSeq activeTool ownEraseOnly
       currentPath color size = Some stroke ->
     hasId s_id (strokes (state σ)) (s_id stroke) = false ->
     exists σ1 out1 σ2 out2 u3,
       handle conn now (StrokeDone stroke) σ = Ok tt σ1 out1 /\
       Ui.undoLast (Ui.hear conn out1 (Ui.drawStroke stroke u0))
         = (u3, [StrokeRemove [s_id stroke]]) /\
       handle conn now' (StrokeRemove [s_id stroke]) σ1 = Ok tt σ2 out2 /\
       store σ2 = store σ /\
       Ui.hear conn out2 u3 = u0) /\
  (forall arrow,
     hasId a_id (arrows (state σ)) (a_id arrow) = false ->
     hasId a_id (arrows (state σ)) (arrowIdOf (nextArrowId σ)) = false ->
     exists σ1 out1 σ2 out2 u3,
       handle conn now (ArrowDone arrow) σ = Ok tt σ1 out1 /\
       Ui.undoLast (Ui.hear conn out1 (Ui.drawArrow arrow u0))
         = (u3, [ArrowRemove [a_id (savedArrow conn arrow σ)]]) /\
       handle conn now' (ArrowRemove [a_id (savedArrow conn arrow σ)]) σ1
         = Ok tt σ2 out2 /\
       store σ2 = store σ /\
       Ui.hear conn out2 u3 = u0).
Proof.
  intros u0. split.
  - intros strokeSeq activeTool ownEraseOnly currentPath color size stroke
      Hup Hfresh.
    apply pointerup_stroke_socket in Hup.
    destruct (handle_stroke_done_store conn now stroke σ)
      as (σ1 & H1 & Hs1 & Ha1 & Ht1).
    destruct (handle_stroke_remove_store conn now' [s_id stroke] σ1)
      as (σ2 & H2 & Hs2 & Ha2 & Ht2).
    rewrite Hup in H1, Hs1.
    exists σ1. eexists. exists σ2. eexists. exists u0.
    split; [exact H1|]. split.
    { rewrite hear_stroke_done. apply undoLast_stroke. }
    split; [exact H2|]. split.
    + apply store_fields; [|congruence..].
      rewrite Hs2, Hs1. cbn [removeByIds fold_left].
      rewrite removeById_snoc, Hfresh. reflexivity.
    + apply hear_stroke_remove. exact Hfresh.
  - intros arrow Hfresh Hsfresh.
    change (arrowIdOf (nextArrowId σ))
      with (a_id (savedArrow conn arrow σ)) in Hsfresh.
    destruct (handle_arrow_done_store conn now arrow σ)
      as (σ1 & H1 & Hs1 & Ha1 & Ht1).
    destruct (handle_arrow_remove_store conn now'
                [a_id (savedArrow conn arrow σ)] σ1)
      as (σ2 & H2 & Hs2 & Ha2 & Ht2).
    exists σ1. eexists. exists σ2. eexists. exists u0.
    split; [exact H1|]. split.
    { unfold u0. rewrite hear_arrow_done by exact Hfresh.
      apply undoLast_arrow. }
    split; [exact H2|]. split.
    + apply store_fields; [congruence| |congruence].
      rewrite Ha2, Ha1. cbn [removeByIds fold_left].
      rewrite removeById_snoc, Hsfresh. reflexivity.
    + apply hear_arrow_remove. exact Hsfresh.
Qed.

(** X28.  An undo that overtakes the confirmation removes the arrow on
    the sender's side only.  The client draws an arrow and calls
    [undoLast] before arrow-confirmed has arrived: it drops its local
    copy and asks the server to remove the temporary id.  The server,
    which has stored the arrow under its own id, removes nothing; neither
    arrow-confirmed nor the echoed arrow-remove changes the client.  The
    store then holds the arrow, the sender's canvas does not, and the
    sender's undo stack has no entry for it. *)
Theorem early_undo_leaves_arrow_on_server conn now now' stack arrow σ :
  hasId a_id (arrows (state σ)) (a_id arrow) = false ->
  a_id arrow <> arrowIdOf (nextArrowId σ) ->
  existsb (fun e => Client._pending e
                    && String.eqb (Client.u_target e) (a_id arrow)) stack
    = false ->
  let u0 := Ui.mk (Canvas.ofStore (store σ)) stack in
  exists σ1 out1 σ2 out2,
    Ui.undoLast (Ui.drawArrow arrow u0) = (u0, [ArrowRemove [a_id arrow]]) /\
    handle conn now (ArrowDone arrow) σ = Ok tt σ1 out1 /\
    handle conn now' (ArrowRemove [a_id arrow]) σ1 = Ok tt σ2 out2 /\
    arrows (state σ2) = arrows (state σ) ++ [savedArrow conn arrow σ] /\
    Ui.hear conn out2 (Ui.hear conn out1 u0) = u0.
Proof.
  intros Hfresh Hne Hstack u0.
  destruct (handle_arrow_done_store conn now arrow σ)
    as (σ1 & H1 & Hs1 & Ha1 & Ht1).
  destruct (handle_arrow_remove_store conn now' [a_id arrow] σ1)
    as (σ2 & H2 & Hs2 & Ha2 & Ht2).
  assert (Hkeep : removeById a_id
                    (arrows (state σ) ++ [savedArrow conn arrow σ])
                    (a_id arrow)
                  = arrows (state σ) ++ [savedArrow conn arrow σ]).
  { apply removeById_absent. unfold hasId in *. rewrite existsb_app, Hfresh.
    cbn. rewrite orb_false_r. apply String.eqb_neq. congruence. }
  exists σ1. eexists. exists σ2. eexists.
  split.
  { unfold Ui.undoLast, Ui.drawArrow, u0. cbn [Ui.myUndoStack Ui.canvas].
    rewrite last_snoc, removelast_last. cbn.
    rewrite removeLast_snoc. reflexivity. }
  split; [exact H1|]. split; [exact H2|]. split.
  { rewrite Ha2, Ha1. cbn [removeByIds fold_left]. exact Hkeep. }
  unfold u0. rewrite hear_confirmed_unknown by assumption.
  apply hear_arrow_remove. exact Hfresh.
Qed.

Lemma handle_token_add_store socket now token σ :
  exists σ',
    handle socket now (TokenAdd token) σ
    = Ok tt σ' [mkEmit ToAll "token-add" (PToken (addedToken token σ))] /\
    strokes (state σ') = strokes (state σ) /\
    arrows (state σ') = arrows (state σ) /\
    tokens (state σ')
      = JsObj.set (tokenIdOf (nextTokenId σ)) (addedToken token σ)
          (tokens (state σ)) /\
    nextTokenId σ' = S (nextTokenId σ).
Proof.
  unfold addedToken. open_server σ. handler_eval.
  destruct ra; cbn; eexists; (split; [reflexivity|]); cbn; auto.
Qed.

Lemma handle_token_remove_store socket now id σ :
  exists σ',
    handle socket now (TokenRemove id) σ
    = Ok tt σ' [mkEmit ToAll "token-remove" (PTokenId id)] /\
    strokes (state σ') = strokes (state σ) /\
    arrows (state σ') = arrows (state σ) /\
    tokens (state σ') = JsObj.delete id (tokens (state σ)) /\
    nextTokenId σ' = nextTokenId σ.
Proof.
  open_server σ. handler_eval.
  destruct ra; cbn; eexists; (split; [reflexivity|]); cbn; auto.
Qed.

Lemma hear_token_add conn tk c stack :
  Ui.hear conn [mkEmit ToAll "token-add" (PToken tk)] (Ui.mk c stack)
  = Ui.mk (Canvas.mk (Canvas.allStrokes c) (Canvas.allArrows c)
             (JsObj.set (t_id tk) tk (Canvas.tokens c)))
          (if String.eqb (createdBy tk) conn
           then stack ++ [Client.mkUndo "token" (t_id tk) false]
           else stack).
Proof. reflexivity. Qed.

Lemma hear_token_remove conn id c stack :
  Ui.hear conn [mkEmit ToAll "token-remove" (PTokenId id)] (Ui.mk c stack)
  = Ui.mk (Canvas.mk (Canvas.allStrokes c) (Canvas.allArrows c)
             (JsObj.delete id (Canvas.tokens c)))
          stack.
Proof. reflexivity. Qed.

(** X29.  Placing a token and undoing is a round trip, and only the
    creator can undo it.  In a state whose store holds no token under
    the id that the counter gives next, a client that shows the store
    sends token-add with itself as creator; once it has handled the
    server's token-add its canvas holds the token under the server's id
    and its undo stack an entry for it, while the stack of every other
    client is unchanged.  [undoLast] then sends token-remove for that id;
    after the server and the client have handled it the store is what it
    was before, the canvas shows it and the stack is as before; the
    token counter stays advanced. *)
Theorem place_token_then_undo_round_trip conn now now' stack token σ :
  JsObj.get (tokenIdOf (nextTokenId σ)) (tokens (state σ)) = None ->
  createdBy token = conn ->
  let u0 := Ui.mk (Canvas.ofStore (store σ)) stack in
  let id := tokenIdOf (nextTokenId σ) in
  exists σ1 out1 σ2 out2 u3,
    handle conn now (TokenAdd token) σ = Ok tt σ1 out1 /\
    Ui.canvas (Ui.hear conn out1 u0) = Canvas.ofStore (store σ1) /\
    (forall other u, other <> conn ->
       Ui.myUndoStack (Ui.hear other out1 u) = Ui.myUndoStack u) /\
    Ui.undoLast (Ui.hear conn out1 u0) = (u3, [TokenRemove id]) /\
    handle conn now' (TokenRemove id) σ1 = Ok tt σ2 out2 /\
    store σ2 = store σ /\
    Ui.hear conn out2 u3 = u0 /\
    nextTokenId σ2 = S (nextTokenId σ).
Proof.
  intros Hfresh Hby u0 id.
  destruct (handle_token_add_store conn now token σ)
    as (σ1 & H1 & Hs1 & Ha1 & Ht1 & Hn1).
  destruct (handle_token_remove_store conn now' id σ1)
    as (σ2 & H2 & Hs2 & Ha2 & Ht2 & Hn2).
  assert (Hback : JsObj.delete id
                    (JsObj.set id (addedToken token σ) (tokens (state σ)))
                  = tokens (state σ))
    by (apply JsObj_delete_set_fresh, Hfresh).
  exists σ1. eexists. exists σ2. eexists. eexists.
  split; [exact H1|].
  unfold u0. rewrite hear_token_add.
  change (createdBy (addedToken token σ)) with (createdBy token).
  change (t_id (addedToken token σ)) with id.
  rewrite Hby, String.eqb_refl.
  split.
  { cbn. unfold Canvas.ofStore, store. cbn. rewrite Hs1, Ha1, Ht1.
    reflexivity. }
  split.
  { intros other [c st] Hother. rewrite hear_token_add.
    change (createdBy (addedToken token σ)) with (createdBy token).
    rewrite Hby. apply String.eqb_neq in Hother.
    rewrite String.eqb_sym, Hother. reflexivity. }
  split.
  { unfold Ui.undoLast. cbn [Ui.myUndoStack Ui.canvas].
    rewrite last_snoc, removelast_last. cbn. reflexivity. }
  split; [exact H2|].
  split.
  { apply store_fields; [congruence..|]. rewrite Ht2, Ht1. exact Hback. }
  split; [|congruence].
  rewrite hear_token_remove. cbn. fold id. rewrite Hback. reflexivity.
Qed.

(** ** Ids issued by a process that found nothing stored *)

(** X30.  A process that found nothing stored issues fresh ids.  After
    any run from the initial values, every token and arrow id in the
    store, in the snapshots held by the recorder and the replay engine
    and in the saved recordings and presets was issued by the counters
    of this process and is below them.  So the tokens of the store have
    pairwise distinct ids and so have its arrows, no token of the store
    sits under the id that the token counter gives next, and no stored
    arrow carries the id that the arrow counter gives next. *)
Theorem first_process_issues_fresh_ids turns σ out :
  run turns init = Ok tt σ out ->
  idsInv σ /\
  NoDup (t_id <$> JsObj.values (tokens (state σ))) /\
  NoDup (a_id <$> arrows (state σ)) /\
  JsObj.get (tokenIdOf (nextTokenId σ)) (tokens (state σ)) = None /\
  hasId a_id (arrows (state σ)) (arrowIdOf (nextArrowId σ)) = false.
Proof.
  intros Hrun. pose proof (run_idsInv turns σ out Hrun) as Hinv.
  split; [exact Hinv|].
  destruct Hinv as ([Ht Ha] & _). cbn in Ht, Ha.
  split; [eapply tokensOk_ids, Ht|].
  split; [exact (proj1 Ha)|].
  split; [exact (tokensOk_fresh _ _ Ht)|].
  pose proof (arrowsOk_fresh _ _ Ha) as Hn. unfold hasId.
  destruct (existsb _ _) eqn:E; [|reflexivity]. exfalso. apply Hn.
  apply existsb_exists in E as (a & Hin & Heq).
  apply String.eqb_eq in Heq. rewrite <- Heq.
  apply list_elem_of_fmap_2, list_elem_of_In, Hin.
Qed.
(** ** The properties on the session *)

Lemma reachable_afterSession : reachable afterSession.
Proof.
  eapply (reachable_run session init); [apply reachable_init|].
  vm_compute. reflexivity.
Qed.

Lemma reachable_midReplay : reachable midReplay.
Proof.
  eapply (reachable_run replayOfRecording1 init); [apply reachable_init|].
  vm_compute. reflexivity.
Qed.

Ltac sorted_clocks :=
  repeat first [ apply SSorted_nil | apply List.Forall_nil
               | apply SSorted_cons | (apply List.Forall_cons; [lia|]) ].

Ltac distinct_ids := apply (bool_decide_unpack _); vm_compute; exact I.

Lemma no_turn_throws_witness :
  exists σ' out,
    step (Inbound "c2" 3000 (ReplayStart 1)) afterSession = Ok tt σ' out.
Proof.
  exact (no_turn_throws afterSession (Inbound "c2" 3000 (ReplayStart 1))
           reachable_afterSession).
Defined.

Lemma saved_recordings_are_complete_witness :
  Forall recordingOk (recordings afterSession).
Proof.
  exact (saved_recordings_are_complete afterSession reachable_afterSession).
Defined.

Lemma saved_ids_are_distinct_witness : savedIdsInv afterSession.
Proof.
  exact (saved_ids_are_distinct afterSession reachable_afterSession).
Defined.

Lemma delete_removes_exactly_one_id_witness :
  (exists σ',
     handle "c1" 3000 (DeleteRecording 1) afterSession
       = Ok tt σ' [mkEmit ToAll "recordings-list" (PRecordings [])] /\
     hasRecording 1 σ' = false) /\
  (exists σ',
     handle "c1" 3000 (DeletePreset 1) afterSession
       = Ok tt σ' [mkEmit ToAll "presets-list" (PPresets [])] /\
     hasPreset 1 σ' = false).
Proof.
  destruct (delete_removes_exactly_one_id "c1" 3000 1%nat afterSession
              reachable_afterSession)
    as [(σ1 & H1 & E1 & G1) (σ2 & H2 & E2 & G2)].
  split.
  - exists σ1. split; [|exact G1]. rewrite H1, E1. vm_compute. reflexivity.
  - exists σ2. split; [|exact G2]. rewrite H2, E2. vm_compute. reflexivity.
Defined.




Lemma recording_holds_start_board_witness :
  exists r,
    last (recordings
            (after [Inbound "c1" 1000 RecordingStart;
                    Inbound "c1" 1200 (StrokeDone strokeA);
                    Inbound "c1" 1900 RecordingStop] init)) = Some r /\
    r_id r = 1%nat /\
    snapshot r = Some (store init).
Proof.
  destruct (recording_holds_start_board init "c1" 1000
              [Inbound "c1" 1200 (StrokeDone strokeA)] "c1" 1900
              (after [Inbound "c1" 1000 RecordingStart;
                      Inbound "c1" 1200 (StrokeDone strokeA);
                      Inbound "c1" 1900 RecordingStop] init)
              (sent [Inbound "c1" 1000 RecordingStart;
                     Inbound "c1" 1200 (StrokeDone strokeA);
                     Inbound "c1" 1900 RecordingStop] init))
    as (r & Hlast & Hid & _ & Hsnap & _).
  - vm_compute. reflexivity.
  - vm_compute. reflexivity.
  - repeat constructor. intros socket now. discriminate.
  - vm_compute. reflexivity.
  - exists r. auto.
Defined.

Lemma find_recording1 :
  find (fun r => Nat.eqb (r_id r) 1) (recordings afterSession)
  = Some recording1.
Proof. vm_compute. reflexivity. Qed.


Lemma recorded_offsets_ascend_witness :
  Forall recordingTimed (recordings afterSession).
Proof.
  apply (recorded_offsets_ascend session afterSession (sent session init)).
  - vm_compute. reflexivity.
  - unfold clocks, session. simpl. sorted_clocks.
Defined.

Lemma recording1_timed : recordingTimed recording1.
Proof.
  assert (E : timeline recording1
              = [mkEntry 200 "stroke-done" (PStroke strokeA);
                 mkEntry 300 "token-add" (PToken token1);
                 mkEntry 400 "arrow-done"
                   (PArrow (mkArrow "ar1" 10 10 90 40 "#e74c3c" 3 "solid"
                              "c1"))])
    by (vm_compute; reflexivity).
  assert (D : duration recording1 = 400) by (vm_compute; reflexivity).
  unfold recordingTimed. rewrite E, D. cbn. split.
  - sorted_clocks.
  - repeat constructor; cbn; lia.
Qed.

Lemma replay_timers_fall_due_in_order_witness :
  exists snap σ' out',
    handle "c2" 3000 (ReplayStart 1) afterSession = Ok tt σ' out' /\
    dueAt <$> replaySchedule 3000 (nextTimer afterSession) recording1 snap
      = [3150; 3550; 3650; 3750; 4300].
Proof.
  destruct (replay_timers_fall_due_in_order afterSession "c2" 3000 1%nat
              recording1 reachable_afterSession)
    as (snap & σ' & out' & Hrun & _ & _ & _ & _ & Hdue).
  - vm_compute. reflexivity.
  - exact find_recording1.
  - exact recording1_timed.
  - vm_compute. discriminate.
  - exists snap, σ', out'. split; [exact Hrun|].
    rewrite Hdue. vm_compute. reflexivity.
Defined.

Lemma roster_lists_each_connection_once_witness : usersInv afterSession.
Proof.
  exact (roster_lists_each_connection_once afterSession
           reachable_afterSession).
Defined.

Lemma join_and_disconnect_on_roster_witness :
  (exists σ' out,
     handle "c1" 3000 (Join "ann again") afterSession = Ok tt σ' out /\
     JsObj.values (users (state σ'))
       = others "c1" (JsObj.values (users (state afterSession)))
         ++ [joined "c1" "ann again" afterSession]) /\
  (exists σ' out,
     handle "c1" 3000 Disconnect afterSession = Ok tt σ' out /\
     JsObj.values (users (state σ'))
       = others "c1" (JsObj.values (users (state afterSession)))).
Proof.
  destruct (join_and_disconnect_on_roster "c1" 3000 "ann again" afterSession
              reachable_afterSession)
    as [(σ1 & out1 & H1 & V1 & _) (σ2 & out2 & H2 & V2 & _)].
  split; [exists σ1, out1|exists σ2, out2]; split; assumption.
Defined.

Lemma join_colours_rotate_witness :
  exists σ' out',
    handle "c3" 3000 (Join "cy") afterSession = Ok tt σ' out' /\
    joined "c3" "cy" afterSession = mkUser "c3" "cy" "#2ecc71".
Proof.
  destruct (join_colours_rotate session afterSession (sent session init)
              "c3" 3000 "cy")
    as (σ' & out' & Hrun & Hcol & _).
  - vm_compute. reflexivity.
  - exists σ', out'. split; [exact Hrun|exact Hcol].
Defined.

Lemma remove_drops_exactly_the_listed_witness :
  (exists σ' out,
     handle "c2" 3000 (ArrowRemove ["ar1"; "ar1"; "ar7"]) afterSession
       = Ok tt σ' out /\
     arrows (state σ') = []) /\
  (exists σ' out,
     handle "c2" 3000 (StrokeRemove ["c1-2"]) afterSession = Ok tt σ' out /\
     strokes (state σ') = [strokeA]).
Proof.
  destruct (remove_drops_exactly_the_listed "c2" 3000 ["ar1"; "ar1"; "ar7"]
              afterSession)
    as [Ha _].
  destruct Ha as (σ1 & out1 & H1 & A1 & _); [distinct_ids|].
  destruct (remove_drops_exactly_the_listed "c2" 3000 ["c1-2"]
              afterSession)
    as [_ Hs].
  destruct Hs as (σ2 & out2 & H2 & S2 & _); [distinct_ids|].
  split.
  - exists σ1, out1. split; [exact H1|]. rewrite A1. vm_compute. reflexivity.
  - exists σ2, out2. split; [exact H2|]. rewrite S2. vm_compute. reflexivity.
Defined.

Lemma token_add_then_remove_witness :
  exists σ' out,
    run [Inbound "c1" 3000 (TokenAdd tokenT);
         Inbound "c2" 3100 (TokenRemove (tokenIdOf (nextTokenId afterSession)))]
      afterSession
    = Ok tt σ' out /\
    store σ' = store afterSession.
Proof.
  destruct (token_add_then_remove "c1" 3000 tokenT "c2" 3100 afterSession)
    as (σ' & out & Hrun & _ & Hstore & _).
  - vm_compute. reflexivity.
  - exists σ', out. split; assumption.
Defined.

Lemma token_move_and_relabel_in_place_witness :
  exists σ' out,
    handle "c2" 3000 (TokenMove "t1" 70 80) afterSession = Ok tt σ' out /\
    JsObj.values (tokens (state σ'))
      = updateToken "t1" (movedTo 70 80)
          (JsObj.values (tokens (state afterSession))).
Proof.
  assert (Hget : JsObj.get "t1" (tokens (state afterSession)) = Some token1)
    by (vm_compute; reflexivity).
  destruct (token_move_and_relabel_in_place "c2" 3000 "t1" token1
              afterSession reachable_afterSession Hget)
    as (_ & Hmove & _).
  destruct (Hmove 70 80) as (σ' & out & Hrun & Hvals & _).
  exists σ', out. split; assumption.
Defined.

Lemma client_removal_loop_witness :
  removeByIds s_id ["c1-1"] [strokeA; strokeB]
  = Canvas.removeListed s_id ["c1-1"] [strokeA; strokeB].
Proof.
  apply (client_removal_loop s_id ["c1-1"] [strokeA; strokeB]).
  distinct_ids.
Defined.

Lemma joiner_is_shown_the_store_witness :
  exists σ' out,
    handle "c3" 3000 (Join "cy") afterSession = Ok tt σ' out /\
    store σ' = store afterSession /\
    Canvas.view "c3" out (Canvas.mk [strokeB] [] [])
    = Canvas.ofStore (store afterSession).
Proof.
  exact (joiner_is_shown_the_store "c3" 3000 "cy" afterSession
           (Canvas.mk [strokeB] [] []) reachable_afterSession).
Defined.

Lemma observer_stays_in_sync_witness :
  exists σ' out,
    step (Inbound "c1" 3000 (ArrowRemove ["ar1"])) afterSession
    = Ok tt σ' out /\
    Canvas.view "c2" out (Canvas.ofStore (store afterSession))
    = Canvas.ofStore (store σ').
Proof.
  apply (observer_stays_in_sync "c2"
           (Inbound "c1" 3000 (ArrowRemove ["ar1"])) afterSession
           reachable_afterSession).
  cbn [syncKeeping]. distinct_ids.
Defined.

Lemma replay_end_resyncs_every_client_witness :
  exists σ' out,
    step (Inbound "c2" 3100 ReplayStop) midReplay = Ok tt σ' out /\
    forall conn c, Canvas.view conn out c = Canvas.ofStore (store σ').
Proof.
  apply (replay_end_resyncs_every_client midReplay
           (Inbound "c2" 3100 ReplayStop) reachable_midReplay).
  - vm_compute. reflexivity.
  - left. exists "c2", 3100. reflexivity.
Defined.

Lemma load_preset_resyncs_every_client_witness :
  exists σ',
    handle "c1" 3000 (LoadPreset 1) afterSession
    = Ok tt σ' (presetMessages (presetSnap preset1)) /\
    forall conn c,
      Canvas.view conn (presetMessages (presetSnap preset1)) c
      = Canvas.ofStore (store σ').
Proof.
  assert (Hfind : find (fun p => Nat.eqb (p_id p) 1)
                    (boardPresets afterSession) = Some preset1)
    by (vm_compute; reflexivity).
  destruct (load_preset_resyncs_every_client afterSession "c1" 3000 1%nat
              preset1 reachable_afterSession Hfind)
    as (σ' & Hrun & _ & Hview).
  exists σ'. split; assumption.
Defined.

Lemma sender_stays_in_sync_witness :
  (exists σ' out,
     handle "c1" 3000 (StrokeDone strokeA) init = Ok tt σ' out /\
     Canvas.view "c1" out (Canvas.drawn strokeA (Canvas.ofStore (store init)))
     = Canvas.ofStore (store σ')) /\
  (exists σ' out,
     handle "c1" 3000 (ArrowDone arrowR) afterSession = Ok tt σ' out /\
     Canvas.view "c1" out
       (Canvas.drawnArrow arrowR (Canvas.ofStore (store afterSession)))
     = Canvas.ofStore (store σ')).
Proof.
  split.
  - apply (proj1 (sender_stays_in_sync "c1" 3000 init) 0%nat "draw" false
             [mkPoint 10 10; mkPoint 20 25] "#e74c3c" 3 strokeA).
    vm_compute. reflexivity.
  - apply (proj2 (sender_stays_in_sync "c1" 3000 afterSession) arrowR).
    vm_compute. reflexivity.
Defined.

Lemma move_events_are_relayed_witness :
  handle "c1" 3000 (CursorMove 5 6) afterSession
  = Ok tt afterSession
      [mkEmit (ToOthers "c1") "cursor-move"
         (PCursor "c1" "ann" "#e74c3c" 5 6)] /\
  handle "c9" 3000 (CursorMove 5 6) afterSession
  = Ok tt afterSession
      [mkEmit (ToOthers "c9") "cursor-move" (PCursor "c9" "?" "#fff" 5 6)].
Proof.
  split.
  - exact (proj2 (move_events_are_relayed "c1" 3000 afterSession
                    reachable_afterSession (mkDrawData "draw" 3 []) 5 6)).
  - exact (proj2 (move_events_are_relayed "c9" 3000 afterSession
                    reachable_afterSession (mkDrawData "draw" 3 []) 5 6)).
Defined.

Lemma recorder_logs_board_messages_witness :
  exists earlier suffix,
    rec_timeline
      (rec (after [Inbound "c2" 1350 (TokenMove "t1" 70 80)] tokenPlaced))
      = earlier ++ suffix /\
    schedule earlier = [(200, "stroke-done"); (300, "token-add")] /\
    map event suffix = ["token-move"] /\
    Forall (fun e => t e = 350) suffix.
Proof.
  destruct (recorder_logs_board_messages "c2" 1350 (TokenMove "t1" 70 80)
              tokenPlaced
              (after [Inbound "c2" 1350 (TokenMove "t1" 70 80)] tokenPlaced)
              (sent [Inbound "c2" 1350 (TokenMove "t1" 70 80)] tokenPlaced))
    as (earlier & suffix & Htl & Hearlier & Hnames & Ht).
  - vm_compute. reflexivity.
  - vm_compute. reflexivity.
  - vm_compute. reflexivity.
  - exists earlier, suffix. split; [exact Htl|].
    split; [rewrite Hearlier; vm_compute; reflexivity|].
    split; [rewrite Hnames; vm_compute; reflexivity|].
    replace 350 with (1350 - rec_start (rec tokenPlaced))
      by (vm_compute; reflexivity).
    exact Ht.
Defined.

Lemma rename_changes_exactly_one_name_witness :
  exists σ',
    handle "c2" 3000 (RenameRecording 1 "drill") afterSession
    = Ok tt σ'
        [mkEmit ToAll "recordings-list"
           (PRecordings (recInfos (recordings σ')))] /\
    map r_name (recordings σ') = [Named "drill"].
Proof.
  destruct (rename_changes_exactly_one_name "c2" 3000 1%nat "drill"
              afterSession reachable_afterSession)
    as [(σ' & Hrun & Hσ') _].
  exists σ'. split.
  - rewrite Hrun. vm_compute. reflexivity.
  - rewrite Hσ'. vm_compute. reflexivity.
Defined.

Lemma draw_then_undo_round_trip_witness :
  (exists σ1 out1 σ2 out2,
     handle "c1" 3000 (StrokeDone strokeC) afterSession = Ok tt σ1 out1 /\
     handle "c1" 3100 (StrokeRemove [s_id strokeC]) σ1 = Ok tt σ2 out2 /\
     store σ2 = store afterSession) /\
  (exists σ1 out1 σ2 out2,
     handle "c1" 3000 (ArrowDone arrowR) afterSession = Ok tt σ1 out1 /\
     handle "c1" 3100
       (ArrowRemove [a_id (savedArrow "c1" arrowR afterSession)]) σ1
     = Ok tt σ2 out2 /\
     store σ2 = store afterSession).
Proof.
  destruct (draw_then_undo_round_trip "c1" 3000 3100 [] afterSession)
    as [Hs Ha].
  split.
  - destruct (Hs 2%nat "draw" false [mkPoint 60 10; mkPoint 70 30]
                "#e74c3c" 3 strokeC)
      as (σ1 & out1 & σ2 & out2 & u3 & H1 & _ & H2 & Hst & _).
    + vm_compute. reflexivity.
    + vm_compute. reflexivity.
    + exists σ1, out1, σ2, out2. auto.
  - destruct (Ha arrowR)
      as (σ1 & out1 & σ2 & out2 & u3 & H1 & _ & H2 & Hst & _).
    + vm_compute. reflexivity.
    + vm_compute. reflexivity.
    + exists σ1, out1, σ2, out2. auto.
Defined.

Lemma early_undo_leaves_arrow_on_server_witness :
  exists σ1 out1 σ2 out2,
    handle "c1" 3000 (ArrowDone arrowR) afterSession = Ok tt σ1 out1 /\
    handle "c1" 3100 (ArrowRemove [a_id arrowR]) σ1 = Ok tt σ2 out2 /\
    arrows (state σ2)
      = arrows (state afterSession) ++ [savedArrow "c1" arrowR afterSession] /\
    Ui.hear "c1" out2
      (Ui.hear "c1" out1 (Ui.mk (Canvas.ofStore (store afterSession)) []))
    = Ui.mk (Canvas.ofStore (store afterSession)) [].
Proof.
  destruct (early_undo_leaves_arrow_on_server "c1" 3000 3100 [] arrowR
              afterSession)
    as (σ1 & out1 & σ2 & out2 & _ & H1 & H2 & Harr & Hui).
  - vm_compute. reflexivity.
  - vm_compute. discriminate.
  - reflexivity.
  - exists σ1, out1, σ2, out2. auto.
Defined.

Lemma place_token_then_undo_round_trip_witness :
  exists σ1 out1 σ2 out2,
    handle "c1" 3000 (TokenAdd tokenT) afterSession = Ok tt σ1 out1 /\
    handle "c1" 3100 (TokenRemove (tokenIdOf (nextTokenId afterSession))) σ1
    = Ok tt σ2 out2 /\
    store σ2 = store afterSession.
Proof.
  destruct (place_token_then_undo_round_trip "c1" 3000 3100 [] tokenT
              afterSession)
    as (σ1 & out1 & σ2 & out2 & u3 & H1 & _ & _ & _ & H2 & Hst & _).
  - vm_compute. reflexivity.
  - reflexivity.
  - exists σ1, out1, σ2, out2. auto.
Defined.

Lemma first_process_issues_fresh_ids_witness :
  JsObj.get (tokenIdOf (nextTokenId afterSession))
    (tokens (state afterSession)) = None /\
  hasId a_id (arrows (state afterSession))
    (arrowIdOf (nextArrowId afterSession)) = false.
Proof.
  destruct (first_process_issues_fresh_ids session afterSession
              (sent session init))
    as (_ & _ & _ & Ht & Ha).
  - vm_compute. reflexivity.
  - split; assumption.
Defined.
